(** * Inventory synchroniser: a shallow embedding of the update pipeline

    The development follows the TypeScript sources of the service:
    the two marketplace adapters, the webhook controller, the queue, lock,
    inventory and polling services, the repository and the worker.  The
    platform the sources call into (JSON, Date, Buffer, the crypto module,
    PostgreSQL, Redis and the job queue) is modelled in [Module JS] and in
    the primitive operations of each component. *)

From Stdlib Require Import ZArith NArith List Ascii String Lia Bool.
From Stdlib Require Import DecimalString DecimalN.
From stdpp Require Import base option strings gmap.
Import ListNotations.

Local Open Scope string_scope.
Local Open Scope list_scope.
Local Open Scope Z_scope.

(* ===================================================================== *)
(** ** The JavaScript platform                                            *)
(* ===================================================================== *)

Module JS.

(** A JavaScript string is represented by the bytes of its UTF-8 encoding,
    which is what [hmac.update(str)] and [Buffer.from(str)] feed on. *)
Definition bytes := list Z.

Definition code (c : ascii) : Z := Z.of_N (N_of_ascii c).
Definition chr (z : Z) : ascii := ascii_of_N (Z.to_N (z mod 256)).

Fixpoint bytes_of_string (s : string) : bytes :=
  match s with
  | EmptyString => []
  | String c r => code c :: bytes_of_string r
  end.

(** [str.length] for the strings of the model: the number of UTF-8 bytes
    that do not continue a character (exact for the Basic Multilingual
    Plane, where one character is one UTF-16 unit). *)
Fixpoint char_length (s : string) : Z :=
  match s with
  | EmptyString => 0
  | String c r =>
      (if Z.land (code c) 0xC0 =? 0x80 then 0 else 1) + char_length r
  end.

(** *** Lowercase hexadecimal, as produced by [digest('hex')] *)

Definition hex_digit (d : Z) : ascii :=
  if d <? 10 then chr (48 + d) else chr (87 + d).

Fixpoint hex_of_bytes (l : bytes) : string :=
  match l with
  | [] => EmptyString
  | b :: r =>
      String (hex_digit (Z.shiftr b 4))
        (String (hex_digit (Z.land b 15)) (hex_of_bytes r))
  end.

(** *** SHA-256 (FIPS 180-4) on 32-bit words held in [Z] *)

Definition mask32 : Z := 0xFFFFFFFF.
Definition wrap32 (x : Z) : Z := Z.land x mask32.
Definition plus32 (x y : Z) : Z := wrap32 (x + y).
Definition rotr32 (n x : Z) : Z :=
  wrap32 (Z.lor (Z.shiftr x n) (Z.shiftl x (32 - n))).

Definition choose (e f g : Z) : Z :=
  Z.lxor (Z.land e f) (Z.land (Z.lxor e mask32) g).
Definition majority (a b c : Z) : Z :=
  Z.lxor (Z.lxor (Z.land a b) (Z.land a c)) (Z.land b c).
Definition big_sigma0 (a : Z) : Z :=
  Z.lxor (Z.lxor (rotr32 2 a) (rotr32 13 a)) (rotr32 22 a).
Definition big_sigma1 (e : Z) : Z :=
  Z.lxor (Z.lxor (rotr32 6 e) (rotr32 11 e)) (rotr32 25 e).
Definition small_sigma0 (w : Z) : Z :=
  Z.lxor (Z.lxor (rotr32 7 w) (rotr32 18 w)) (Z.shiftr w 3).
Definition small_sigma1 (w : Z) : Z :=
  Z.lxor (Z.lxor (rotr32 17 w) (rotr32 19 w)) (Z.shiftr w 10).

(** The constants of the standard are the first 32 bits of the fractional
    parts of the cube roots of the first 64 primes, and, for the initial
    hash value, of the square roots of the first 8. *)
Definition is_prime (n : Z) : bool :=
  (1 <? n) && forallb (fun d => negb (n mod Z.of_nat d =? 0)) (seq 2 (Z.to_nat n - 2)).

Definition first_primes (count : nat) : list Z :=
  firstn count (List.filter is_prime (map Z.of_nat (seq 2 400))).

(** The largest [r] below [2 ^ bits] with [r ^ 3 <= n], bit by bit. *)
Fixpoint cube_root (bits : nat) (n r : Z) : Z :=
  match bits with
  | O => r
  | S b =>
      let r' := r + 2 ^ Z.of_nat b in
      cube_root b n (if r' * r' * r' <=? n then r' else r)
  end.

Definition round_constants : list Z :=
  Eval vm_compute in
    map (fun p => wrap32 (cube_root 40 (p * 2 ^ 96) 0)) (first_primes 64).

Definition initial_hash : list Z :=
  Eval vm_compute in
    map (fun p => wrap32 (Z.sqrt (p * 2 ^ 64))) (first_primes 8).

(** Big-endian packing of bytes into words and back. *)
Fixpoint words_of_bytes (l : bytes) : list Z :=
  match l with
  | b0 :: b1 :: b2 :: b3 :: r =>
      (Z.shiftl b0 24 + Z.shiftl b1 16 + Z.shiftl b2 8 + b3)
        :: words_of_bytes r
  | _ => []
  end.

Definition bytes_of_word (w : Z) : bytes :=
  [ Z.land (Z.shiftr w 24) 255; Z.land (Z.shiftr w 16) 255;
    Z.land (Z.shiftr w 8) 255; Z.land w 255 ].

Definition bytes_of_length (bits : Z) : bytes :=
  bytes_of_word (Z.shiftr bits 32) ++ bytes_of_word (wrap32 bits).

(** Padding: a one bit, zeros up to 56 mod 64 bytes, the bit length. *)
Definition pad (msg : bytes) : bytes :=
  let n := Z.of_nat (List.length msg) in
  let zeros := Z.to_nat ((55 - n) mod 64) in
  msg ++ [0x80] ++ repeat 0 zeros ++ bytes_of_length (8 * n).

(** The message schedule, kept newest first: the head is W[t-1]. *)
Fixpoint extend_schedule (k : nat) (rev_w : list Z) : list Z :=
  match k with
  | O => rev_w
  | S k' =>
      let w2 := nth 1 rev_w 0 in
      let w7 := nth 6 rev_w 0 in
      let w15 := nth 14 rev_w 0 in
      let w16 := nth 15 rev_w 0 in
      extend_schedule k'
        (plus32 (plus32 (small_sigma1 w2) w7)
                (plus32 (small_sigma0 w15) w16) :: rev_w)
  end.

Definition schedule (block : list Z) : list Z :=
  rev (extend_schedule 48 (rev block)).

Record regs := Regs { ra : Z; rb : Z; rc : Z; rd : Z;
                      re : Z; rf : Z; rg : Z; rh : Z }.

Definition round (s : regs) (kw : Z * Z) : regs :=
  let t1 := plus32 (plus32 (plus32 (rh s) (big_sigma1 (re s)))
                           (plus32 (choose (re s) (rf s) (rg s)) (fst kw)))
                   (snd kw) in
  let t2 := plus32 (big_sigma0 (ra s)) (majority (ra s) (rb s) (rc s)) in
  Regs (plus32 t1 t2) (ra s) (rb s) (rc s) (plus32 (rd s) t1) (re s) (rf s) (rg s).

Definition regs_of_list (h : list Z) : regs :=
  Regs (nth 0 h 0) (nth 1 h 0) (nth 2 h 0) (nth 3 h 0)
       (nth 4 h 0) (nth 5 h 0) (nth 6 h 0) (nth 7 h 0).

Definition list_of_regs (s : regs) : list Z :=
  [ra s; rb s; rc s; rd s; re s; rf s; rg s; rh s].

Definition compress (h : list Z) (block : list Z) : list Z :=
  let s := fold_left round (combine round_constants (schedule block))
                     (regs_of_list h) in
  map (fun p => plus32 (fst p) (snd p)) (combine h (list_of_regs s)).

Fixpoint hash_blocks (fuel : nat) (h : list Z) (ws : list Z) : list Z :=
  match fuel with
  | O => h
  | S fuel' =>
      match ws with
      | [] => h
      | _ => hash_blocks fuel' (compress h (firstn 16 ws)) (skipn 16 ws)
      end
  end.

Definition sha256 (msg : bytes) : bytes :=
  let ws := words_of_bytes (pad msg) in
  flat_map bytes_of_word (hash_blocks (S (List.length ws)) initial_hash ws).

(** *** HMAC (RFC 2104) with SHA-256, block size 64 *)

Definition hmac_key (key : bytes) : bytes :=
  let k := if 64 <? Z.of_nat (List.length key) then sha256 key else key in
  k ++ repeat 0 (64 - List.length k)%nat.

Definition hmac_sha256 (key msg : bytes) : bytes :=
  let k := hmac_key key in
  let ipad := map (Z.lxor 0x36) k in
  let opad := map (Z.lxor 0x5c) k in
  sha256 (opad ++ sha256 (ipad ++ msg)).

(** [crypto.createHmac('sha256', secret).update(payload).digest('hex')] *)
Definition createHmac_sha256_hex (secret payload : string) : string :=
  hex_of_bytes (hmac_sha256 (bytes_of_string secret) (bytes_of_string payload)).

(** *** Decimal rendering of integers ([String(n)], template literals) *)

Definition string_of_N (n : N) : string :=
  DecimalString.NilZero.string_of_uint (N.to_uint n).

Definition string_of_Z (z : Z) : string :=
  if z <? 0 then String "-" (string_of_N (Z.to_N (- z)))
  else string_of_N (Z.to_N z).

(** *** Numbers

    A number is a finite double.  One that is an integer is held in [Z];
    one with a fraction is [m / 2 ^ k] with [m] odd. *)
Inductive number : Type :=
| Int (z : Z)
| Frac (m : Z) (k : positive).

Definition MAX_SAFE_INTEGER : Z := 2 ^ 53 - 1.

(** [floor (log2 (n / d))], for positive [n] and [d]. *)
Definition log2_ratio (n d : Z) : Z :=
  let b := Z.log2 n - Z.log2 d in
  if (if 0 <=? b then d * 2 ^ b <=? n else d <=? n * 2 ^ (- b)) then b else b - 1.

(** Rounding to the doubles: the double nearest to [n / d] (positive),
    ties to the even mantissa, as a mantissa of 53 bits at most and a
    binary exponent, which is -1074 at least. *)
Definition nearest (n d : Z) : Z * Z :=
  let e := Z.max (log2_ratio n d - 52) (-1074) in
  let num := if 0 <=? e then n else n * 2 ^ (- e) in
  let den := if 0 <=? e then d * 2 ^ e else d in
  let q := num / den in
  let r := num mod den in
  let up := (den <? 2 * r) || ((den =? 2 * r) && Z.odd q) in
  ((if up then q + 1 else q), e).

(** Beyond the largest double the rounding gives an infinity. *)
Definition overflows (qe : Z * Z) : bool :=
  let '(q, e) := qe in 2 ^ 1024 <=? q * 2 ^ e.

Definition same_double (a b : Z * Z) : bool :=
  let '(q1, e1) := a in
  let '(q2, e2) := b in
  let e := Z.min e1 e2 in
  q1 * 2 ^ (e1 - e) =? q2 * 2 ^ (e2 - e).

(** The number a mantissa and an exponent stand for. *)
Definition of_double (negative : bool) (qe : Z * Z) : number :=
  let '(q, e) := qe in
  let sign := fun z : Z => if negative then - z else z in
  if q =? 0 then Int 0
  else if 0 <=? e then Int (sign (q * 2 ^ e))
  else
    let g := Z.min (- e) (Z.log2 (Z.land q (- q))) in
    let m := q / 2 ^ g in
    let k := - e - g in
    if k =? 0 then Int (sign m) else Frac (sign m) (Z.to_pos k).

(** The double nearest to [n / d], for [d] positive; [None] for an
    infinity. *)
Definition of_ratio (n d : Z) : option number :=
  if n =? 0 then Some (Int 0)
  else
    let qe := nearest (Z.abs n) d in
    if overflows qe then None else Some (of_double (n <? 0) qe).

(** [x * c] in doubles, for an integer [c]; a product that is an integer
    of 53 bits is exact. *)
Definition times (x : number) (c : Z) : option number :=
  match x with
  | Int z => if Z.abs (z * c) <=? 2 ^ 53 then Some (Int (z * c)) else of_ratio (z * c) 1
  | Frac m k => of_ratio (m * c) (2 ^ Z.pos k)
  end.

(** *** [Number::toString]: the shortest decimal that reads back as the
    double, laid out with or without an exponent *)

(** Whether [10 ^ n <= num / den]. *)
Definition reaches (num den n : Z) : bool :=
  if 0 <=? n then den * 10 ^ n <=? num else den <=? num * 10 ^ (- n).

(** The [n] with [10 ^ (n - 1) <= num / den < 10 ^ n]. *)
Fixpoint point_up (fuel : nat) (num den n : Z) : Z :=
  match fuel with
  | O => n
  | S f => if reaches num den n then point_up f num den (n + 1) else n
  end.

Fixpoint point_down (fuel : nat) (num den n : Z) : Z :=
  match fuel with
  | O => n
  | S f => if reaches num den (n - 1) then n else point_down f num den (n - 1)
  end.

Definition point (num den : Z) : Z :=
  if den <=? num then point_up 400 num den 1 else point_down 400 num den 0.

(** [s * 10 ^ p] as a ratio. *)
Definition decimal (s p : Z) : Z * Z :=
  if 0 <=? p then (s * 10 ^ p, 1) else (s, 10 ^ (- p)).

(** The digits [s], [k] of them, and the point [n] such that
    [s * 10 ^ (n - k)] reads back as the double [num / den], for the
    least [k] and, of two such [s], the one nearer to the double. *)
Fixpoint shortest (fuel : nat) (num den n k : Z) : Z * Z :=
  let '(xn, xd) := if 0 <=? k - n then (num * 10 ^ (k - n), den)
                   else (num, den * 10 ^ (n - k)) in
  let s := xn / xd in
  let r := xn mod xd in
  let self := nearest num den in
  let reads c := let '(cn, cd) := decimal c (n - k) in same_double (nearest cn cd) self in
  let low := reads s in
  let high := negb (r =? 0) && reads (s + 1) in
  let pick_high := high && (negb low || (xd <? 2 * r) || ((xd =? 2 * r) && Z.odd s)) in
  match fuel with
  | O => (s, n)
  | S f =>
      if r =? 0 then (s, n)
      else if pick_high then
        (if s + 1 =? 10 ^ k then (10 ^ (k - 1), n + 1) else (s + 1, n))
      else if low then (s, n)
      else shortest f num den n (k + 1)
  end.

Fixpoint zeros (n : nat) : string :=
  match n with
  | O => EmptyString
  | S k => String "0" (zeros k)
  end.

Definition layout (ds : string) (n : Z) : string :=
  let k := Z.of_nat (String.length ds) in
  if (k <=? n) && (n <=? 21) then ds +:+ zeros (Z.to_nat (n - k))
  else if (0 <? n) && (n <=? 21) then
    substring 0 (Z.to_nat n) ds +:+ "." +:+ substring (Z.to_nat n) (Z.to_nat (k - n)) ds
  else if (-6 <? n) && (n <=? 0) then "0." +:+ zeros (Z.to_nat (- n)) +:+ ds
  else
    let e := n - 1 in
    let es := (if e <? 0 then "-" else "+") +:+ string_of_Z (Z.abs e) in
    if k =? 1 then ds +:+ "e" +:+ es
    else substring 0 1 ds +:+ "." +:+ substring 1 (Z.to_nat (k - 1)) ds +:+ "e" +:+ es.

(** [String(x)] for a positive ratio that is a double. *)
Definition positive_to_string (num den : Z) : string :=
  let '(s, n) := shortest 17 num den (point num den) 1 in
  layout (string_of_Z s) n.

(** [String(x)]; an integer of 53 bits is printed in decimal. *)
Definition to_string (x : number) : string :=
  match x with
  | Int z =>
      if Z.abs z <=? 2 ^ 53 then string_of_Z z
      else
        let '(q, e) := nearest (Z.abs z) 1 in
        let '(num, den) := if 0 <=? e then (q * 2 ^ e, 1) else (q, 2 ^ (- e)) in
        (if z <? 0 then "-" else EmptyString) +:+ positive_to_string num den
  | Frac m k =>
      (if m <? 0 then "-" else EmptyString) +:+ positive_to_string (Z.abs m) (2 ^ Z.pos k)
  end.

(** A string without the character [-], like the decimal rendering of a
    number that is not negative. *)
Fixpoint dash_free (s : string) : bool :=
  match s with
  | EmptyString => true
  | String c r => negb (code c =? 45) && dash_free r
  end.

(** *** JSON values

    A number is [JNum z] when it is an integer and [JFrac m k], the
    number [Frac m k], when it has a fraction.  An object is the list of
    its own properties in enumeration order; a property that is
    [undefined] is an absent key. *)
#[local] Unset Elimination Schemes.
Inductive value : Type :=
| Null
| JBool (b : bool)
| JNum (z : Z)
| JFrac (m : Z) (k : positive)
| JStr (s : string)
| JArr (items : list value)
| JObj (props : list (string * value)).
#[local] Set Elimination Schemes.

Definition object := list (string * value).

(** Property read [o.k]: [None] stands for [undefined]. *)
Fixpoint get (k : string) (o : object) : option value :=
  match o with
  | [] => None
  | (k', v) :: r => if String.eqb k k' then Some v else get k r
  end.

(** Property write [o.k = v]: an existing key keeps its place. *)
Fixpoint set (k : string) (v : value) (o : object) : object :=
  match o with
  | [] => [(k, v)]
  | (k', v') :: r =>
      if String.eqb k k' then (k, v) :: r else (k', v') :: set k v r
  end.

(** [delete o.k] *)
Definition remove (k : string) (o : object) : object :=
  List.filter (fun kv => negb (String.eqb k (fst kv))) o.

(** Object spread [{...a, ...b}]. *)
Definition spread (a b : object) : object :=
  fold_left (fun acc kv => set (fst kv) (snd kv) acc) b a.

(** *** [JSON.stringify] *)

Definition hex4 (z : Z) : string :=
  String (hex_digit (Z.land (Z.shiftr z 12) 15))
    (String (hex_digit (Z.land (Z.shiftr z 8) 15))
       (String (hex_digit (Z.land (Z.shiftr z 4) 15))
          (String (hex_digit (Z.land z 15)) EmptyString))).

Definition escape_char (c : ascii) : string :=
  let n := code c in
  if n =? 34 then "\" +:+ String c EmptyString
  else if n =? 92 then "\\"
  else if n =? 8 then "\b"
  else if n =? 12 then "\f"
  else if n =? 10 then "\n"
  else if n =? 13 then "\r"
  else if n =? 9 then "\t"
  else if n <? 32 then "\u" +:+ hex4 n
  else String c EmptyString.

Fixpoint escape (s : string) : string :=
  match s with
  | EmptyString => EmptyString
  | String c r => escape_char c +:+ escape r
  end.

Definition quote (s : string) : string :=
  String (chr 34) (escape s +:+ String (chr 34) EmptyString).

Fixpoint join (sep : string) (l : list string) : string :=
  match l with
  | [] => EmptyString
  | [x] => x
  | x :: r => x +:+ sep +:+ join sep r
  end.

Fixpoint stringify (v : value) : string :=
  match v with
  | Null => "null"
  | JBool b => if b then "true" else "false"
  | JNum z => to_string (Int z)
  | JFrac m k => to_string (Frac m k)
  | JStr s => quote s
  | JArr items => "[" +:+ join "," (map stringify items) +:+ "]"
  | JObj props =>
      "{" +:+ join "," (map (fun kv => quote (fst kv) +:+ ":" +:+ stringify (snd kv)) props)
          +:+ "}"
  end.

(** *** [JSON.parse]

    A recursive-descent reader: insignificant white space, objects,
    arrays, strings with the two-character escapes, numbers, [true],
    [false] and [null].  A number literal is read as the double nearest
    to it.  A [\u] escape, or a literal beyond the largest double, is
    answered with [None], like a syntax error. *)

Definition is_space (c : ascii) : bool :=
  let n := code c in (n =? 32) || (n =? 9) || (n =? 10) || (n =? 13).

Definition is_digit (c : ascii) : bool :=
  let n := code c in (48 <=? n) && (n <=? 57).

Fixpoint skip_space (s : string) : string :=
  match s with
  | String c r => if is_space c then skip_space r else s
  | EmptyString => s
  end.

Definition unescape (c : ascii) : option ascii :=
  let n := code c in
  if (n =? 34) || (n =? 92) || (n =? 47) then Some c
  else if n =? 98 then Some (chr 8)
  else if n =? 102 then Some (chr 12)
  else if n =? 110 then Some (chr 10)
  else if n =? 114 then Some (chr 13)
  else if n =? 116 then Some (chr 9)
  else None.

(** The characters after an opening quote, up to the closing one. *)
Fixpoint read_string (s : string) : option (string * string) :=
  match s with
  | EmptyString => None
  | String c r =>
      if code c =? 34 then Some (EmptyString, r)
      else if code c =? 92 then
        match r with
        | String e r' =>
            match unescape e, read_string r' with
            | Some c', Some (body, rest) => Some (String c' body, rest)
            | _, _ => None
            end
        | EmptyString => None
        end
      else if code c <? 32 then None
      else
        match read_string r with
        | Some (body, rest) => Some (String c body, rest)
        | None => None
        end
  end.

Fixpoint read_digits (acc : Z) (s : string) : Z * string :=
  match s with
  | String c r =>
      if is_digit c then read_digits (10 * acc + (code c - 48)) r else (acc, s)
  | EmptyString => (acc, s)
  end.

(** The digits at the head of [s]: their value after [acc], how many
    they are, and the rest. *)
Definition read_run (acc : Z) (s : string) : Z * Z * string :=
  let '(n, rest) := read_digits acc s in
  (n, Z.of_nat (String.length s - String.length rest)%nat, rest).

(** The integer part: [0], or digits that do not begin with [0]. *)
Definition read_int_part (s : string) : option (Z * string) :=
  match s with
  | String c r =>
      if code c =? 48 then
        match r with
        | String d _ => if is_digit d then None else Some (0, r)
        | EmptyString => Some (0, r)
        end
      else if is_digit c then Some (read_digits 0 s)
      else None
  | EmptyString => None
  end.

(** [.digits], if there: the value of all the digits read so far and the
    number of those after the point. *)
Definition read_fraction (acc : Z) (s : string) : option (Z * Z * string) :=
  match s with
  | String c r =>
      if code c =? 46 then
        let '(n, count, rest) := read_run acc r in
        if count =? 0 then None else Some (n, count, rest)
      else Some (acc, 0, s)
  | EmptyString => Some (acc, 0, s)
  end.

(** [e], [E] with a signed exponent, if there. *)
Definition read_exponent (s : string) : option (Z * string) :=
  match s with
  | String c r =>
      if (code c =? 101) || (code c =? 69) then
        let '(negative, r') :=
          match r with
          | String sg r1 =>
              if code sg =? 45 then (true, r1)
              else if code sg =? 43 then (false, r1)
              else (false, r)
          | EmptyString => (false, r)
          end in
        let '(n, count, rest) := read_run 0 r' in
        if count =? 0 then None else Some ((if negative then - n else n), rest)
      else Some (0, s)
  | EmptyString => Some (0, s)
  end.

Definition read_unsigned (s : string) : option (Z * Z * string) :=
  match read_int_part s with
  | Some (i, r1) =>
      match read_fraction i r1 with
      | Some (m, places, r2) =>
          match read_exponent r2 with
          | Some (e, r3) => Some (m, e - places, r3)
          | None => None
          end
      | None => None
      end
  | None => None
  end.

(** A number literal [m * 10 ^ p], as the value it is read to. *)
Definition read_number (s : string) : option (number * string) :=
  let '(negative, body) :=
    match s with
    | String c r => if code c =? 45 then (true, r) else (false, s)
    | EmptyString => (false, s)
    end in
  match read_unsigned body with
  | Some (m, p, rest) =>
      let '(n, d) := decimal (if negative then - m else m) p in
      match of_ratio n d with
      | Some x => Some (x, rest)
      | None => None
      end
  | None => None
  end.

Definition of_number (x : number) : value :=
  match x with
  | Int z => JNum z
  | Frac m k => JFrac m k
  end.

Fixpoint strip_prefix (p s : string) : option string :=
  match p, s with
  | EmptyString, _ => Some s
  | String a p', String b s' => if Ascii.eqb a b then strip_prefix p' s' else None
  | String _ _, EmptyString => None
  end.

Fixpoint read_value (fuel : nat) (s : string) : option (value * string) :=
  match fuel with
  | O => None
  | S fuel' =>
      let s := skip_space s in
      match s with
      | EmptyString => None
      | String c r =>
          if code c =? 34 then
            match read_string r with
            | Some (str, rest) => Some (JStr str, rest)
            | None => None
            end
          else if code c =? 123 then
            match skip_space r with
            | String c1 r1 =>
                if code c1 =? 125 then Some (JObj [], r1)
                else read_members fuel' [] r
            | EmptyString => None
            end
          else if code c =? 91 then
            match skip_space r with
            | String c1 r1 =>
                if code c1 =? 93 then Some (JArr [], r1)
                else read_elements fuel' [] r
            | EmptyString => None
            end
          else if (code c =? 45) || is_digit c then
            match read_number s with
            | Some (x, rest) => Some (of_number x, rest)
            | None => None
            end
          else
            match strip_prefix "true" s, strip_prefix "false" s, strip_prefix "null" s with
            | Some rest, _, _ => Some (JBool true, rest)
            | _, Some rest, _ => Some (JBool false, rest)
            | _, _, Some rest => Some (Null, rest)
            | _, _, _ => None
            end
      end
  end
with read_members (fuel : nat) (acc : object) (s : string) : option (value * string) :=
  match fuel with
  | O => None
  | S fuel' =>
      match skip_space s with
      | String q r =>
          if code q =? 34 then
            match read_string r with
            | Some (key, rest) =>
                match skip_space rest with
                | String colon rest1 =>
                    if code colon =? 58 then
                      match read_value fuel' rest1 with
                      | Some (v, rest2) =>
                          let acc' := set key v acc in
                          match skip_space rest2 with
                          | String d rest3 =>
                              if code d =? 44 then read_members fuel' acc' rest3
                              else if code d =? 125 then Some (JObj acc', rest3)
                              else None
                          | EmptyString => None
                          end
                      | None => None
                      end
                    else None
                | EmptyString => None
                end
            | None => None
            end
          else None
      | EmptyString => None
      end
  end
with read_elements (fuel : nat) (acc : list value) (s : string) : option (value * string) :=
  match fuel with
  | O => None
  | S fuel' =>
      match read_value fuel' s with
      | Some (v, rest) =>
          match skip_space rest with
          | String d rest1 =>
              if code d =? 44 then read_elements fuel' (acc ++ [v]) rest1
              else if code d =? 93 then Some (JArr (acc ++ [v]), rest1)
              else None
          | EmptyString => None
          end
      | None => None
      end
  end.

Definition parse (s : string) : option value :=
  match read_value (S (String.length s)) s with
  | Some (v, rest) =>
      match skip_space rest with
      | EmptyString => Some v
      | String _ _ => None
      end
  | None => None
  end.

(** *** [Date]: time values and [toISOString]

    A time value is a number of milliseconds since the epoch; [new Date(t)]
    is an invalid date beyond 8.64e15 on either side, and [toISOString]
    throws a [RangeError] on an invalid date. *)

Definition max_time : Z := 8640000000000000.
Definition ms_per_day : Z := 86400000.

Definition time_clip (t : Z) : option Z :=
  if Z.abs t <=? max_time then Some t else None.

(** The time value of [new Date(x)], [None] for an invalid date: beyond
    the range the date is invalid, within it the fraction of a
    millisecond is cut off. *)
Definition Date (x : option number) : option Z :=
  match x with
  | Some (Int z) => time_clip z
  | Some (Frac m k) =>
      if Z.abs m <=? max_time * 2 ^ Z.pos k then Some (Z.quot m (2 ^ Z.pos k)) else None
  | None => None
  end.

(** The day [doe] of a 400-year era that starts on 1 March, as year
    within the era, month and day of the month. *)
Definition civil_of_era_day (doe : Z) : Z * Z * Z :=
  let yoe := (doe - doe / 1460 + doe / 36524 - doe / 146096) / 365 in
  let doy := doe - (365 * yoe + yoe / 4 - yoe / 100) in
  let mp := (5 * doy + 2) / 153 in
  let d := doy - (153 * mp + 2) / 5 + 1 in
  let m := if mp <? 10 then mp + 3 else mp - 9 in
  (yoe + (if m <=? 2 then 1 else 0), m, d).

(** Day number (days since 1970-01-01) to proleptic Gregorian
    year, month, day. *)
Definition civil_of_days (days : Z) : Z * Z * Z :=
  let z := days + 719468 in
  let era := z / 146097 in
  let '(y, m, d) := civil_of_era_day (z - era * 146097) in
  (y + era * 400, m, d).

(** [YearFromTime(t)] *)
Definition year_of_time (t : Z) : Z :=
  fst (fst (civil_of_days (t / ms_per_day))).

(** A field of fixed width: the [width] low decimal digits of [z], which
    are all its digits, zero padded, for [0 <= z < 10 ^ width]. *)
Fixpoint digits (width : nat) (z : Z) : string :=
  match width with
  | O => EmptyString
  | S k => digits k (z / 10) +:+ String (chr (48 + z mod 10)) EmptyString
  end.

(** Years 0 to 9999 take four digits, the others a sign and six. *)
Definition iso_year (y : Z) : string :=
  if (0 <=? y) && (y <=? 9999) then digits 4 y
  else if y <? 0 then "-" +:+ digits 6 (- y)
  else "+" +:+ digits 6 y.

Definition iso_of_time (t : Z) : string :=
  let '(y, m, d) := civil_of_days (t / ms_per_day) in
  let r := t mod ms_per_day in
  iso_year y +:+ "-" +:+ digits 2 m +:+ "-" +:+ digits 2 d +:+ "T"
    +:+ digits 2 (r / 3600000) +:+ ":" +:+ digits 2 (r / 60000 mod 60) +:+ ":"
    +:+ digits 2 (r / 1000 mod 60) +:+ "." +:+ digits 3 (r mod 1000) +:+ "Z".

(** [new Date(t).toISOString()]: [None] is the [RangeError]. *)
Definition toISOString (t : Z) : option string :=
  match time_clip t with
  | Some t' => Some (iso_of_time t')
  | None => None
  end.

(** [date.toISOString()] on the time value of a date. *)
Definition Date_toISOString (date : option Z) : option string :=
  option_map iso_of_time date.

(** *** [crypto.timingSafeEqual(Buffer.from(a), Buffer.from(b))]

    The two buffers must have the same byte length, otherwise the call
    throws a [RangeError] ([None]); on equal lengths it answers whether
    the contents are equal. *)
Definition bytes_eqb (a b : bytes) : bool :=
  (List.length a =? List.length b)%nat && forallb (fun p => fst p =? snd p) (combine a b).

Definition timingSafeEqual (a b : bytes) : option bool :=
  if (List.length a =? List.length b)%nat then Some (bytes_eqb a b) else None.

End JS.

(** Request bodies and JSON texts are written below with an apostrophe
    where the text has a double quote. *)
Fixpoint dq (s : string) : string :=
  match s with
  | EmptyString => EmptyString
  | String c r => String (if JS.code c =? 39 then JS.chr 34 else c) (dq r)
  end.

(* ===================================================================== *)
(** ** types/inventory.types.ts                                           *)
(* ===================================================================== *)

Module Types.

Inductive Source : Type := marketplace_a | marketplace_b.

Definition source_name (s : Source) : string :=
  match s with
  | marketplace_a => "marketplace_a"
  | marketplace_b => "marketplace_b"
  end.

Definition source_eqb (a b : Source) : bool :=
  match a, b with
  | marketplace_a, marketplace_a | marketplace_b, marketplace_b => true
  | _, _ => false
  end.

(** [InternalInventory], the type inferred from [InternalInventorySchema]. *)
Record InternalInventory : Type := {
  productId : string;
  quantity : Z;
  source : Source;
  warehouseId : option string;
  updatedAt : string;
  metadata : option JS.object
}.

Record MarketplaceAPayload : Type := {
  product_code : string;
  available_stock : Z;
  timestamp : string;
  warehouse : option string;
  a_metadata : option JS.object
}.

Record MarketplaceBPayload : Type := {
  sku : string;
  qty : Z;
  location_id : option string;
  last_modified : JS.number;
  additional_info : option JS.object
}.

(** [LockOptions] and [Partial<LockOptions>] *)
Record LockOptions : Type := { ttl : Z; retries : Z; retryDelay : Z }.

Record PartialLockOptions : Type := {
  opt_ttl : option Z;
  opt_retries : option Z;
  opt_retryDelay : option Z
}.

(** [InventoryJobData] *)
Record InventoryJobData : Type := {
  inventory : InternalInventory;
  retryCount : option Z
}.

(** *** The zod checks the schemas are built from

    A check reads the property found under a key ([None] when the key is
    absent) and answers the parsed value, or [None] for an issue. *)

Definition z_string (v : option JS.value) : option string :=
  match v with
  | Some (JS.JStr s) => Some s
  | _ => None
  end.

(** [z.number()]: any number. *)
Definition z_number (v : option JS.value) : option JS.number :=
  match v with
  | Some (JS.JNum z) => Some (JS.Int z)
  | Some (JS.JFrac m k) => Some (JS.Frac m k)
  | _ => None
  end.

(** [z.number().int()]: a number without a fraction; zod 4 takes the
    safe integers only, those up to [Number.MAX_SAFE_INTEGER] on either
    side. *)
Definition z_number_int (v : option JS.value) : option Z :=
  match v with
  | Some (JS.JNum z) => if Z.abs z <=? JS.MAX_SAFE_INTEGER then Some z else None
  | _ => None
  end.

(** [z.record(z.string(), z.any())]: a plain object with any values. *)
Definition z_record (v : option JS.value) : option JS.object :=
  match v with
  | Some (JS.JObj o) => Some o
  | _ => None
  end.

(** [.optional()]: an absent key is accepted as [undefined]. *)
Definition z_optional {A : Type} (check : option JS.value -> option A)
    (v : option JS.value) : option (option A) :=
  match v with
  | None => Some None
  | Some _ => option_map Some (check v)
  end.

(** What a failed [Schema.parse] reports: the path of the first issue
    (the empty path when the input is not an object at all). *)
Inductive ZodError : Type := Issue (path : string).

(** One field of a [z.object]: run the check on the property, or fail
    with the field's name. *)
Definition field {A : Type} (check : option JS.value -> option A)
    (name : string) (o : JS.object) : ZodError + A :=
  match check (JS.get name o) with
  | Some a => inr a
  | None => inl (Issue name)
  end.

Definition and_then {E A B : Type} (r : E + A) (k : A -> E + B) : E + B :=
  match r with
  | inl e => inl e
  | inr a => k a
  end.

Notation "'check!' x <- r ; k" := (and_then r (fun x => k))
  (at level 10, x name, r at level 100, k at level 200).

(** [MarketplaceAPayloadSchema.parse] *)
Definition MarketplaceAPayloadSchema (payload : JS.value)
  : ZodError + MarketplaceAPayload :=
  match payload with
  | JS.JObj o =>
      check! pc <- field z_string "product_code" o;
      check! st <- field z_number_int "available_stock" o;
      check! ts <- field z_string "timestamp" o;
      check! wh <- field (z_optional z_string) "warehouse" o;
      check! md <- field (z_optional z_record) "metadata" o;
      inr {| product_code := pc; available_stock := st; timestamp := ts;
             warehouse := wh; a_metadata := md |}
  | _ => inl (Issue EmptyString)
  end.

(** [MarketplaceBPayloadSchema.parse] *)
Definition MarketplaceBPayloadSchema (payload : JS.value)
  : ZodError + MarketplaceBPayload :=
  match payload with
  | JS.JObj o =>
      check! sk <- field z_string "sku" o;
      check! q <- field z_number_int "qty" o;
      check! loc <- field (z_optional z_string) "location_id" o;
      check! lm <- field z_number "last_modified" o;
      check! info <- field (z_optional z_record) "additional_info" o;
      inr {| sku := sk; qty := q; location_id := loc; last_modified := lm;
             additional_info := info |}
  | _ => inl (Issue EmptyString)
  end.

(** [InternalInventorySchema], as a check on a record of the inferred
    type.  [source], [warehouseId] and [metadata] are well-typed by
    construction; [datetime] stands for zod's [z.string().datetime()]
    test. *)
Definition InternalInventorySchema (datetime : string -> bool)
    (r : InternalInventory) : bool :=
  (1 <=? JS.char_length (productId r))
  && (0 <=? quantity r)
  && datetime (updatedAt r).

(** *** Exceptions *)

(** SQLSTATE classes of the errors the repository can meet. *)
Inductive PgError : Type :=
| check_violation          (* 23514 *)
| numeric_value_out_of_range  (* 22003 *)
| string_data_right_truncation  (* 22001 *)
| invalid_datetime_format  (* 22007 *)
| connection_failure       (* 08006 *)
| serialization_failure    (* 40001 *)
| deadlock_detected.       (* 40P01 *)

Inductive RangeErrorKind : Type :=
| invalid_time_value               (* Date.prototype.toISOString *)
| timing_safe_equal_length.        (* crypto.timingSafeEqual *)

Inductive Cause : Type :=
| zod (e : ZodError)
| range (k : RangeErrorKind).

(** Everything the code can throw. *)
Inductive Exn : Type :=
| RangeError (k : RangeErrorKind)
| InvalidMarketplaceAPayload (c : Cause)   (* Error(`Invalid Marketplace A payload: ..`) *)
| InvalidMarketplaceBPayload (c : Cause)   (* Error(`Invalid Marketplace B payload: ..`) *)
| UnableToAcquireLock (productId : string) (* Error(`Unable to acquire lock for product ..`) *)
| ExecutionError                           (* thrown by redlock: no quorum *)
| CustomIdError                            (* thrown by BullMQ: Error('Custom Id cannot ..') *)
| RedisError                               (* a failed Redis command *)
| AxiosError (status : option Z)           (* a failed HTTP request *)
| TypeError                                (* a property or call on a value that has none *)
| DatabaseError (e : PgError).             (* thrown by client.query *)

End Types.

(* ===================================================================== *)
(** ** adapters/marketplace-a.adapter.ts, adapters/marketplace-b.adapter.ts *)
(* ===================================================================== *)

Module MarketplaceAAdapter.
Import Types.

(** [transform]: whatever is thrown inside the [try] is rethrown as
    [Error(`Invalid Marketplace A payload: ${error}`)]. *)
Definition transform (payload : JS.value) : Exn + InternalInventory :=
  match MarketplaceAPayloadSchema payload with
  | inl e => inl (InvalidMarketplaceAPayload (zod e))
  | inr validated =>
      inr {| productId := product_code validated;
             quantity := available_stock validated;
             source := marketplace_a;
             warehouseId := warehouse validated;
             updatedAt := timestamp validated;
             metadata := a_metadata validated |}
  end.

(** [process.env.MARKETPLACE_A_SECRET || 'secret']: an unset or empty
    variable gives the default. *)
Definition secret_of (env_secret : option string) : string :=
  match env_secret with
  | Some (String c r) => String c r
  | _ => "secret"
  end.

(** [validateSignature(payload, signature)]; [inl] is the exception of
    [timingSafeEqual] on buffers of different lengths. *)
Definition validateSignature (env_secret : option string)
    (payload signature : string) : Exn + bool :=
  let expectedSignature :=
    JS.createHmac_sha256_hex (secret_of env_secret) payload in
  match JS.timingSafeEqual (JS.bytes_of_string signature)
                           (JS.bytes_of_string expectedSignature) with
  | Some b => inr b
  | None => inl (RangeError timing_safe_equal_length)
  end.

End MarketplaceAAdapter.

Module MarketplaceBAdapter.
Import Types.

(** [transform]: the schema check and the date conversion both sit
    inside the [try], so a [RangeError] of [toISOString] is rethrown as
    an invalid-payload error as well. *)
Definition transform (payload : JS.value) : Exn + InternalInventory :=
  match MarketplaceBPayloadSchema payload with
  | inl e => inl (InvalidMarketplaceBPayload (zod e))
  | inr validated =>
      match JS.Date_toISOString (JS.Date (JS.times (last_modified validated) 1000)) with
      | None => inl (InvalidMarketplaceBPayload (range invalid_time_value))
      | Some iso =>
          inr {| productId := sku validated;
                 quantity := qty validated;
                 source := marketplace_b;
                 warehouseId := location_id validated;
                 updatedAt := iso;
                 metadata := additional_info validated |}
      end
  end.

(** [transformBatch]: items that throw are mapped to [null] and
    filtered out. *)
Definition transformBatch (payloads : list JS.value) : list InternalInventory :=
  flat_map (fun payload =>
              match transform payload with
              | inr item => [item]
              | inl _ => []
              end) payloads.

End MarketplaceBAdapter.

(* ===================================================================== *)
(** ** The state the service runs against                                 *)
(* ===================================================================== *)

Module Runtime.
Import Types.

(** *** config/database.config.ts: the two tables *)

(** A row of [inventory]. *)
Record InventoryRecord : Type := {
  id : Z;
  product_id : string;
  row_quantity : Z;
  row_source : Source;
  warehouse_id : option string;
  updated_at : string;
  created_at : Z;
  row_metadata : option JS.object
}.

(** A row of [inventory_audit]. *)
Record AuditRecord : Type := {
  audit_id : Z;
  audit_product_id : string;
  old_quantity : option Z;
  new_quantity : Z;
  audit_source : Source;
  changed_at : Z;
  audit_metadata : JS.object
}.

(** The tables hold their rows in insertion order; the two sequences
    behind the [SERIAL] columns are not transactional. *)
Record Tables : Type := {
  inventory_rows : list InventoryRecord;
  audit_rows : list AuditRecord
}.

Record Database : Type := {
  tables : Tables;
  inventory_id_seq : Z;
  inventory_audit_id_seq : Z
}.

(** *** The queue [inventory-updates] *)

Inductive JobState : Type := waiting | active | delayed | completed | failed.

Record Job : Type := {
  job_id : string;
  job_name : string;
  job_data : InventoryJobData;
  job_priority : Z;
  attemptsMade : Z;
  job_state : JobState;
  job_progress : Z;
  job_timestamp : Z;      (* creation time, ms *)
  job_run_at : Z          (* when a delayed job becomes eligible, ms *)
}.

(** *** Redis: string values with an optional expiry instant (ms) *)

Record Entry : Type := { entry_value : string; entry_expires : option Z }.

(** *** The singleton polling task *)

Record Poller : Type := {
  isRunning : bool;
  consecutiveFailures : Z;
  reset_timers : list Z   (* due instants of the pending [setTimeout]s *)
}.

(** *** What the surroundings decide

    The operations that leave the process are answered by the
    environment: how long each takes, whether it fails, what Marketplace B
    returns, which nonce the lock library draws. *)

Inductive Io : Type := io_redis | io_http | io_queue | io_db | io_lock.

(** The queries of one [upsert], in order. *)
Inductive Query : Type :=
| q_connect | q_begin | q_select | q_upsert | q_audit | q_commit.

Record Env : Type := {
  MARKETPLACE_A_SECRET : option string;
  latency : Io -> Z;
  upstream : option Z -> Exn + JS.value;  (* [response.data] for [since] *)
  db_fault : Query -> option PgError;
  pg_timestamp_ok : string -> bool;       (* PostgreSQL reads the text as a TIMESTAMP *)
  queue_fault : bool;
  redis_fault : bool;
  lock_fault : bool;
  release_fault : bool;
  retry_jitter : nat -> Z;
  nonce : Z -> string
}.

Record World : Type := {
  env : Env;
  now : Z;                        (* [Date.now()], ms since the epoch *)
  redis : gmap string Entry;
  queue : list Job;
  db : Database;
  poller : Poller
}.

Definition set_now (t : Z) (w : World) : World :=
  {| env := env w; now := t; redis := redis w; queue := queue w;
     db := db w; poller := poller w |}.
Definition set_redis (r : gmap string Entry) (w : World) : World :=
  {| env := env w; now := now w; redis := r; queue := queue w;
     db := db w; poller := poller w |}.
Definition set_queue (q : list Job) (w : World) : World :=
  {| env := env w; now := now w; redis := redis w; queue := q;
     db := db w; poller := poller w |}.
Definition set_db (d : Database) (w : World) : World :=
  {| env := env w; now := now w; redis := redis w; queue := queue w;
     db := d; poller := poller w |}.
Definition set_poller (p : Poller) (w : World) : World :=
  {| env := env w; now := now w; redis := redis w; queue := queue w;
     db := db w; poller := p |}.

(** *** Computations: state passing with exceptions

    An [async] function is a function from the world to the world after
    it and either the value it resolves to or the exception it rejects
    with. *)
Definition M (A : Type) : Type := World -> World * (Exn + A).

Definition ret {A : Type} (a : A) : M A := fun w => (w, inr a).
Definition throw {A : Type} (e : Exn) : M A := fun w => (w, inl e).

Definition bind {A B : Type} (m : M A) (k : A -> M B) : M B :=
  fun w =>
    match m w with
    | (w', inr a) => k a w'
    | (w', inl e) => (w', inl e)
    end.

(** [try { m } catch (error) { h error }] *)
Definition try_catch {A : Type} (m : M A) (h : Exn -> M A) : M A :=
  fun w =>
    match m w with
    | (w', inr a) => (w', inr a)
    | (w', inl e) => h e w'
    end.

(** [try { m } finally { f }]: [f] runs on both exits, and an exception
    of [f] replaces the outcome of [m]. *)
Definition try_finally {A : Type} (m : M A) (f : M unit) : M A :=
  fun w =>
    match m w with
    | (w', r) =>
        match f w' with
        | (w'', inr _) => (w'', r)
        | (w'', inl e) => (w'', inl e)
        end
    end.

Definition read {A : Type} (f : World -> A) : M A := fun w => (w, inr (f w)).
Definition update (f : World -> World) : M unit := fun w => (f w, inr tt).
Definition lift {A : Type} (r : Exn + A) : M A := fun w => (w, r).

Notation "'await' x <- m ; k" := (bind m (fun x => k))
  (at level 10, x name, m at level 100, k at level 200).
Notation "'exec' m ; k" := (bind m (fun _ => k))
  (at level 10, m at level 100, k at level 200).

(** An awaited operation on [io] takes the time the environment says. *)
Definition elapse (io : Io) : M unit :=
  update (fun w => set_now (now w + latency (env w) io) w).

(** A Redis key that has expired is gone. *)
Definition live (t : Z) (e : Entry) : bool :=
  match entry_expires e with
  | Some x => t <? x
  | None => true
  end.

Definition redis_lookup (k : string) (w : World) : option string :=
  match redis w !! k with
  | Some e => if live (now w) e then Some (entry_value e) else None
  | None => None
  end.

(** [redisClient.get(key)] *)
Definition redis_get (k : string) : M (option string) :=
  exec elapse io_redis;
  await fault <- read (fun w => redis_fault (env w));
  if (fault : bool) then throw RedisError else read (redis_lookup k).

(** [redisClient.set(key, value)] *)
Definition redis_set (k v : string) : M unit :=
  exec elapse io_redis;
  await fault <- read (fun w => redis_fault (env w));
  if (fault : bool) then throw RedisError
  else update (fun w =>
         set_redis (<[k := {| entry_value := v; entry_expires := None |}]> (redis w)) w).

End Runtime.

(* ===================================================================== *)
(** ** repositories/inventory.repository.ts                               *)
(* ===================================================================== *)

Module InventoryRepository.
Import Types Runtime.

(** One round trip to PostgreSQL: it takes time and fails when the
    environment says so. *)
Definition query (q : Query) : M unit :=
  exec elapse io_db;
  await fault <- read (fun w => db_fault (env w) q);
  match fault with
  | Some e => throw (DatabaseError e)
  | None => ret tt
  end.

Definition set_tables (t : Tables) (w : World) : World :=
  set_db {| tables := t;
            inventory_id_seq := inventory_id_seq (db w);
            inventory_audit_id_seq := inventory_audit_id_seq (db w) |} w.

(** [WHERE product_id = $1 AND source = $2] *)
Definition same_key (p : string) (s : Source) (r : InventoryRecord) : bool :=
  String.eqb (product_id r) p && source_eqb (row_source r) s.

(** [SELECT * FROM inventory WHERE product_id = $1 AND source = $2 FOR UPDATE] *)
Definition select_for_update (p : string) (s : Source) : M (list InventoryRecord) :=
  exec query q_select;
  read (fun w => List.filter (same_key p s) (inventory_rows (tables (db w)))).

(** [x || null] on a string: the empty string is falsy. *)
Definition string_or_null (x : option string) : option string :=
  match x with
  | Some EmptyString => None
  | _ => x
  end.

(** [rows[0]?.quantity || null]: zero is falsy. *)
Definition quantity_or_null (rows : list InventoryRecord) : option Z :=
  match rows with
  | r :: _ => if row_quantity r =? 0 then None else Some (row_quantity r)
  | [] => None
  end.

(** The column types of [inventory]: [INTEGER], [VARCHAR(255)] and
    [TIMESTAMP] reject a value they cannot hold.  (PostgreSQL cuts an
    over-long string whose excess is spaces only; the model rejects it.) *)
Definition int4_ok (n : Z) : bool := (-2147483648 <=? n) && (n <=? 2147483647).
Definition varchar_ok (n : Z) (s : option string) : bool :=
  match s with
  | Some x => JS.char_length x <=? n
  | None => true
  end.

Definition coerce (env : Env) (inventory : InternalInventory) : option PgError :=
  if negb (varchar_ok 255 (Some (productId inventory))) then Some string_data_right_truncation
  else if negb (int4_ok (quantity inventory)) then Some numeric_value_out_of_range
  else if negb (varchar_ok 255 (string_or_null (warehouseId inventory)))
       then Some string_data_right_truncation
  else if negb (pg_timestamp_ok env (updatedAt inventory)) then Some invalid_datetime_format
  else None.

(** [DO UPDATE SET quantity = EXCLUDED.quantity, warehouse_id = ..,
    updated_at = .., metadata = ..] on the row in conflict. *)
Definition overwrite (inventory : InternalInventory) (r : InventoryRecord)
  : InventoryRecord :=
  {| id := id r;
     product_id := product_id r;
     row_quantity := quantity inventory;
     row_source := row_source r;
     warehouse_id := string_or_null (warehouseId inventory);
     updated_at := updatedAt inventory;
     created_at := created_at r;
     row_metadata := metadata inventory |}.

Fixpoint update_conflict (inventory : InternalInventory) (rows : list InventoryRecord)
  : list InventoryRecord :=
  match rows with
  | [] => []
  | r :: rest =>
      if same_key (productId inventory) (source inventory) r
      then overwrite inventory r :: rest
      else r :: update_conflict inventory rest
  end.

(** [nextval] of a [SERIAL] column; the value is consumed whether or
    not the statement goes through. *)
Definition next_inventory_id : M Z :=
  await n <- read (fun w => inventory_id_seq (db w) + 1);
  exec update (fun w =>
         set_db {| tables := tables (db w);
                   inventory_id_seq := n;
                   inventory_audit_id_seq := inventory_audit_id_seq (db w) |} w);
  ret n.

Definition next_audit_id : M Z :=
  await n <- read (fun w => inventory_audit_id_seq (db w) + 1);
  exec update (fun w =>
         set_db {| tables := tables (db w);
                   inventory_id_seq := inventory_id_seq (db w);
                   inventory_audit_id_seq := n |} w);
  ret n.

(** The row a plain [INSERT] adds; [started] is the transaction's
    [CURRENT_TIMESTAMP], the default of [created_at]. *)
Definition inserted_row (fresh started : Z) (inventory : InternalInventory)
  : InventoryRecord :=
  {| id := fresh;
     product_id := productId inventory;
     row_quantity := quantity inventory;
     row_source := source inventory;
     warehouse_id := string_or_null (warehouseId inventory);
     updated_at := updatedAt inventory;
     created_at := started;
     row_metadata := metadata inventory |}.

(** [INSERT .. ON CONFLICT (product_id, source) DO UPDATE ..] on the rows. *)
Definition insert_or_update (fresh started : Z) (inventory : InternalInventory)
    (rows : list InventoryRecord) : list InventoryRecord :=
  if existsb (same_key (productId inventory) (source inventory)) rows
  then update_conflict inventory rows
  else rows ++ [inserted_row fresh started inventory].

(** [INSERT INTO inventory .. ON CONFLICT (product_id, source) DO UPDATE
    .. RETURNING *] *)
Definition insert_on_conflict (started : Z) (inventory : InternalInventory)
  : M (list InventoryRecord) :=
  exec query q_upsert;
  await bad <- read (fun w => coerce (env w) inventory);
  match bad with
  | Some e => throw (DatabaseError e)
  | None =>
      await fresh <- next_inventory_id;
      if quantity inventory <? 0 then throw (DatabaseError check_violation)
      else
        await rows <- read (fun w => inventory_rows (tables (db w)));
        let rows' := insert_or_update fresh started inventory rows in
        exec update (fun w =>
               set_tables {| inventory_rows := rows';
                             audit_rows := audit_rows (tables (db w)) |} w);
        ret (List.filter (same_key (productId inventory) (source inventory)) rows')
  end.

(** [{ ...inventory.metadata, warehouse_id: inventory.warehouseId }] as
    it is stored: a property whose value is [undefined] is left out. *)
Definition audit_metadata_of (inventory : InternalInventory) : JS.object :=
  let base := match metadata inventory with Some o => o | None => [] end in
  match warehouseId inventory with
  | Some wh => JS.set "warehouse_id" (JS.JStr wh) base
  | None => JS.remove "warehouse_id" base
  end.

Definition audit_entry (fresh started : Z) (inventory : InternalInventory)
    (oldQuantity : option Z) : AuditRecord :=
  {| audit_id := fresh;
     audit_product_id := productId inventory;
     old_quantity := oldQuantity;
     new_quantity := quantity inventory;
     audit_source := source inventory;
     changed_at := started;
     audit_metadata := audit_metadata_of inventory |}.

(** [INSERT INTO inventory_audit (product_id, old_quantity, new_quantity,
    source, metadata)] *)
Definition insert_audit (started : Z) (inventory : InternalInventory)
    (oldQuantity : option Z) : M unit :=
  exec query q_audit;
  await fresh <- next_audit_id;
  update (fun w =>
    set_tables
      {| inventory_rows := inventory_rows (tables (db w));
         audit_rows := audit_rows (tables (db w))
                       ++ [audit_entry fresh started inventory oldQuantity] |} w).

(** [ROLLBACK]: the tables are as they were at [BEGIN].  (The statement
    itself is taken to go through; when the connection is lost PostgreSQL
    aborts the transaction on its own.) *)
Definition rollback (snapshot : Tables) : M unit :=
  exec elapse io_db;
  update (set_tables snapshot).

(** [upsert(inventory)]; the answer is [result.rows[0]], [None] standing
    for [undefined]. *)
Definition upsert (inventory : InternalInventory) : M (option InventoryRecord) :=
  exec query q_connect;
  await snapshot <- read (fun w => tables (db w));
  try_finally
    (try_catch
       (exec query q_begin;
        await started <- read now;
        await oldRecord <- select_for_update (productId inventory) (source inventory);
        let oldQuantity := quantity_or_null oldRecord in
        await result <- insert_on_conflict started inventory;
        exec insert_audit started inventory oldQuantity;
        exec query q_commit;
        ret (head result))
       (fun error =>
          exec rollback snapshot;
          throw error))
    (ret tt).

(** *** A committed [upsert], in closed form

    The world that [upsert] leaves when all six round trips go through,
    and the row it answers; [upsert_commits] below proves that this is
    what the code above computes. *)
Definition started_at (w : World) : Z :=
  now w + latency (env w) io_db + latency (env w) io_db.

Definition rows_after (inventory : InternalInventory) (w : World) : list InventoryRecord :=
  insert_or_update (inventory_id_seq (db w) + 1) (started_at w) inventory
    (inventory_rows (tables (db w))).

Definition audit_after (inventory : InternalInventory) (w : World) : AuditRecord :=
  audit_entry (inventory_audit_id_seq (db w) + 1) (started_at w) inventory
    (quantity_or_null
       (List.filter (same_key (productId inventory) (source inventory))
               (inventory_rows (tables (db w))))).

Definition committed (inventory : InternalInventory) (w : World) : World :=
  {| env := env w;
     now := now w + latency (env w) io_db + latency (env w) io_db
            + latency (env w) io_db + latency (env w) io_db
            + latency (env w) io_db + latency (env w) io_db;
     redis := redis w;
     queue := queue w;
     db := {| tables := {| inventory_rows := rows_after inventory w;
                           audit_rows := audit_rows (tables (db w))
                                         ++ [audit_after inventory w] |};
              inventory_id_seq := inventory_id_seq (db w) + 1;
              inventory_audit_id_seq := inventory_audit_id_seq (db w) + 1 |};
     poller := poller w |}.

Definition returned (inventory : InternalInventory) (w : World) : option InventoryRecord :=
  head (List.filter (same_key (productId inventory) (source inventory))
               (rows_after inventory w)).

(** The conditions under which PostgreSQL lets the upsert through. *)
Definition goes_through (inventory : InternalInventory) (w : World) : Prop :=
  (forall q, db_fault (env w) q = None)
  /\ coerce (env w) inventory = None
  /\ 0 <= quantity inventory.

End InventoryRepository.

(* ===================================================================== *)
(** ** services/lock.service.ts                                           *)
(* ===================================================================== *)

Module LockService.
Import Types Runtime.

Definition defaultOptions : LockOptions :=
  {| ttl := 10000; retries := 5; retryDelay := 200 |}.

(** The settings handed to [new Redlock([redisClient], ..)]. *)
Definition retryCount : Z := retries defaultOptions.
Definition redlock_retryDelay : Z := retryDelay defaultOptions.
Definition retryJitter : Z := 100.

(** [{ ...this.defaultOptions, ...options }] *)
Definition merge (options : PartialLockOptions) : LockOptions :=
  {| ttl := default (ttl defaultOptions) (opt_ttl options);
     retries := default (retries defaultOptions) (opt_retries options);
     retryDelay := default (retryDelay defaultOptions) (opt_retryDelay options) |}.

Definition no_options : PartialLockOptions :=
  {| opt_ttl := None; opt_retries := None; opt_retryDelay := None |}.

(** A lock held: the key, the nonce stored under it, the expiry. *)
Record Lock : Type := {
  resource : string;
  lock_value : string;
  expiration : Z
}.

Definition lockKey (productId : string) : string := "lock:inventory:" +:+ productId.

(** [redlock.acquire([lockKey], ttl)] on the one Redis instance: an
    atomic [SET key nonce NX PX ttl], tried again after the retry delay
    and its jitter, [retryCount] more times at most. *)
Fixpoint redlock_acquire (tries_left : nat) (attempt : nat) (key : string) (ttl : Z)
  : M Lock :=
  exec elapse io_lock;
  await w <- read (fun w => w);
  let taken := lock_fault (env w) || bool_decide (is_Some (redis_lookup key w)) in
  if taken then
    match tries_left with
    | O => throw ExecutionError
    | S n =>
        exec update (fun w =>
               set_now (now w
                        + Z.max 0 (redlock_retryDelay + retry_jitter (env w) attempt)) w);
        redlock_acquire n (S attempt) key ttl
    end
  else
    let value := nonce (env w) (now w) in
    let expires := now w + ttl in
    exec update (set_redis (<[key := {| entry_value := value;
                                        entry_expires := Some expires |}]> (redis w)));
    ret {| resource := key; lock_value := value; expiration := expires |}.

(** [lock.release()]: delete the key if and only if it still holds the
    nonce; redlock throws when it could not. *)
Definition lock_release (lock : Lock) : M unit :=
  exec elapse io_lock;
  await w <- read (fun w => w);
  if release_fault (env w) then throw ExecutionError
  else
    match redis_lookup (resource lock) w with
    | Some v =>
        if String.eqb v (lock_value lock)
        then update (set_redis (delete (resource lock) (redis w)))
        else throw ExecutionError
    | None => throw ExecutionError
    end.

(** [acquireLock(productId, options)]: only [opts.ttl] reaches redlock. *)
Definition acquireLock (productId : string) (options : PartialLockOptions) : M Lock :=
  let opts := merge options in
  let key := lockKey productId in
  try_catch
    (await lock <- redlock_acquire (Z.to_nat retryCount) 0 key (ttl opts);
     ret lock)
    (fun error => throw (UnableToAcquireLock productId)).

(** [releaseLock(lock)]: a failure to release is logged, not thrown. *)
Definition releaseLock (lock : Lock) : M unit :=
  try_catch
    (exec lock_release lock;
     ret tt)
    (fun error => ret tt).

(** [withLock(productId, fn, options)] *)
Definition withLock {T : Type} (productId : string) (fn : M T)
    (options : PartialLockOptions) : M T :=
  await lock <- acquireLock productId options;
  try_finally
    (await result <- fn;
     ret result)
    (releaseLock lock).


End LockService.

(* ===================================================================== *)
(** ** services/queue.service.ts                                          *)
(* ===================================================================== *)

Module QueueService.
Import Types Runtime.

(** [defaultJobOptions] *)
Definition attempts : Z := 5.
Definition backoff_delay : Z := 2000.

Definition find_job (jobId : string) (q : list Job) : option Job :=
  find (fun j => String.eqb (job_id j) jobId) q.

Definition new_job (name : string) (data : InventoryJobData) (priority : Z)
    (jobId : string) (t : Z) : Job :=
  {| job_id := jobId; job_name := name; job_data := data;
     job_priority := priority; attemptsMade := 0; job_state := waiting;
     job_progress := 0; job_timestamp := t; job_run_at := t |}.

(** Storing one job: an id that is already in the queue is not added
    again, the job found under it is the answer. *)
Definition store (name : string) (data : InventoryJobData) (priority : Z)
    (jobId : string) (t : Z) (q : list Job) : list Job * Job :=
  match find_job jobId q with
  | Some j => (q, j)
  | None => let j := new_job name data priority jobId t in (q ++ [j], j)
  end.

(** *** The custom ids BullMQ takes

    [Job.validateOptions] runs on every job before anything is sent to
    Redis, for [add] and for each entry of [addBulk]: an id that reads
    as an integer is refused, and so is an id with a colon, unless the
    colons split it in three parts. *)

Fixpoint count_colons (s : string) : nat :=
  match s with
  | EmptyString => O
  | String c r => if JS.code c =? 58 then S (count_colons r) else count_colons r
  end.

Fixpoint all_digits (s : string) : bool :=
  match s with
  | EmptyString => true
  | String c r => JS.is_digit c && all_digits r
  end.

(** [parseInt(jobId, 10)], for an id that is digits after an optional
    sign; any other id is not the text of its [parseInt]. *)
Definition integer_of_id (jobId : string) : option JS.number :=
  let '(negative, body) :=
    match jobId with
    | String c r =>
        if JS.code c =? 45 then (true, r)
        else if JS.code c =? 43 then (false, r)
        else (false, jobId)
    | EmptyString => (false, jobId)
    end in
  match body with
  | String _ _ =>
      if all_digits body then
        let n := fst (JS.read_digits 0 body) in
        JS.of_ratio (if negative then - n else n) 1
      else None
  | EmptyString => None
  end.

(** [`${parseInt(jobId, 10)}` === jobId] *)
Definition reads_as_integer (jobId : string) : bool :=
  match integer_of_id jobId with
  | Some n => String.eqb (JS.to_string n) jobId
  | None => false
  end.

Definition custom_id_ok (jobId : string) : bool :=
  negb (reads_as_integer jobId)
  && ((count_colons jobId =? 0)%nat || (count_colons jobId =? 2)%nat).

(** [queue.add(name, data, { priority, jobId })] *)
Definition queue_add (name : string) (data : InventoryJobData) (priority : Z)
    (jobId : string) : M Job :=
  if negb (custom_id_ok jobId) then throw CustomIdError
  else
    exec elapse io_queue;
    await fault <- read (fun w => queue_fault (env w));
    if (fault : bool) then throw RedisError
    else
      await j <- read (fun w => snd (store name data priority jobId (now w) (queue w)));
      exec update (fun w =>
             set_queue (fst (store name data priority jobId (now w) (queue w))) w);
      ret j.

(** [queue.addBulk(jobs)]: all the jobs in one round trip, and none
    when one of the ids is refused. *)
Definition queue_addBulk (jobs : list (string * InventoryJobData * string)) : M unit :=
  if negb (forallb (fun job => custom_id_ok (snd job)) jobs) then throw CustomIdError
  else
    exec elapse io_queue;
    await fault <- read (fun w => queue_fault (env w));
    if (fault : bool) then throw RedisError
    else
      update (fun w =>
        set_queue
          (fold_left (fun q job =>
                        let '(name, data, jobId) := job in
                        fst (store name data 0 jobId (now w) q))
                     jobs (queue w)) w).

(** [`${source}-${productId}-${Date.now()}`] *)
Definition update_jobId (inv : InternalInventory) (t : Z) : string :=
  source_name (source inv) +:+ "-" +:+ productId inv +:+ "-" +:+ JS.string_of_Z t.

(** [`${source}-${productId}-${Date.now()}-${index}`] *)
Definition batch_jobId (inv : InternalInventory) (t : Z) (index : nat) : string :=
  update_jobId inv t +:+ "-" +:+ JS.string_of_Z (Z.of_nat index).

(** [addInventoryUpdate(jobData, priority = 0)] *)
Definition addInventoryUpdate (jobData : InventoryJobData) (priority : Z) : M string :=
  try_catch
    (await t <- read now;
     await job <- queue_add "process-inventory-update" jobData priority
                    (update_jobId (inventory jobData) t);
     ret (job_id job))
    (fun error => throw error).

(** [updates.map((data, index) => ..)]; [clock index] is what
    [Date.now()] reads when the entry at [index] is built. *)
Fixpoint batch_jobs (clock : nat -> Z) (index : nat) (updates : list InventoryJobData)
  : list (string * InventoryJobData * string) :=
  match updates with
  | [] => []
  | data :: rest =>
      ("process-inventory-update", data,
       batch_jobId (inventory data) (clock index) index)
        :: batch_jobs clock (S index) rest
  end.

Definition job_ids (jobs : list (string * InventoryJobData * string)) : list string :=
  map snd jobs.

(** [addBatch(updates)]; the entries are built without an [await] in
    between, at one reading of the clock. *)
Definition addBatch (updates : list InventoryJobData) : M unit :=
  try_catch
    (await t <- read now;
     let jobs := batch_jobs (fun _ => t) 0 updates in
     exec queue_addBulk jobs;
     ret tt)
    (fun error => throw error).

(** *** What the queue does with a job that a worker has run

    The processor's promise resolving completes the job.  Its rejecting
    counts an attempt: below [attempts] the job is delayed by the
    exponential backoff [2 ^ (attemptsMade - 1) * delay], otherwise it is
    failed. *)
Definition with_state (st : JobState) (made run_at progress : Z) (j : Job) : Job :=
  {| job_id := job_id j; job_name := job_name j; job_data := job_data j;
     job_priority := job_priority j; attemptsMade := made; job_state := st;
     job_progress := progress; job_timestamp := job_timestamp j;
     job_run_at := run_at |}.

Definition replace_job (j : Job) (q : list Job) : list Job :=
  map (fun x => if String.eqb (job_id x) (job_id j) then j else x) q.

Definition backoff (made : Z) : Z := 2 ^ (made - 1) * backoff_delay.

Definition settle {A : Type} (j : Job) (outcome : Exn + A) (t : Z) : Job :=
  match outcome with
  | inr _ => with_state completed (attemptsMade j + 1) (job_run_at j) (job_progress j) j
  | inl _ =>
      let made := attemptsMade j + 1 in
      if made <? attempts
      then with_state delayed made (t + backoff made) (job_progress j) j
      else with_state failed made (job_run_at j) (job_progress j) j
  end.

(** [job.updateProgress(n)] *)
Definition updateProgress (jobId : string) (n : Z) : M unit :=
  exec elapse io_queue;
  await fault <- read (fun w => queue_fault (env w));
  if (fault : bool) then throw RedisError
  else
    update (fun w =>
      set_queue
        (map (fun x => if String.eqb (job_id x) jobId
                       then with_state (job_state x) (attemptsMade x) (job_run_at x) n x
                       else x) (queue w)) w).

End QueueService.

(* ===================================================================== *)
(** ** services/inventory.service.ts                                      *)
(* ===================================================================== *)

Module InventoryService.
Import Types Runtime.

(** [processUpdate(inventory)] *)
Definition processUpdate (inventory : InternalInventory) : M string :=
  try_catch
    (await jobId <- QueueService.addInventoryUpdate
                      {| inventory := inventory; retryCount := Some 0 |} 0;
     ret jobId)
    (fun error => throw error).

(** [processBatch(inventories)] *)
Definition processBatch (inventories : list InternalInventory) : M unit :=
  try_catch
    (let jobData :=
       map (fun inventory => {| inventory := inventory; retryCount := Some 0 |})
           inventories in
     exec QueueService.addBatch jobData;
     ret tt)
    (fun error => throw error).

(** [executeUpdate(inventory)] *)
Definition executeUpdate (inventory : InternalInventory) : M unit :=
  LockService.withLock (productId inventory)
    (exec InventoryRepository.upsert inventory;
     ret tt)
    {| opt_ttl := Some 10000; opt_retries := Some 3; opt_retryDelay := Some 500 |}.

End InventoryService.

(* ===================================================================== *)
(** ** workers/inventory.worker.ts                                        *)
(* ===================================================================== *)

Module InventoryWorker.
Import Types Runtime.

Record JobResult : Type := {
  result_success : bool;
  result_productId : string;
  result_quantity : Z
}.

(** [processJob(job)]: the [catch] logs and rethrows, whatever the error. *)
Definition processJob (job : Job) : M JobResult :=
  let inventory := inventory (job_data job) in
  try_catch
    (exec QueueService.updateProgress (job_id job) 10;
     exec InventoryService.executeUpdate inventory;
     exec QueueService.updateProgress (job_id job) 100;
     ret {| result_success := true;
            result_productId := productId inventory;
            result_quantity := quantity inventory |})
    (fun error => throw error).

(** The worker takes a job that is due, runs the processor on it and
    hands the outcome to the queue.  The answer is the outcome of
    [processJob]; [None] when there is no such job to take. *)
Definition due (t : Z) (j : Job) : bool :=
  match job_state j with
  | waiting => true
  | delayed => job_run_at j <=? t
  | _ => false
  end.

Definition work (jobId : string) : World -> World * option (Exn + JobResult) :=
  fun w =>
    match QueueService.find_job jobId (queue w) with
    | Some j =>
        if due (now w) j then
          let running :=
            QueueService.with_state active (attemptsMade j) (job_run_at j)
              (job_progress j) j in
          let w1 := set_queue (QueueService.replace_job running (queue w)) w in
          let '(w2, outcome) := processJob running w1 in
          match QueueService.find_job jobId (queue w2) with
          | Some j2 =>
              (set_queue (QueueService.replace_job
                            (QueueService.settle j2 outcome (now w2)) (queue w2)) w2,
               Some outcome)
          | None => (w2, Some outcome)
          end
        else (w, None)
    | None => (w, None)
    end.

End InventoryWorker.

(* ===================================================================== *)
(** ** controllers/webhook.controller.ts and the route of app.ts          *)
(* ===================================================================== *)

Module WebhookController.
Import Types Runtime.

(** [ApiResponse], with the status it is sent under. *)
Record Response : Type := {
  status : Z;
  success : bool;
  error : option string;
  message : option string;
  data : option (string * string)    (* [{ jobId, productId }] *)
}.

Definition invalid_signature : Response :=
  {| status := 401; success := false; error := Some "Invalid signature";
     message := None; data := None |}.

Definition queued (jobId productId : string) : Response :=
  {| status := 202; success := true; error := None;
     message := Some "Update queued for processing";
     data := Some (jobId, productId) |}.

Definition failed_to_process : Response :=
  {| status := 500; success := false; error := Some "Failed to process webhook";
     message := None; data := None |}.

(** [!signature]: the header is absent or empty. *)
Definition falsy (signature : option string) : bool :=
  match signature with
  | Some (String _ _) => false
  | _ => true
  end.

(** [handleMarketplaceA(req, res)], from [req.body] and the value of
    [req.headers['x-marketplace-signature']] to the response sent.  The
    handler itself never rejects: its [catch] answers 500. *)
Definition handleMarketplaceA (body : JS.value) (signature : option string)
  : M Response :=
  try_catch
    (let rawBody := JS.stringify body in
     await secret <- read (fun w => MARKETPLACE_A_SECRET (env w));
     await rejected <-
       (if falsy signature then ret true
        else
          await valid <- lift (MarketplaceAAdapter.validateSignature secret rawBody
                                 (default EmptyString signature));
          ret (negb valid));
     if (rejected : bool) then ret invalid_signature
     else
       await internalInventory <- lift (MarketplaceAAdapter.transform body);
       await jobId <- InventoryService.processUpdate internalInventory;
       ret (queued jobId (productId internalInventory)))
    (fun error => ret failed_to_process).

End WebhookController.

Module App.
Import Types Runtime.

Definition internal_server_error : WebhookController.Response :=
  {| WebhookController.status := 500; WebhookController.success := false;
     WebhookController.error := Some "Internal server error";
     WebhookController.message := None; WebhookController.data := None |}.

(** [express.json()] in its strict mode on a request of type
    [application/json]: an empty body leaves [req.body = {}], a text that
    is not a JSON object or array is an error ([None]). *)
Definition express_json (raw : string) : option JS.value :=
  match raw with
  | EmptyString => Some (JS.JObj [])
  | _ =>
      match JS.parse raw with
      | Some (JS.JObj o) => Some (JS.JObj o)
      | Some (JS.JArr l) => Some (JS.JArr l)
      | _ => None
      end
  end.

(** [POST /webhooks/marketplace-a]: the bytes of the body as received and
    the signature header, through [express.json()] to the controller; an
    error of the body parser ends in the error-handling middleware. *)
Definition post_webhooks_marketplace_a (raw : string) (signature : option string)
  : M WebhookController.Response :=
  match express_json raw with
  | Some body => WebhookController.handleMarketplaceA body signature
  | None => ret internal_server_error
  end.

End App.

(* ===================================================================== *)
(** ** services/polling.service.ts                                        *)
(* ===================================================================== *)

Module PollingService.
Import Types Runtime.

Definition MAX_FAILURES : Z := 3.
Definition cursor_key : string := "marketplace_b:last_timestamp".

Definition set_running (b : bool) (w : World) : World :=
  set_poller {| isRunning := b;
                consecutiveFailures := consecutiveFailures (poller w);
                reset_timers := reset_timers (poller w) |} w.

Definition set_failures (n : Z) (w : World) : World :=
  set_poller {| isRunning := isRunning (poller w);
                consecutiveFailures := n;
                reset_timers := reset_timers (poller w) |} w.

(** [setTimeout(() => { this.consecutiveFailures = 0 }, 15 * 60 * 1000)] *)
Definition schedule_reset (w : World) : World :=
  set_poller {| isRunning := isRunning (poller w);
                consecutiveFailures := consecutiveFailures (poller w);
                reset_timers := reset_timers (poller w) ++ [now w + 15 * 60 * 1000] |} w.

(** The timers that are due fire. *)
Definition fire_timers (w : World) : World :=
  let '(due, pending) := partition (fun t => t <=? now w) (reset_timers (poller w)) in
  set_poller {| isRunning := isRunning (poller w);
                consecutiveFailures :=
                  match due with
                  | [] => consecutiveFailures (poller w)
                  | _ => 0
                  end;
                reset_timers := pending |} w.

(** [parseInt(text)]: an optional sign and the leading digits, [None] for
    [NaN]. *)
Definition parseInt (text : string) : option Z :=
  let s := JS.skip_space text in
  let '(neg, body) :=
    match s with
    | String c r =>
        if JS.code c =? 45 then (true, r)
        else if JS.code c =? 43 then (false, r)
        else (false, s)
    | EmptyString => (false, s)
    end in
  match body with
  | String c _ =>
      if JS.is_digit c then
        let n := fst (JS.read_digits 0 body) in
        Some (if neg then - n else n)
      else None
  | EmptyString => None
  end.

(** [getLastProcessedTimestamp()]: an absent (or empty) cursor gives one
    hour before now. *)
Definition getLastProcessedTimestamp : M (option Z) :=
  await timestamp <- redis_get cursor_key;
  match timestamp with
  | Some (String c r) => ret (parseInt (String c r))
  | _ =>
      await t <- read now;
      ret (Some (t / 1000 - 3600))
  end.

(** [updateLastProcessedTimestamp()] *)
Definition updateLastProcessedTimestamp : M unit :=
  await t <- read now;
  let currentTimestamp := t / 1000 in
  redis_set cursor_key (JS.string_of_Z currentTimestamp).

(** [response.data.items || []], and what the caller can do with it:
    [inr] is an array (or a value whose [length] is [0], which the caller
    takes for an empty one), [inl] a value whose [length] is not zero and
    that has no [map]. *)
Definition items_of (data : JS.value) : Exn + list JS.value :=
  match data with
  | JS.JObj o =>
      match JS.get "items" o with
      | Some (JS.JArr l) => inr l
      | None | Some JS.Null | Some (JS.JBool false) | Some (JS.JNum 0)
      | Some (JS.JStr EmptyString) => inr []
      | Some (JS.JObj o') =>
          match JS.get "length" o' with
          | Some (JS.JNum 0) => inr []
          | _ => inl TypeError
          end
      | Some _ => inl TypeError
      end
  | JS.JArr _ | JS.JStr _ | JS.JNum _ | JS.JFrac _ _ | JS.JBool _ => inr []
  | JS.Null => inl TypeError
  end.

(** [fetchUpdates(sinceTimestamp)]; a value of [items] that is no array
    passes through here and fails in the caller, inside the same [try]. *)
Definition fetchUpdates (sinceTimestamp : option Z) : M (list JS.value) :=
  try_catch
    (exec elapse io_http;
     await data <- (fun w => (w, upstream (env w) sinceTimestamp));
     lift (items_of data))
    (fun error => throw error).

(** The body of the [try] in [poll()]. *)
Definition cycle : M unit :=
  await lastTimestamp <- getLastProcessedTimestamp;
  await updates <- fetchUpdates lastTimestamp;
  match updates with
  | [] =>
      update (set_failures 0)
  | _ =>
      let transformed := MarketplaceBAdapter.transformBatch updates in
      exec InventoryService.processBatch transformed;
      exec updateLastProcessedTimestamp;
      update (set_failures 0)
  end.

(** [poll()] *)
Definition poll : M unit :=
  await p <- read poller;
  if isRunning p then ret tt
  else if MAX_FAILURES <=? consecutiveFailures p then
    update schedule_reset
  else
    exec update (set_running true);
    try_finally
      (try_catch cycle
         (fun error =>
            update (fun w => set_failures (consecutiveFailures (poller w) + 1) w)))
      (update (set_running false)).

(** [triggerManual()] *)
Definition triggerManual : M unit := poll.

End PollingService.

(* ===================================================================== *)
(** ** The error taxonomy of the specification, and sample states         *)
(* ===================================================================== *)

Module Taxonomy.
Import Types.

(** The kinds of the specification's error table. *)
Inductive Kind : Type :=
| BadPayload | LockUnavailable | TransientStorage | PermanentStorage
| UpstreamUnavailable | QueueUnavailable.

(** The kind an exception of the code falls under, where the table
    names one: a constraint violation is permanent; connection,
    serialization and deadlock failures are transient. *)
Definition kind_of (e : Exn) : option Kind :=
  match e with
  | InvalidMarketplaceAPayload _ | InvalidMarketplaceBPayload _ => Some BadPayload
  | UnableToAcquireLock _ => Some LockUnavailable
  | DatabaseError check_violation => Some PermanentStorage
  | DatabaseError connection_failure
  | DatabaseError serialization_failure
  | DatabaseError deadlock_detected => Some TransientStorage
  | AxiosError _ => Some UpstreamUnavailable
  | RedisError => Some QueueUnavailable
  | _ => None
  end.

Definition non_retriable (e : Exn) : bool :=
  match kind_of e with
  | Some PermanentStorage | Some BadPayload => true
  | _ => false
  end.

End Taxonomy.

Module Sample.
Import Types Runtime.

(** An environment where nothing fails and every operation is instant. *)
Definition calm : Env :=
  {| MARKETPLACE_A_SECRET := None;
     latency := fun _ => 0;
     upstream := fun _ => inr (JS.JObj [("items", JS.JArr [])]);
     db_fault := fun _ => None;
     pg_timestamp_ok := fun _ => true;
     queue_fault := false;
     redis_fault := false;
     lock_fault := false;
     release_fault := false;
     retry_jitter := fun _ => 0;
     nonce := fun t => "nonce-" +:+ JS.string_of_Z t |}.

Definition empty_db : Database :=
  {| tables := {| inventory_rows := []; audit_rows := [] |};
     inventory_id_seq := 0;
     inventory_audit_id_seq := 0 |}.

Definition idle : Poller :=
  {| isRunning := false; consecutiveFailures := 0; reset_timers := [] |}.

(** A fresh deployment at instant [t] under environment [e]. *)
Definition fresh (e : Env) (t : Z) : World :=
  {| env := e; now := t; redis := ∅; queue := []; db := empty_db; poller := idle |}.

(** 2026-01-01T10:00:00Z *)
Definition t0 : Z := 1767261600000.

Definition w0 : World := fresh calm t0.

(** The body of the specification's first scenario, as sent compactly and
    as sent with a space after each colon and comma. *)
Definition compact_body : string :=
  dq "{'product_code':'PROD-ABC-123','available_stock':50,'timestamp':'2026-01-01T10:00:00Z','warehouse':'WH-NY-01'}".

Definition spaced_body : string :=
  dq "{'product_code': 'PROD-ABC-123', 'available_stock': 50, 'timestamp': '2026-01-01T10:00:00Z', 'warehouse': 'WH-NY-01'}".

Definition sign (body : string) : string :=
  JS.createHmac_sha256_hex "secret" body.

Definition answer (r : World * (Exn + WebhookController.Response)) : option Z :=
  match snd r with
  | inr resp => Some (WebhookController.status resp)
  | inl _ => None
  end.

Definition enqueued (r : World * (Exn + WebhookController.Response)) : list string :=
  map job_id (queue (fst r)).

(** The record of the specification's first scenario, with quantity [q]. *)
Definition widget (q : Z) : InternalInventory :=
  {| productId := "PROD-ABC-123"; quantity := q; source := marketplace_a;
     warehouseId := Some "WH-NY-01"; updatedAt := "2026-01-01T10:00:00Z";
     metadata := None |}.

(** The audit trail as pairs of old and new quantity. *)
Definition transitions (w : World) : list (option Z * Z) :=
  map (fun a => (old_quantity a, new_quantity a)) (audit_rows (tables (db w))).

Definition once (inv : InternalInventory) (w : World) : World :=
  fst (InventoryRepository.upsert inv w).
Definition twice (inv : InternalInventory) (w : World) : World :=
  once inv (once inv w).

(** The job of an update, and the world after a webhook carrying
    quantity [q] has been accepted at [t0]. *)
Definition job_of (q : Z) : InventoryJobData :=
  {| inventory := widget q; retryCount := Some 0 |}.

Definition accepted (q : Z) : World :=
  fst (InventoryService.processUpdate (widget q) w0).

Definition the_job : string := "marketplace_a-PROD-ABC-123-1767261600000".

Definition state_of (jobId : string) (w : World) : option (JobState * Z * Z) :=
  option_map (fun j => (job_state j, attemptsMade j, job_run_at j))
             (QueueService.find_job jobId (queue w)).

(** An item of Marketplace B last modified at second [t]; the item of
    the specification's third scenario. *)
Definition item_at (t : Z) : JS.value :=
  JS.JObj [("sku", JS.JStr "SKU1"); ("qty", JS.JNum 7);
           ("location_id", JS.JStr "L"); ("last_modified", JS.JNum t)].

Definition item_b : JS.value := item_at 1735689600.

(** The same item, last modified at second 1735689600.5. *)
Definition item_half : JS.value :=
  JS.JObj [("sku", JS.JStr "SKU1"); ("qty", JS.JNum 7);
           ("location_id", JS.JStr "L"); ("last_modified", JS.JFrac 3471379201 1)].





(** An environment where releasing a lock always fails. *)
Definition stuck_release : Env :=
  {| MARKETPLACE_A_SECRET := None;
     latency := fun _ => 0;
     upstream := fun _ => inr (JS.JObj [("items", JS.JArr [])]);
     db_fault := fun _ => None;
     pg_timestamp_ok := fun _ => true;
     queue_fault := false;
     redis_fault := false;
     lock_fault := false;
     release_fault := true;
     retry_jitter := fun _ => 0;
     nonce := fun t => "nonce-" +:+ JS.string_of_Z t |}.

(** The lock on product [P] taken at [t0] with the default options, and
    the world that holds it. *)
Definition held : LockService.Lock :=
  {| LockService.resource := "lock:inventory:P";
     LockService.lock_value := "nonce-1767261600000";
     LockService.expiration := t0 + 10000 |}.

Definition holding (e : Env) : World :=
  set_redis (<["lock:inventory:P" :=
               {| entry_value := "nonce-1767261600000";
                  entry_expires := Some (t0 + 10000) |}]> ∅) (fresh e t0).

End Sample.

(* ===================================================================== *)
(** ** The audit-coverage invariant, and the states the tables can reach  *)
(* ===================================================================== *)

Module Invariant.
Import Types Runtime.

(** An audit row accounts for an inventory row: same product, same
    source, and its [new_quantity] is the row's quantity. *)
Definition accounts_for (r : InventoryRecord) (a : AuditRecord) : bool :=
  String.eqb (audit_product_id a) (product_id r)
  && source_eqb (audit_source a) (row_source r)
  && (new_quantity a =? row_quantity r).

(** Every inventory row is accounted for by some audit row. *)
Definition audit_coverage (t : Tables) : bool :=
  forallb (fun r => existsb (accounts_for r) (audit_rows t)) (inventory_rows t).

(** The states of a deployment: the tables start empty, [upsert] is the
    one operation that writes them, and anything else leaves them as
    they are. *)
Inductive reachable : World -> Prop :=
| reach_created (w : World) :
    tables (db w) = {| inventory_rows := []; audit_rows := [] |} -> reachable w
| reach_upsert (w w' : World) (inventory : InternalInventory)
    (r : Exn + option InventoryRecord) :
    reachable w -> InventoryRepository.upsert inventory w = (w', r) -> reachable w'
| reach_other (w w' : World) :
    reachable w -> tables (db w') = tables (db w) -> reachable w'.

End Invariant.

(* ===================================================================== *)
(** ** What a computation leaves alone in the queue                       *)
(* ===================================================================== *)

Module Frame.
Import Types Runtime.

(** The identity and the attempt count of the jobs in the queue. *)
Definition keys (q : list Job) : list (string * Z) :=
  map (fun j => (job_id j, attemptsMade j)) q.

(** A computation that adds no job, drops none and counts no attempt. *)
Definition keeps_keys {A : Type} (m : M A) : Prop :=
  forall w w' r, m w = (w', r) -> keys (queue w') = keys (queue w).

End Frame.

(* ===================================================================== *)
(** ** RFC 3339 timestamps, as the specification means them               *)
(* ===================================================================== *)

(** This module is written from RFC 3339, section 5.6, not from the
    code: it reads a [date-time] in UTC,

      4DIGIT "-" 2DIGIT "-" 2DIGIT "T" 2DIGIT ":" 2DIGIT ":" 2DIGIT
      [ "." 1*DIGIT ] "Z"

    with the restrictions of section 5.7 on the fields, and gives the
    instant it denotes in milliseconds since the epoch.  It is what the
    [updated_at] of adapter B is compared with. *)
Module Rfc3339.

(** The longest prefix of digits, and what follows it. *)
Fixpoint span_digits (s : string) : string * string :=
  match s with
  | String c r =>
      if JS.is_digit c
      then let '(ds, rest) := span_digits r in (String c ds, rest)
      else (EmptyString, s)
  | EmptyString => (EmptyString, EmptyString)
  end.

(** The number a string of digits denotes. *)
Fixpoint value_from (acc : Z) (ds : string) : Z :=
  match ds with
  | String c r => value_from (10 * acc + (JS.code c - 48)) r
  | EmptyString => acc
  end.

Definition value_of (ds : string) : Z := value_from 0 ds.

(** A field of exactly [k] digits. *)
Definition field (k : nat) (s : string) : option (Z * string) :=
  let '(ds, rest) := span_digits s in
  if (String.length ds =? k)%nat then Some (value_of ds, rest) else None.

(** A separator. *)
Definition sep (c : string) (s : string) : option string := JS.strip_prefix c s.

(** [time-secfrac], cut to milliseconds; absent, it is zero. *)
Definition secfrac (s : string) : option (Z * string) :=
  match sep "." s with
  | Some r =>
      let '(ds, rest) := span_digits r in
      match ds with
      | EmptyString => None
      | _ => Some (value_of ds * 1000 / 10 ^ Z.of_nat (String.length ds), rest)
      end
  | None => Some (0, s)
  end.

Definition leap_year (y : Z) : bool :=
  (y mod 4 =? 0) && (negb (y mod 100 =? 0) || (y mod 400 =? 0)).

Definition days_in_month (y m : Z) : Z :=
  if m =? 2 then (if leap_year y then 29 else 28)
  else if (m =? 4) || (m =? 6) || (m =? 9) || (m =? 11) then 30
  else 31.

(** Days from 1970-01-01 to the given day of the proleptic Gregorian
    calendar: whole years since March of year 0 in 400-year eras. *)
Definition days_from_civil (y m d : Z) : Z :=
  let y' := if m <=? 2 then y - 1 else y in
  let era := y' / 400 in
  let yoe := y' - era * 400 in
  let doy := (153 * (if 2 <? m then m - 3 else m + 9) + 2) / 5 + d - 1 in
  let doe := yoe * 365 + yoe / 4 - yoe / 100 + doy in
  era * 146097 + doe - 719468.

Definition bind {A B : Type} (o : option A) (k : A -> option B) : option B :=
  match o with
  | Some a => k a
  | None => None
  end.

(** The instant, in milliseconds since the epoch, that a UTC
    [date-time] denotes; [None] when the text is not one.  (A second
    of 60 is not accepted.) *)
Definition instant_of (s : string) : option Z :=
  bind (field 4 s) (fun '(year, s) =>
  bind (sep "-" s) (fun s =>
  bind (field 2 s) (fun '(month, s) =>
  bind (sep "-" s) (fun s =>
  bind (field 2 s) (fun '(mday, s) =>
  bind (sep "T" s) (fun s =>
  bind (field 2 s) (fun '(hour, s) =>
  bind (sep ":" s) (fun s =>
  bind (field 2 s) (fun '(minute, s) =>
  bind (sep ":" s) (fun s =>
  bind (field 2 s) (fun '(second, s) =>
  bind (secfrac s) (fun '(millis, s) =>
  bind (sep "Z" s) (fun s =>
    match s with
    | EmptyString =>
        if (1 <=? month) && (month <=? 12)
           && (1 <=? mday) && (mday <=? days_in_month year month)
           && (hour <=? 23) && (minute <=? 59) && (second <=? 59)
        then Some (days_from_civil year month mday * 86400000
                   + hour * 3600000 + minute * 60000 + second * 1000 + millis)
        else None
    | String _ _ => None
    end))))))))))))).

End Rfc3339.

(* ===================================================================== *)
(** ** repositories/inventory.repository.ts: the queries and the batch    *)
(* ===================================================================== *)

Module InventoryQueries.
Import Types Runtime InventoryRepository.

(** [pool.query(text, params)]: a client is taken from the pool and the
    one statement is run on it. *)
Definition pool_query : M unit :=
  exec query q_connect;
  query q_select.

(** [ORDER BY key]: insertion into a list that is in order, before the
    first element that is not smaller.  (SQL leaves the order of equal
    keys open; here they stay in the order of the table.) *)
Fixpoint insert_by {A : Type} (key : A -> Z) (x : A) (l : list A) : list A :=
  match l with
  | [] => [x]
  | y :: r => if key x <=? key y then x :: l else y :: insert_by key x r
  end.

Definition order_by {A : Type} (key : A -> Z) (l : list A) : list A :=
  fold_right (insert_by key) [] l.

(** The order of the two [source] texts. *)
Definition source_rank (s : Source) : Z :=
  match s with
  | marketplace_a => 0
  | marketplace_b => 1
  end.

(** [getByProductId(productId)]:
    [SELECT * FROM inventory WHERE product_id = $1 ORDER BY source] *)
Definition getByProductId (productId : string) : M (list InventoryRecord) :=
  exec pool_query;
  read (fun w =>
    order_by (fun r => source_rank (row_source r))
      (List.filter (fun r => String.eqb (product_id r) productId)
                   (inventory_rows (tables (db w))))).

(** [getAuditHistory(productId, limit = 50)]:
    [SELECT * FROM inventory_audit WHERE product_id = $1
     ORDER BY changed_at DESC LIMIT $2]; the limit is a count. *)
Definition getAuditHistory (productId : string) (limit : nat) : M (list AuditRecord) :=
  exec pool_query;
  read (fun w =>
    firstn limit
      (order_by (fun a => - changed_at a)
         (List.filter (fun a => String.eqb (audit_product_id a) productId)
                      (audit_rows (tables (db w)))))).



(** *** What the tables are kept to

    [CONSTRAINT unique_product_source UNIQUE (product_id, source)] and
    [CHECK (quantity >= 0)], as properties of the rows. *)
Definition row_key (r : InventoryRecord) : string * Source :=
  (product_id r, row_source r).

Definition unique_product_source (rows : list InventoryRecord) : Prop :=
  List.NoDup (map row_key rows).

Definition quantities_checked (rows : list InventoryRecord) : bool :=
  forallb (fun r => 0 <=? row_quantity r) rows.

End InventoryQueries.

(* ===================================================================== *)
(** ** app.ts: the manual trigger                                         *)
(* ===================================================================== *)

Module Endpoints.
Import Types Runtime.

(** An [ApiResponse] carrying data of type [A], with its status. *)
Record Reply (A : Type) : Type := {
  reply_status : Z;
  reply_success : bool;
  reply_error : option string;
  reply_message : option string;
  reply_data : option A
}.
Arguments reply_status {A} _.
Arguments reply_success {A} _.
Arguments reply_error {A} _.
Arguments reply_message {A} _.
Arguments reply_data {A} _.

Definition refused {A : Type} (code : Z) (text : string) : Reply A :=
  {| reply_status := code; reply_success := false; reply_error := Some text;
     reply_message := None; reply_data := None |}.

(** [POST /trigger-poll] *)
Definition trigger_poll : M (Reply unit) :=
  try_catch
    (exec PollingService.triggerManual;
     ret {| reply_status := 200; reply_success := true; reply_error := None;
            reply_message := Some "Polling triggered"; reply_data := None |})
    (fun error => ret (refused 500 "Polling failed")).

End Endpoints.

(* ===================================================================== *)
(** ** Orders                                                             *)
(* ===================================================================== *)

Module Order.

(** Each number is at most the next. *)
Fixpoint ascending (l : list Z) : bool :=
  match l with
  | a :: r =>
      match r with
      | b :: _ => (a <=? b) && ascending r
      | [] => true
      end
  | [] => true
  end.

End Order.

(* ===================================================================== *)
(** ** Notions the properties are stated with, and more sample states     *)
(* ===================================================================== *)

Module Digits.

(** The number a decimal numeral stands for, read from the left with
    [acc] for the digits already read. *)
Fixpoint uint_value (d : Decimal.uint) (acc : Z) : Z :=
  match d with
  | Decimal.Nil => acc
  | Decimal.D0 l => uint_value l (10 * acc + 0)
  | Decimal.D1 l => uint_value l (10 * acc + 1)
  | Decimal.D2 l => uint_value l (10 * acc + 2)
  | Decimal.D3 l => uint_value l (10 * acc + 3)
  | Decimal.D4 l => uint_value l (10 * acc + 4)
  | Decimal.D5 l => uint_value l (10 * acc + 5)
  | Decimal.D6 l => uint_value l (10 * acc + 6)
  | Decimal.D7 l => uint_value l (10 * acc + 7)
  | Decimal.D8 l => uint_value l (10 * acc + 8)
  | Decimal.D9 l => uint_value l (10 * acc + 9)
  end.

End Digits.

Module Cron.
Import Types Runtime.

(** [poll()] called [n] times, each call awaited before the next, with
    no time passing in between (the schedule, or [n] manual triggers). *)
Fixpoint polls (n : nat) : M unit :=
  match n with
  | O => ret tt
  | S k => exec PollingService.poll; polls k
  end.

End Cron.

Module Held.
Import Types Runtime LockService.

(** The lock [acquireLock(productId, options)] takes in [w] at its first
    attempt, and the world that holds it. *)
Definition lock_of (productId : string) (options : PartialLockOptions) (w : World) : Lock :=
  let t := now w + latency (env w) io_lock in
  {| resource := lockKey productId; lock_value := nonce (env w) t;
     expiration := t + ttl (merge options) |}.

Definition locked (productId : string) (options : PartialLockOptions) (w : World) : World :=
  let t := now w + latency (env w) io_lock in
  set_redis (<[lockKey productId :=
               {| entry_value := nonce (env w) t;
                  entry_expires := Some (t + ttl (merge options)) |}]> (redis w))
    (set_now t w).

(** The options [executeUpdate] passes. *)
Definition update_options : PartialLockOptions :=
  {| opt_ttl := Some 10000; opt_retries := Some 3; opt_retryDelay := Some 500 |}.

End Held.

Module Signed.
Import Types Runtime.

(** The digest the handler compares the header with: the HMAC of the
    re-serialised body under the configured secret. *)
Definition expected_signature (body : JS.value) (w : World) : string :=
  JS.createHmac_sha256_hex
    (MarketplaceAAdapter.secret_of (MARKETPLACE_A_SECRET (env w))) (JS.stringify body).

(** The job [addBulk] stores for an entry at instant [t]. *)
Definition bulk_job (t : Z) (job : string * InventoryJobData * string) : Job :=
  let '(name, data, jobId) := job in QueueService.new_job name data 0 jobId t.

End Signed.

Module Scenario.
Import Types Runtime Sample.

(** Marketplace B is down: every request fails after 100 ms; a Redis
    command takes 5 ms. *)
Definition outage : Env :=
  {| MARKETPLACE_A_SECRET := None;
     latency := fun io => match io with io_http => 100 | io_redis => 5 | _ => 0 end;
     upstream := fun _ => inl (AxiosError (Some 503));
     db_fault := fun _ => None;
     pg_timestamp_ok := fun _ => true;
     queue_fault := false;
     redis_fault := false;
     lock_fault := false;
     release_fault := false;
     retry_jitter := fun _ => 0;
     nonce := fun t => "nonce-" +:+ JS.string_of_Z t |}.

(** A deployment whose poll is in flight, and one whose circuit is open. *)
Definition polling : World := PollingService.set_running true w0.
Definition tripped : World := PollingService.set_failures 3 w0.

(** The body of the specification's first scenario, parsed. *)
Definition widget_body : JS.value :=
  JS.JObj [("product_code", JS.JStr "PROD-ABC-123");
           ("available_stock", JS.JNum 50);
           ("timestamp", JS.JStr "2026-01-01T10:00:00Z");
           ("warehouse", JS.JStr "WH-NY-01")].

(** The row of that product once an update to 20 has followed the
    insert of 50 at [t0]. *)
Definition restocked : InventoryRecord :=
  {| id := 1; product_id := "PROD-ABC-123"; row_quantity := 20;
     row_source := marketplace_a; warehouse_id := Some "WH-NY-01";
     updated_at := "2026-01-01T10:00:00Z"; created_at := t0;
     row_metadata := None |}.

(** The rows the two queries answer, none when they throw. *)
Definition answered (productId : string) (w : World) : list InventoryRecord :=
  match snd (InventoryQueries.getByProductId productId w) with
  | inr rows => rows
  | inl _ => []
  end.

Definition history (productId : string) (limit : nat) (w : World) : list AuditRecord :=
  match snd (InventoryQueries.getAuditHistory productId limit w) with
  | inr rows => rows
  | inl _ => []
  end.

End Scenario.

(* ===================================================================== *)
(** * Properties                                                         *)
(* ===================================================================== *)

(** ** The platform model on known answers *)

Example sha256_constants :
  nth 0 JS.round_constants 0 = 0x428a2f98 /\ nth 63 JS.round_constants 0 = 0xc67178f2
  /\ nth 0 JS.initial_hash 0 = 0x6a09e667 /\ nth 7 JS.initial_hash 0 = 0x5be0cd19.
Proof. vm_compute. repeat split; reflexivity. Qed.

Example sha256_abc :
  JS.hex_of_bytes (JS.sha256 (JS.bytes_of_string "abc"))
  = "ba7816bf8f01cfea414140de5dae2223b00361a396177a9cb410ff61f20015ad".
Proof. vm_compute. reflexivity. Qed.

Example hmac_rfc4231_case2 :
  JS.createHmac_sha256_hex "Jefe" "what do ya want for nothing?"
  = "5bdcc146bf60754e6a042426089575c75a003f089d2739839dec58b964ec3843".
Proof. vm_compute. reflexivity. Qed.

Example stringify_sample :
  JS.stringify (JS.JObj [("a", JS.JNum (-3)); ("b", JS.JArr [JS.JStr "x"; JS.Null])])
  = dq "{'a':-3,'b':['x',null]}".
Proof. vm_compute. reflexivity. Qed.

Example parse_sample :
  JS.parse (dq " { 'a' : -3 , 'b':[ 'x', null ] } ")
  = Some (JS.JObj [("a", JS.JNum (-3)); ("b", JS.JArr [JS.JStr "x"; JS.Null])]).
Proof. vm_compute. reflexivity. Qed.

Example toISOString_2025 :
  JS.toISOString (1735689600 * 1000) = Some "2025-01-01T00:00:00.000Z".
Proof. vm_compute. reflexivity. Qed.

Example toISOString_samples :
  JS.toISOString 0 = Some "1970-01-01T00:00:00.000Z"
  /\ JS.toISOString (-1) = Some "1969-12-31T23:59:59.999Z"
  /\ JS.toISOString 951782400123 = Some "2000-02-29T00:00:00.123Z"
  /\ JS.toISOString 1709251199999 = Some "2024-02-29T23:59:59.999Z"
  /\ JS.toISOString 8640000000000000 = Some "+275760-09-13T00:00:00.000Z"
  /\ JS.toISOString (-8640000000000000) = Some "-271821-04-20T00:00:00.000Z"
  /\ JS.toISOString 253402300800000 = Some "+010000-01-01T00:00:00.000Z"
  /\ JS.toISOString (-62198755200000) = Some "-000001-01-01T00:00:00.000Z"
  /\ JS.toISOString 8640000000000001 = None.
Proof. vm_compute. repeat split; reflexivity. Qed.

Example rfc3339_samples :
  Rfc3339.instant_of "2025-01-01T00:00:00.000Z" = Some 1735689600000
  /\ Rfc3339.instant_of "2026-01-01T10:00:00Z" = Some 1767261600000
  /\ Rfc3339.instant_of "1969-12-31T23:59:59.999Z" = Some (-1)
  /\ Rfc3339.instant_of "2000-02-29T00:00:00.1239Z" = Some 951782400123
  /\ Rfc3339.instant_of "2023-02-29T00:00:00Z" = None
  /\ Rfc3339.instant_of "+010000-01-01T00:00:00.000Z" = None
  /\ Rfc3339.instant_of "2025-01-01 00:00:00Z" = None.
Proof. vm_compute. repeat split; reflexivity. Qed.

(** ** Numbers on known answers *)

Example number_texts :
  map (fun q => option_map JS.to_string (JS.of_ratio (fst q) (snd q)))
      [(15, 10); (1, 10); (3, 10); (-25, 100); (1, 3); (2, 3); (435, 100);
       (1, 1000000); (1, 10000000); (123456789, 1000); (17356896005, 10);
       (2 ^ 53 + 1, 1); (2 ^ 60, 1); (10 ^ 21, 1); (10 ^ 23, 1);
       (123456789012345680000, 1); (5, 10 ^ 30); (10 ^ 400, 1)]
  = [Some "1.5"; Some "0.1"; Some "0.3"; Some "-0.25"; Some "0.3333333333333333";
     Some "0.6666666666666666"; Some "4.35"; Some "0.000001"; Some "1e-7";
     Some "123456.789"; Some "1735689600.5"; Some "9007199254740992";
     Some "1152921504606847000"; Some "1e+21"; Some "1e+23";
     Some "123456789012345680000"; Some "5e-30"; None].
Proof. vm_compute. reflexivity. Qed.

Example parse_numbers :
  map JS.parse ["1.5"; "-1.5e3"; "1.0"; "0.1"; "1E2"; "25e-1"; "9007199254740993";
                "-0"; "01"; "1."; ".5"; "1e"; "-"; "1e400"]
  = [Some (JS.JFrac 3 1); Some (JS.JNum (-1500)); Some (JS.JNum 1);
     Some (JS.JFrac 3602879701896397 55); Some (JS.JNum 100); Some (JS.JFrac 5 1);
     Some (JS.JNum 9007199254740992); Some (JS.JNum 0); None; None; None; None; None;
     None].
Proof. vm_compute. reflexivity. Qed.

Example stringify_numbers :
  option_map JS.stringify
    (JS.parse (dq "{'a':0.30000000000000004,'b':[1e21,0.0000001,2.50],'c':1735689600.5}"))
  = Some (dq "{'a':0.30000000000000004,'b':[1e+21,1e-7,2.5],'c':1735689600.5}").
Proof. vm_compute. reflexivity. Qed.

Example Date_samples :
  JS.Date (JS.times (JS.Int 1735689600) 1000) = Some 1735689600000
  /\ JS.Date (JS.times (JS.Frac 3471379201 1) 1000) = Some 1735689600500
  /\ JS.Date (JS.times (JS.Frac 1 11) 1000) = Some 0
  /\ JS.Date (JS.times (JS.Frac (-3) 1) 1000) = Some (-1500)
  /\ JS.Date (JS.times (JS.Frac (-1) 11) 1000) = Some 0
  /\ JS.Date (JS.times (JS.Int 8640000000001) 1000) = None
  /\ JS.Date (JS.times (JS.Frac 17280000000001 1) 1000) = None
  /\ JS.Date (JS.times (JS.Int (10 ^ 306)) 1000) = None.
Proof. vm_compute. repeat split; reflexivity. Qed.

(** ** Dates: the rendering of the code against RFC 3339 *)

Section Calendar.
Import Rfc3339.

(** Within one era the code's year, month and day are a date of the
    calendar, and the date is the day. *)
Lemma era_day_dates (doe : Z) :
  0 <= doe < 146097 ->
  let '(y, m, d) := JS.civil_of_era_day doe in
  1 <= m <= 12 /\ 1 <= d /\ days_from_civil y m d = doe - 719468.
Proof.
  intros H. unfold JS.civil_of_era_day, days_from_civil. cbv zeta.
  set (yoe := (doe - doe / 1460 + doe / 36524 - doe / 146096) / 365).
  set (doy := doe - (365 * yoe + yoe / 4 - yoe / 100)).
  set (mp := (5 * doy + 2) / 153).
  assert (Hy : 0 <= yoe <= 399 /\ 0 <= doy <= 365).
  { subst doy yoe. Z.to_euclidean_division_equations. lia. }
  assert (Hmp : 0 <= mp <= 11).
  { subst mp. Z.to_euclidean_division_equations. lia. }
  destruct (Z.ltb_spec mp 10).
  - destruct (Z.leb_spec (mp + 3) 2); [lia|].
    destruct (Z.ltb_spec 2 (mp + 3)); [|lia].
    replace (mp + 3 - 3) with mp by lia.
    replace ((yoe + 0) / 400) with 0 by (Z.to_euclidean_division_equations; lia).
    split; [lia|]. split.
    + subst mp. Z.to_euclidean_division_equations. lia.
    + subst doy. Z.to_euclidean_division_equations. lia.
  - destruct (Z.leb_spec (mp - 9) 2); [|lia].
    destruct (Z.ltb_spec 2 (mp - 9)); [lia|].
    replace (mp - 9 + 9) with mp by lia.
    replace (yoe + 1 - 1) with yoe by lia.
    replace (yoe / 400) with 0 by (Z.to_euclidean_division_equations; lia).
    split; [lia|]. split.
    + subst mp. Z.to_euclidean_division_equations. lia.
    + subst doy. Z.to_euclidean_division_equations. lia.
Qed.

Lemma era_day_in_month (doe : Z) :
  0 <= doe < 146097 ->
  let '(y, m, d) := JS.civil_of_era_day doe in
  d <= days_in_month y m.
Proof.
  intros H. unfold JS.civil_of_era_day. cbv zeta.
  set (yoe := (doe - doe / 1460 + doe / 36524 - doe / 146096) / 365).
  set (doy := doe - (365 * yoe + yoe / 4 - yoe / 100)).
  set (mp := (5 * doy + 2) / 153).
  assert (Hy : 0 <= yoe <= 399 /\ 0 <= doy <= 365).
  { subst doy yoe. Z.to_euclidean_division_equations. lia. }
  assert (Hmp : 0 <= mp <= 11).
  { subst mp. Z.to_euclidean_division_equations. lia. }
  assert (Hnext : yoe < 399 -> doe < 365 * (yoe + 1) + (yoe + 1) / 4 - (yoe + 1) / 100).
  { subst yoe. Z.to_euclidean_division_equations. lia. }
  unfold days_in_month, leap_year.
  destruct (Z.ltb_spec mp 10).
  - destruct (Z.leb_spec (mp + 3) 2); [lia|].
    assert (Hm : mp = 0 \/ mp = 1 \/ mp = 2 \/ mp = 3 \/ mp = 4 \/ mp = 5 \/ mp = 6
                 \/ mp = 7 \/ mp = 8 \/ mp = 9) by lia.
    destruct Hm as [Hm|[Hm|[Hm|[Hm|[Hm|[Hm|[Hm|[Hm|[Hm|Hm]]]]]]]]]; rewrite Hm; simpl;
      subst mp; Z.to_euclidean_division_equations; lia.
  - destruct (Z.leb_spec (mp - 9) 2); [|lia].
    assert (Hm : mp = 10 \/ mp = 11) by lia.
    destruct Hm as [Hm|Hm]; rewrite Hm; simpl.
    + subst mp. Z.to_euclidean_division_equations. lia.
    + destruct (Z.eqb_spec ((yoe + 1) mod 4) 0);
        destruct (Z.eqb_spec ((yoe + 1) mod 100) 0);
        destruct (Z.eqb_spec ((yoe + 1) mod 400) 0); simpl;
        subst mp doy; Z.to_euclidean_division_equations; lia.
Qed.

Lemma leap_year_period (y e : Z) : leap_year (y + e * 400) = leap_year y.
Proof.
  unfold leap_year.
  replace ((y + e * 400) mod 4) with (y mod 4)
    by (Z.to_euclidean_division_equations; lia).
  replace ((y + e * 400) mod 100) with (y mod 100)
    by (Z.to_euclidean_division_equations; lia).
  replace ((y + e * 400) mod 400) with (y mod 400)
    by (Z.to_euclidean_division_equations; lia).
  reflexivity.
Qed.

Lemma days_in_month_period (y e m : Z) :
  days_in_month (y + e * 400) m = days_in_month y m.
Proof. unfold days_in_month. rewrite leap_year_period. reflexivity. Qed.

Lemma days_from_civil_period (y e m d : Z) :
  days_from_civil (y + e * 400) m d = days_from_civil y m d + e * 146097.
Proof.
  unfold days_from_civil. cbv zeta.
  destruct (m <=? 2); destruct (2 <? m); Z.to_euclidean_division_equations; lia.
Qed.

(** The date the code computes for a day is a date of the calendar, and
    it is that day. *)
Lemma civil_of_days_correct (days : Z) :
  let '(y, m, d) := JS.civil_of_days days in
  1 <= m <= 12 /\ 1 <= d <= days_in_month y m /\ days_from_civil y m d = days.
Proof.
  unfold JS.civil_of_days. cbv zeta.
  set (era := (days + 719468) / 146097).
  set (doe := days + 719468 - era * 146097).
  assert (Hdoe : 0 <= doe < 146097).
  { subst doe era. Z.to_euclidean_division_equations. lia. }
  pose proof (era_day_dates doe Hdoe) as H1.
  pose proof (era_day_in_month doe Hdoe) as H2.
  destruct (JS.civil_of_era_day doe) as [[y m] d].
  destruct H1 as (Hm & Hd & Hdays).
  rewrite days_in_month_period, days_from_civil_period, Hdays.
  repeat split; try lia.
Qed.

Lemma time_of_day (t : Z) :
  let r := t mod JS.ms_per_day in
  0 <= r / 3600000 <= 23 /\ 0 <= r / 60000 mod 60 <= 59
  /\ 0 <= r / 1000 mod 60 <= 59 /\ 0 <= r mod 1000 <= 999
  /\ t = t / JS.ms_per_day * 86400000
         + r / 3600000 * 3600000 + r / 60000 mod 60 * 60000
         + r / 1000 mod 60 * 1000 + r mod 1000.
Proof.
  unfold JS.ms_per_day. cbv zeta. Z.to_euclidean_division_equations. lia.
Qed.

Lemma app_nil (s : string) : EmptyString +:+ s = s.
Proof. reflexivity. Qed.

Lemma app_String (c : ascii) (s t : string) : String c s +:+ t = String c (s +:+ t).
Proof. reflexivity. Qed.

Lemma app_assoc' (a b c : string) : (a +:+ b) +:+ c = a +:+ (b +:+ c).
Proof. induction a as [|x a IH]; [reflexivity|]. rewrite !app_String, IH. reflexivity. Qed.

Lemma app_length (a b : string) :
  String.length (a +:+ b) = (String.length a + String.length b)%nat.
Proof. induction a as [|x a IH]; [reflexivity|]. rewrite app_String. simpl. rewrite IH. reflexivity. Qed.

Lemma code_chr (z : Z) : 0 <= z < 256 -> JS.code (JS.chr z) = z.
Proof.
  intros H. unfold JS.code, JS.chr.
  rewrite N_ascii_embedding; rewrite Z.mod_small by lia; lia.
Qed.

Lemma digit_char (z : Z) :
  JS.is_digit (JS.chr (48 + z mod 10)) = true
  /\ JS.code (JS.chr (48 + z mod 10)) - 48 = z mod 10.
Proof.
  pose proof (Z.mod_pos_bound z 10 ltac:(lia)) as H.
  unfold JS.is_digit. rewrite code_chr by lia. split; lia.
Qed.

Lemma digits_length (k : nat) : forall z, String.length (JS.digits k z) = k.
Proof.
  induction k as [|k IH]; intros z; simpl; [reflexivity|].
  rewrite app_length, IH. simpl. lia.
Qed.

Lemma span_digits_digits (k : nat) :
  forall z rest,
    span_digits (JS.digits k z +:+ rest)
    = (JS.digits k z +:+ fst (span_digits rest), snd (span_digits rest)).
Proof.
  induction k as [|k IH]; intros z rest; simpl JS.digits.
  - rewrite !app_nil. destruct (span_digits rest); reflexivity.
  - rewrite app_assoc', app_String, app_nil, IH.
    simpl span_digits. destruct (digit_char z) as [-> _].
    destruct (span_digits rest) as [ds r]. simpl.
    rewrite app_assoc', app_String, app_nil. reflexivity.
Qed.

Lemma value_from_app (a b : string) :
  forall acc, value_from acc (a +:+ b) = value_from (value_from acc a) b.
Proof.
  induction a as [|x a IH]; intros acc; [reflexivity|].
  rewrite app_String. simpl. apply IH.
Qed.

Lemma value_of_digits (k : nat) :
  forall z, value_of (JS.digits k z) = z mod 10 ^ Z.of_nat k.
Proof.
  unfold value_of. induction k as [|k IH]; intros z.
  - simpl. rewrite Z.mod_1_r. reflexivity.
  - simpl JS.digits. rewrite value_from_app, IH. simpl value_from.
    destruct (digit_char z) as [_ ->].
    rewrite Nat2Z.inj_succ, Z.pow_succ_r by lia.
    rewrite (Z.rem_mul_r z 10 (10 ^ Z.of_nat k)) by lia. lia.
Qed.

Lemma field_digits (k : nat) (z : Z) (rest : string) :
  0 <= z < 10 ^ Z.of_nat k ->
  span_digits rest = (EmptyString, rest) ->
  field k (JS.digits k z +:+ rest) = Some (z, rest).
Proof.
  intros Hz Hrest. unfold field. rewrite span_digits_digits, Hrest. simpl fst. simpl snd.
  assert (Hnil : forall s, s +:+ EmptyString = s).
  { induction s as [|x s IH]; [reflexivity|]. rewrite app_String, IH. reflexivity. }
  rewrite Hnil, digits_length, Nat.eqb_refl, value_of_digits, Z.mod_small by lia.
  reflexivity.
Qed.

Lemma app_nil_r (s : string) : s +:+ EmptyString = s.
Proof. induction s as [|x s IH]; [reflexivity|]. rewrite app_String, IH. reflexivity. Qed.

Lemma sep_here (c : ascii) (rest : string) :
  sep (String c EmptyString) (String c rest) = Some rest.
Proof. unfold sep. simpl. rewrite Ascii.eqb_refl. reflexivity. Qed.

Lemma secfrac_digits (z : Z) (rest : string) :
  0 <= z < 1000 ->
  span_digits rest = (EmptyString, rest) ->
  secfrac (String "." (JS.digits 3 z +:+ rest)) = Some (z, rest).
Proof.
  intros Hz Hrest. unfold secfrac. rewrite sep_here.
  rewrite span_digits_digits, Hrest. simpl fst. simpl snd. rewrite app_nil_r.
  pose proof (digits_length 3 z) as Hlen.
  pose proof (value_of_digits 3 z) as Hval.
  destruct (JS.digits 3 z) as [|c ds] eqn:E; [discriminate|].
  rewrite Hlen, Hval. rewrite Z.mod_small by (simpl; lia).
  change (10 ^ Z.of_nat 3) with 1000. rewrite Z.div_mul by lia. reflexivity.
Qed.

Lemma sep_app (c : ascii) (rest : string) :
  sep (String c EmptyString) (String c EmptyString +:+ rest) = Some rest.
Proof. apply sep_here. Qed.

Lemma secfrac_app (z : Z) (rest : string) :
  0 <= z < 1000 ->
  span_digits rest = (EmptyString, rest) ->
  secfrac ("." +:+ JS.digits 3 z +:+ rest) = Some (z, rest).
Proof. apply secfrac_digits. Qed.

(** The rendering of [toISOString], read as an RFC 3339 timestamp, is the
    instant rendered, for every instant in the years 0000 to 9999. *)
Lemma iso_of_time_denotes (t : Z) :
  0 <= JS.year_of_time t <= 9999 ->
  instant_of (JS.iso_of_time t) = Some t.
Proof.
  unfold JS.year_of_time, JS.iso_of_time.
  pose proof (civil_of_days_correct (t / JS.ms_per_day)) as Hc.
  destruct (JS.civil_of_days (t / JS.ms_per_day)) as [[y m] d].
  destruct Hc as (Hm & Hd & Hdays). simpl fst. intros Hy.
  pose proof (time_of_day t) as Ht. cbv zeta in Ht.
  set (r := t mod JS.ms_per_day) in *.
  destruct Ht as (Hh & Hmin & Hs & Hms & Hsum).
  assert (Hdim : days_in_month y m <= 31).
  { unfold days_in_month. repeat destruct (_ =? _); simpl; try destruct (leap_year y); lia. }
  unfold JS.iso_year.
  destruct (Z.leb_spec 0 y); [|lia]. destruct (Z.leb_spec y 9999); [|lia]. simpl andb. cbv iota.
  unfold instant_of.
  rewrite field_digits; [cbn [bind] | simpl; lia | reflexivity].
  rewrite sep_app; cbn [bind].
  rewrite field_digits; [cbn [bind] | simpl; lia | reflexivity].
  rewrite sep_app; cbn [bind].
  rewrite field_digits; [cbn [bind] | simpl; lia | reflexivity].
  rewrite sep_app; cbn [bind].
  rewrite field_digits; [cbn [bind] | simpl; lia | reflexivity].
  rewrite sep_app; cbn [bind].
  rewrite field_digits; [cbn [bind] | simpl; lia | reflexivity].
  rewrite sep_app; cbn [bind].
  rewrite field_digits; [cbn [bind] | simpl; lia | reflexivity].
  rewrite secfrac_app; [cbn [bind] | lia | reflexivity].
  change (sep "Z" "Z") with (Some EmptyString). cbn [bind].
  destruct (Z.leb_spec 1 m); [|lia]. destruct (Z.leb_spec m 12); [|lia].
  destruct (Z.leb_spec 1 d); [|lia]. destruct (Z.leb_spec d (days_in_month y m)); [|lia].
  destruct (Z.leb_spec (r / 3600000) 23); [|lia].
  destruct (Z.leb_spec (r / 60000 mod 60) 59); [|lia].
  destruct (Z.leb_spec (r / 1000 mod 60) 59); [|lia].
  simpl andb. cbv iota.
  rewrite Hdays. f_equal. lia.
Qed.

End Calendar.

(** ** Adapters *)

Section AdapterProperties.
Import Types.

(** The field mapping of adapter A on every payload its schema accepts. *)
Lemma transformA_accepted (payload : JS.value) (v : MarketplaceAPayload) :
  MarketplaceAPayloadSchema payload = inr v ->
  MarketplaceAAdapter.transform payload
  = inr {| productId := product_code v; quantity := available_stock v;
           source := marketplace_a; warehouseId := warehouse v;
           updatedAt := timestamp v; metadata := a_metadata v |}.
Proof.
  intros H. unfold MarketplaceAAdapter.transform. rewrite H. reflexivity.
Qed.

(** C6: a payload with a negative quantity is not rejected: both
    adapters return a record that carries the negative quantity, a record
    that [InternalInventorySchema] (quantity at least 0) does not admit. *)
Theorem C6_negative_quantity_accepted :
  MarketplaceAAdapter.transform
    (JS.JObj [("product_code", JS.JStr "PROD-1"); ("available_stock", JS.JNum (-5));
              ("timestamp", JS.JStr "2026-01-01T10:00:00Z")])
  = inr {| productId := "PROD-1"; quantity := -5; source := marketplace_a;
           warehouseId := None; updatedAt := "2026-01-01T10:00:00Z";
           metadata := None |}
  /\ MarketplaceBAdapter.transform
       (JS.JObj [("sku", JS.JStr "SKU1"); ("qty", JS.JNum (-7));
                 ("last_modified", JS.JNum 1735689600)])
     = inr {| productId := "SKU1"; quantity := -7; source := marketplace_b;
              warehouseId := None; updatedAt := "2025-01-01T00:00:00.000Z";
              metadata := None |}
  /\ (forall datetime,
        InternalInventorySchema datetime
          {| productId := "PROD-1"; quantity := -5; source := marketplace_a;
             warehouseId := None; updatedAt := "2026-01-01T10:00:00Z";
             metadata := None |} = false).
Proof.
  split; [|split]; vm_compute; reflexivity.
Qed.

(** The double that [n] is rounded to, for [n] above [2 ^ 53], is
    [2 ^ 53] at least. *)
Lemma nearest_large (n : Z) :
  2 ^ 53 < n ->
  exists q e, JS.nearest n 1 = (q, e) /\ 0 <= e /\ 0 < q /\ 2 ^ 53 <= q * 2 ^ e.
Proof.
  intros Hn.
  assert (Hpos : 0 < n) by lia.
  pose proof (Z.log2_spec n Hpos) as [Hlo Hhi].
  assert (H53 : 53 <= Z.log2 n).
  { rewrite <- (Z.log2_pow2 53) by lia. apply Z.log2_le_mono. lia. }
  unfold JS.nearest, JS.log2_ratio.
  change (Z.log2 1) with 0. rewrite Z.sub_0_r.
  destruct (Z.leb_spec 0 (Z.log2 n)) as [_|]; [|lia].
  rewrite Z.mul_1_l. destruct (Z.leb_spec (2 ^ Z.log2 n) n) as [_|]; [|lia].
  rewrite Z.max_l by lia.
  set (e := Z.log2 n - 52).
  destruct (Z.leb_spec 0 e) as [He|]; [|lia].
  rewrite Z.mul_1_l.
  assert (Hp : 0 < 2 ^ e) by (apply Z.pow_pos_nonneg; lia).
  assert (Hq : 2 ^ 52 <= n / 2 ^ e).
  { apply Z.div_le_lower_bound; [exact Hp|].
    rewrite Z.mul_comm, <- Z.pow_add_r by lia.
    replace (52 + e) with (Z.log2 n) by (unfold e; lia). exact Hlo. }
  assert (He1 : 2 ^ 1 <= 2 ^ e) by (apply Z.pow_le_mono_r; lia).
  change (2 ^ 1) with 2 in He1. change (2 ^ 53) with (2 ^ 52 * 2).
  do 2 eexists. split; [reflexivity|]. split; [exact He|].
  destruct (_ || _); split; try lia; nia.
Qed.

(** The date of a whole number of seconds: the product is exact within
    the range of a [Date], and beyond it the date is invalid. *)
Lemma Date_of_whole_seconds (z : Z) :
  JS.Date (JS.times (JS.Int z) 1000) = JS.time_clip (z * 1000).
Proof.
  unfold JS.times. destruct (Z.leb_spec (Z.abs (z * 1000)) (2 ^ 53)) as [|Hbig];
    [reflexivity|].
  assert (Hout : JS.time_clip (z * 1000) = None).
  { unfold JS.time_clip, JS.max_time.
    destruct (Z.leb_spec (Z.abs (z * 1000)) 8640000000000000); [|reflexivity].
    change (2 ^ 53) with 9007199254740992 in Hbig. lia. }
  rewrite Hout. unfold JS.of_ratio.
  destruct (Z.eqb_spec (z * 1000) 0) as [H0|_]; [rewrite H0 in Hbig; simpl in Hbig; lia|].
  destruct (nearest_large (Z.abs (z * 1000)) Hbig) as (q & e & -> & He & Hq & Hv).
  destruct (JS.overflows (q, e)); [reflexivity|].
  unfold JS.of_double.
  destruct (Z.eqb_spec q 0); [lia|].
  destruct (Z.leb_spec 0 e); [|lia].
  unfold JS.Date, JS.time_clip, JS.max_time.
  change (2 ^ 53) with 9007199254740992 in Hv.
  destruct (z * 1000 <? 0);
    match goal with |- (if ?a <=? ?b then _ else _) = _ =>
      destruct (Z.leb_spec a b); [lia | reflexivity] end.
Qed.

(** What adapter B answers on a payload its schema accepts, by the date
    of [last_modified * 1000]. *)
Lemma transformB_accepted (payload : JS.value) (v : MarketplaceBPayload) :
  MarketplaceBPayloadSchema payload = inr v ->
  MarketplaceBAdapter.transform payload
  = match JS.Date (JS.times (last_modified v) 1000) with
    | Some t =>
        inr {| productId := sku v; quantity := qty v;
               source := marketplace_b; warehouseId := location_id v;
               updatedAt := JS.iso_of_time t;
               metadata := additional_info v |}
    | None => inl (InvalidMarketplaceBPayload (range invalid_time_value))
    end.
Proof.
  intros H. unfold MarketplaceBAdapter.transform. rewrite H.
  destruct (JS.Date _); reflexivity.
Qed.

(** C7, as the code has it: on every payload its schema accepts,
    [last_modified] a whole number of seconds or not, adapter B goes by
    the date [new Date(last_modified * 1000)].  When that date is valid,
    it returns the record with [product_id = sku], [quantity = qty],
    [warehouse_id = location_id], [metadata = additional_info],
    [source = marketplace_b] and [updated_at] the [toISOString] rendering
    of the date's time value, which for the years 0000 to 9999 is an
    RFC 3339 UTC timestamp of that very instant; when the date is
    invalid, the payload is rejected with the invalid-payload error.
    For a whole number of seconds the date is valid exactly when
    [last_modified * 1000] is 8.64e15 at most on either side, and its
    time value is [last_modified * 1000]. *)
Theorem C7_transformB_maps_fields_and_instant
    (payload : JS.value) (v : MarketplaceBPayload) :
  MarketplaceBPayloadSchema payload = inr v ->
  match JS.Date (JS.times (last_modified v) 1000) with
  | Some t =>
      exists r,
        MarketplaceBAdapter.transform payload = inr r
        /\ productId r = sku v
        /\ quantity r = qty v
        /\ warehouseId r = location_id v
        /\ metadata r = additional_info v
        /\ source r = marketplace_b
        /\ updatedAt r = JS.iso_of_time t
        /\ (0 <= JS.year_of_time t <= 9999 ->
            Rfc3339.instant_of (updatedAt r) = Some t)
  | None =>
      MarketplaceBAdapter.transform payload
      = inl (InvalidMarketplaceBPayload (range invalid_time_value))
  end
  /\ (forall z, last_modified v = JS.Int z ->
        JS.Date (JS.times (last_modified v) 1000)
        = if Z.abs (z * 1000) <=? JS.max_time then Some (z * 1000) else None).
Proof.
  intros Hv. split.
  - rewrite (transformB_accepted payload v Hv).
    destruct (JS.Date _) as [t|]; [|reflexivity].
    eexists. split; [reflexivity|].
    cbn [productId quantity warehouseId metadata source updatedAt].
    repeat split. apply iso_of_time_denotes.
  - intros z ->. apply Date_of_whole_seconds.
Qed.

End AdapterProperties.

Section AdapterEvaluation.
Import Types Sample.

(** The theorem on the item of the specification's third scenario, and
    on the same item modified half a second later. *)
Lemma C7_transformB_witness :
  (exists r,
     MarketplaceBAdapter.transform item_b = inr r
     /\ productId r = "SKU1"
     /\ quantity r = 7
     /\ warehouseId r = Some "L"
     /\ metadata r = None
     /\ source r = marketplace_b
     /\ updatedAt r = JS.iso_of_time 1735689600000
     /\ (0 <= JS.year_of_time 1735689600000 <= 9999 ->
         Rfc3339.instant_of (updatedAt r) = Some 1735689600000))
  /\ (exists r,
        MarketplaceBAdapter.transform item_half = inr r
        /\ productId r = "SKU1"
        /\ quantity r = 7
        /\ warehouseId r = Some "L"
        /\ metadata r = None
        /\ source r = marketplace_b
        /\ updatedAt r = JS.iso_of_time 1735689600500
        /\ (0 <= JS.year_of_time 1735689600500 <= 9999 ->
            Rfc3339.instant_of (updatedAt r) = Some 1735689600500)).
Proof.
  split.
  - destruct (C7_transformB_maps_fields_and_instant item_b
                {| sku := "SKU1"; qty := 7; location_id := Some "L";
                   last_modified := JS.Int 1735689600; additional_info := None |})
      as [H _]; [reflexivity|].
    exact H.
  - destruct (C7_transformB_maps_fields_and_instant item_half
                {| sku := "SKU1"; qty := 7; location_id := Some "L";
                   last_modified := JS.Frac 3471379201 1; additional_info := None |})
      as [H _]; [reflexivity|].
    exact H.
Defined.

Example transformB_scenario_3 :
  MarketplaceBAdapter.transform item_b
  = inr {| productId := "SKU1"; quantity := 7; source := marketplace_b;
           warehouseId := Some "L"; updatedAt := "2025-01-01T00:00:00.000Z";
           metadata := None |}.
Proof. vm_compute. reflexivity. Qed.

(** C7 as stated fails at the ends of time.  A payload that the schema
    accepts, with [last_modified] beyond what a [Date] holds, is not
    transformed but rejected; one in the year 10000 is transformed to
    the expanded-year form of [toISOString], which is no RFC 3339
    timestamp. *)
Lemma C7_valid_payload_rejected_or_not_rfc3339 :
  MarketplaceBPayloadSchema (item_at 8640000000001)
  = inr {| sku := "SKU1"; qty := 7; location_id := Some "L";
           last_modified := JS.Int 8640000000001; additional_info := None |}
  /\ MarketplaceBAdapter.transform (item_at 8640000000001)
     = inl (InvalidMarketplaceBPayload (range invalid_time_value))
  /\ MarketplaceBAdapter.transform (item_at 253402300800)
     = inr {| productId := "SKU1"; quantity := 7; source := marketplace_b;
              warehouseId := Some "L"; updatedAt := "+010000-01-01T00:00:00.000Z";
              metadata := None |}
  /\ Rfc3339.instant_of "+010000-01-01T00:00:00.000Z" = None.
Proof. vm_compute. repeat split; reflexivity. Qed.

End AdapterEvaluation.

(** ** The webhook path *)

Section WebhookEvaluation.
Import Types Runtime Sample.

(** What the route answers depends on the bytes of the body only through
    the value they parse to. *)
Lemma post_depends_on_parsed_body (raw raw' : string) (signature : option string)
    (w : World) :
  App.express_json raw = App.express_json raw' ->
  App.post_webhooks_marketplace_a raw signature w
  = App.post_webhooks_marketplace_a raw' signature w.
Proof.
  intros H. unfold App.post_webhooks_marketplace_a. rewrite H. reflexivity.
Qed.

(** C1: the signature is checked against [JSON.stringify(req.body)], not
    against the bytes received.  The two bodies parse to the same value;
    the compact one, signed over its own bytes, is accepted and enqueued;
    the spaced one, signed over its own bytes, is answered 401 and not
    enqueued, while it is accepted under the signature of the compact
    text, which was never sent. *)
Theorem C1_signature_checked_over_reserialised_body :
  App.express_json spaced_body = App.express_json compact_body
  /\ answer (App.post_webhooks_marketplace_a compact_body (Some (sign compact_body)) w0)
     = Some 202
  /\ enqueued (App.post_webhooks_marketplace_a compact_body (Some (sign compact_body)) w0)
     = ["marketplace_a-PROD-ABC-123-1767261600000"]
  /\ answer (App.post_webhooks_marketplace_a spaced_body (Some (sign spaced_body)) w0)
     = Some 401
  /\ enqueued (App.post_webhooks_marketplace_a spaced_body (Some (sign spaced_body)) w0)
     = []
  /\ answer (App.post_webhooks_marketplace_a spaced_body (Some (sign compact_body)) w0)
     = Some 202.
Proof. vm_compute. repeat split; reflexivity. Qed.

End WebhookEvaluation.

(** *** The digest has 64 hexadecimal characters *)

Section DigestLength.

Lemma hex_of_bytes_length (l : JS.bytes) :
  String.length (JS.hex_of_bytes l) = (2 * List.length l)%nat.
Proof.
  induction l as [|b l IH]; simpl; [reflexivity|]. rewrite IH. lia.
Qed.

Lemma compress_length (h block : list Z) :
  List.length h = 8%nat -> List.length (JS.compress h block) = 8%nat.
Proof.
  intros Hh. unfold JS.compress.
  rewrite length_map, length_combine, Hh. reflexivity.
Qed.

Lemma hash_blocks_length (fuel : nat) :
  forall h ws, List.length h = 8%nat -> List.length (JS.hash_blocks fuel h ws) = 8%nat.
Proof.
  induction fuel as [|fuel IH]; intros h ws Hh; simpl; [exact Hh|].
  destruct ws as [|x ws']; [exact Hh|].
  apply IH. apply compress_length. exact Hh.
Qed.

Lemma flat_map_words_length (l : list Z) :
  List.length (flat_map JS.bytes_of_word l) = (4 * List.length l)%nat.
Proof.
  induction l as [|x l IH]; simpl; [reflexivity|]. rewrite IH. lia.
Qed.

Lemma sha256_length (msg : JS.bytes) : List.length (JS.sha256 msg) = 32%nat.
Proof.
  unfold JS.sha256. rewrite flat_map_words_length, hash_blocks_length; reflexivity.
Qed.

Lemma digest_length (secret payload : string) :
  String.length (JS.createHmac_sha256_hex secret payload) = 64%nat.
Proof.
  unfold JS.createHmac_sha256_hex, JS.hmac_sha256.
  rewrite hex_of_bytes_length, sha256_length. reflexivity.
Qed.

Lemma bytes_of_string_length (s : string) :
  List.length (JS.bytes_of_string s) = String.length s.
Proof. induction s as [|c s IH]; simpl; [reflexivity|]. rewrite IH. reflexivity. Qed.

Lemma code_inj (a b : ascii) : JS.code a = JS.code b -> a = b.
Proof.
  unfold JS.code. intros H. apply N2Z.inj in H.
  rewrite <- (ascii_N_embedding a), <- (ascii_N_embedding b), H. reflexivity.
Qed.

Lemma forallb_bytes_eq (a b : string) :
  String.length a = String.length b ->
  forallb (fun p => fst p =? snd p)
          (combine (JS.bytes_of_string a) (JS.bytes_of_string b)) = true ->
  a = b.
Proof.
  revert b. induction a as [|c a IH]; intros [|d b] Hlen H; simpl in *;
    try discriminate; [reflexivity|].
  apply andb_prop in H as [Hc Hrest].
  apply Z.eqb_eq, code_inj in Hc. subst d.
  f_equal. apply IH; [lia | exact Hrest].
Qed.

Lemma forallb_bytes_refl (a : string) :
  forallb (fun p => fst p =? snd p)
          (combine (JS.bytes_of_string a) (JS.bytes_of_string a)) = true.
Proof.
  induction a as [|c a IH]; simpl; [reflexivity|].
  rewrite Z.eqb_refl. exact IH.
Qed.

End DigestLength.

(** *** What [validateSignature] answers *)

Section ValidateSignature.
Import Types.
Variable env_secret : option string.
Variable payload : string.

Let expected : string :=
  JS.createHmac_sha256_hex (MarketplaceAAdapter.secret_of env_secret) payload.

Lemma validateSignature_match :
  MarketplaceAAdapter.validateSignature env_secret payload expected = inr true.
Proof.
  unfold MarketplaceAAdapter.validateSignature, JS.timingSafeEqual, JS.bytes_eqb.
  fold expected. rewrite Nat.eqb_refl. simpl.
  rewrite forallb_bytes_refl. reflexivity.
Qed.

Lemma validateSignature_mismatch (signature : string) :
  String.length signature = 64%nat -> signature <> expected ->
  MarketplaceAAdapter.validateSignature env_secret payload signature = inr false.
Proof.
  intros Hlen Hne.
  unfold MarketplaceAAdapter.validateSignature, JS.timingSafeEqual, JS.bytes_eqb.
  fold expected.
  assert (Hl : List.length (JS.bytes_of_string signature)
               = List.length (JS.bytes_of_string expected)).
  { rewrite !bytes_of_string_length, Hlen. unfold expected.
    rewrite digest_length. reflexivity. }
  rewrite Hl, Nat.eqb_refl. simpl.
  destruct (forallb _ _) eqn:E; [|reflexivity].
  exfalso. apply Hne. apply forallb_bytes_eq; [|exact E].
  rewrite <- !bytes_of_string_length. exact Hl.
Qed.

Lemma validateSignature_wrong_length (signature : string) :
  String.length signature <> 64%nat ->
  MarketplaceAAdapter.validateSignature env_secret payload signature
  = inl (RangeError timing_safe_equal_length).
Proof.
  intros Hlen.
  unfold MarketplaceAAdapter.validateSignature, JS.timingSafeEqual.
  fold expected.
  rewrite !bytes_of_string_length. unfold expected. rewrite digest_length.
  destruct (Nat.eqb_spec (String.length signature) 64); [contradiction | reflexivity].
Qed.

End ValidateSignature.

(** *** What the handler answers, by the signature header *)

Section HandlerOutcomes.
Import Types Runtime.
Variable body : JS.value.
Variable w : World.

Let expected : string :=
  JS.createHmac_sha256_hex
    (MarketplaceAAdapter.secret_of (MARKETPLACE_A_SECRET (env w))) (JS.stringify body).

(** No header, or an empty one: 401, and the world is untouched. *)
Lemma handle_missing_signature (signature : option string) :
  WebhookController.falsy signature = true ->
  WebhookController.handleMarketplaceA body signature w
  = (w, inr WebhookController.invalid_signature).
Proof.
  intros H. unfold WebhookController.handleMarketplaceA, try_catch, bind, read, ret.
  rewrite H. reflexivity.
Qed.

(** A header of the digest's length that differs from it: 401, and the
    world is untouched. *)
Lemma handle_mismatch (signature : string) :
  String.length signature = 64%nat -> signature <> expected ->
  WebhookController.handleMarketplaceA body (Some signature) w
  = (w, inr WebhookController.invalid_signature).
Proof.
  intros Hlen Hne.
  unfold WebhookController.handleMarketplaceA, try_catch, bind, read, ret, lift.
  destruct signature as [|c s]; [discriminate|]. cbn [WebhookController.falsy default].
  rewrite validateSignature_mismatch by assumption. reflexivity.
Qed.

(** A non-empty header of any other length: the comparison throws, the
    handler's [catch] answers 500, and the world is untouched. *)
Lemma handle_wrong_length (signature : string) :
  signature <> EmptyString -> String.length signature <> 64%nat ->
  WebhookController.handleMarketplaceA body (Some signature) w
  = (w, inr WebhookController.failed_to_process).
Proof.
  intros Hne Hlen.
  unfold WebhookController.handleMarketplaceA, try_catch, bind, read, ret, lift.
  destruct signature as [|c s]; [contradiction|]. cbn [WebhookController.falsy default].
  rewrite validateSignature_wrong_length by assumption. reflexivity.
Qed.

(** The matching header: the handler goes on to transform and enqueue. *)
Lemma handle_match :
  WebhookController.handleMarketplaceA body (Some expected) w
  = try_catch
      (await internalInventory <- lift (MarketplaceAAdapter.transform body);
       await jobId <- InventoryService.processUpdate internalInventory;
       ret (WebhookController.queued jobId (productId internalInventory)))
      (fun _ => ret WebhookController.failed_to_process) w.
Proof.
  unfold WebhookController.handleMarketplaceA, try_catch, bind, read, ret, lift.
  assert (Hf : WebhookController.falsy (Some expected) = false).
  { pose proof (digest_length
      (MarketplaceAAdapter.secret_of (MARKETPLACE_A_SECRET (env w))) (JS.stringify body)) as Hl.
    fold expected in Hl. destruct expected; [discriminate | reflexivity]. }
  rewrite Hf. cbn [default].
  unfold expected. rewrite validateSignature_match. reflexivity.
Qed.

(** A job is enqueued only under the matching header. *)
Lemma handle_enqueues_only_on_match (signature : option string) :
  queue (fst (WebhookController.handleMarketplaceA body signature w)) <> queue w ->
  signature = Some expected.
Proof.
  intros Hq.
  destruct (WebhookController.falsy signature) eqn:Hf.
  { rewrite handle_missing_signature in Hq by assumption. contradiction. }
  destruct signature as [s|]; [|discriminate].
  destruct (string_dec s expected) as [->|Hne]; [reflexivity|].
  assert (s <> EmptyString) by (intros ->; discriminate).
  destruct (Nat.eq_dec (String.length s) 64%nat).
  - rewrite handle_mismatch in Hq by assumption. contradiction.
  - rewrite handle_wrong_length in Hq by assumption. contradiction.
Qed.

End HandlerOutcomes.

Section WrongLengthEvaluation.
Import Types Runtime Sample.

(** C2: a signature header of the wrong length is not answered 401: the
    constant-time comparison throws on buffers of different lengths and
    the handler's [catch] answers 500.  (No job is enqueued; a missing
    header and a wrong header of 64 characters are answered 401.) *)
Theorem C2_wrong_length_signature_answers_500 :
  answer (App.post_webhooks_marketplace_a compact_body (Some "deadbeef") w0) = Some 500
  /\ enqueued (App.post_webhooks_marketplace_a compact_body (Some "deadbeef") w0) = []
  /\ answer (App.post_webhooks_marketplace_a compact_body None w0) = Some 401
  /\ answer (App.post_webhooks_marketplace_a compact_body
               (Some "0000000000000000000000000000000000000000000000000000000000000000") w0)
     = Some 401.
Proof. vm_compute. repeat split; reflexivity. Qed.

End WrongLengthEvaluation.

(** ** The lock service *)

Section LockProperties.
Import Types Runtime LockService.

(** A swallowing [catch] leaves nothing to throw. *)
Lemma releaseLock_never_throws (lock : Lock) (w : World) :
  snd (releaseLock lock w) = inr tt.
Proof.
  unfold releaseLock, try_catch, bind, ret.
  destruct (lock_release lock w) as [w' [e|[]]]; reflexivity.
Qed.

(** When the release goes through, the key is gone from Redis. *)
Lemma lock_release_deletes (lock : Lock) (w w' : World) :
  lock_release lock w = (w', inr tt) ->
  redis w' !! resource lock = None.
Proof.
  unfold lock_release, elapse, bind, read, update, throw.
  cbn [env set_now].
  destruct (release_fault (env w)); [discriminate|].
  destruct (redis_lookup _ _) as [v|]; [|discriminate].
  destruct (String.eqb v (lock_value lock)); [|discriminate].
  intros [= <-]. cbn [redis set_redis set_now]. apply lookup_delete_eq.
Qed.

(** When the lock cannot be taken, [fn] is not run at all. *)
Lemma withLock_not_acquired {T : Type} (productId : string) (fn : M T)
    (options : PartialLockOptions) (w w1 : World) (e : Exn) :
  acquireLock productId options w = (w1, inl e) ->
  withLock productId fn options w = (w1, inl e).
Proof.
  intros H. unfold withLock, bind. rewrite H. reflexivity.
Qed.

(** [acquireLock] throws nothing but its own error. *)
Lemma acquireLock_error (productId : string) (options : PartialLockOptions)
    (w w1 : World) (e : Exn) :
  acquireLock productId options w = (w1, inl e) ->
  e = UnableToAcquireLock productId.
Proof.
  unfold acquireLock, try_catch, bind, ret, throw.
  destruct (redlock_acquire _ _ _ _ w) as [w' [e'|l]]; intros [= _ <-]; reflexivity.
Qed.

(** What [releaseLock] does is what [lock.release()] does, whether that
    returns or throws; what it answers is nothing. *)
Lemma releaseLock_runs_release (lock : Lock) (w : World) :
  releaseLock lock w = (fst (lock_release lock w), inr tt).
Proof.
  unfold releaseLock, try_catch, bind, ret.
  destruct (lock_release lock w) as [w' [e|[]]]; reflexivity.
Qed.

(** A release that cannot reach Redis throws. *)
Lemma lock_release_fault (lock : Lock) (w : World) :
  release_fault (env w) = true -> snd (lock_release lock w) = inl ExecutionError.
Proof.
  intros H. unfold lock_release, elapse, bind, read, update, throw.
  cbn [env set_now]. rewrite H. reflexivity.
Qed.

(** C10: once the lock is acquired, [withLock] runs [fn] and then, on the
    state [fn] left and whether [fn] returned or threw, [lock.release()]:
    the world [withLock] leaves is the one the release leaves.  The
    release can throw (it does when it cannot reach Redis); what it
    throws is swallowed, and the outcome of [withLock] is exactly the
    outcome of [fn].  When the release returns, the lock's key is gone
    from Redis. *)
Theorem C10_withLock_outcome_is_fn_outcome
    (T : Type) (productId : string) (fn : M T) (options : PartialLockOptions)
    (w w1 w2 : World) (lock : Lock) (r : Exn + T) :
  acquireLock productId options w = (w1, inr lock) ->
  fn w1 = (w2, r) ->
  exists w3 released,
    lock_release lock w2 = (w3, released)
    /\ withLock productId fn options w = (w3, r)
    /\ (release_fault (env w2) = true -> released = inl ExecutionError)
    /\ (released = inr tt -> redis w3 !! resource lock = None).
Proof.
  intros Hacq Hfn.
  destruct (lock_release lock w2) as [w3 released] eqn:Hrel.
  exists w3, released. split; [reflexivity|]. split; [|split].
  - unfold withLock, bind at 1. rewrite Hacq.
    unfold try_finally, bind, ret. rewrite Hfn.
    destruct r as [e|t]; rewrite releaseLock_runs_release, Hrel; reflexivity.
  - intros Hfault. pose proof (lock_release_fault lock w2 Hfault) as H.
    rewrite Hrel in H. exact H.
  - intros ->. apply (lock_release_deletes lock w2 w3 Hrel).
Qed.

End LockProperties.

Section LockWitness.
Import Types Runtime LockService Sample.

(** The theorem at work, twice.  Where [fn] throws and the release fails
    as well, the error that comes out is the one of [fn]; where [fn]
    returns and the release goes through, the key is gone afterwards. *)
Lemma C10_withLock_witness :
  (exists w3 released,
     lock_release held (holding stuck_release) = (w3, released)
     /\ withLock "P" (throw TypeError : M unit) no_options (fresh stuck_release t0)
        = (w3, inl TypeError)
     /\ (release_fault (env (holding stuck_release)) = true ->
         released = inl ExecutionError)
     /\ (released = inr tt -> redis w3 !! resource held = None))
  /\ (exists w3 released,
        lock_release held (holding calm) = (w3, released)
        /\ withLock "P" (ret 7 : M Z) no_options (fresh calm t0) = (w3, inr 7)
        /\ (release_fault (env (holding calm)) = true -> released = inl ExecutionError)
        /\ (released = inr tt -> redis w3 !! resource held = None)).
Proof.
  split.
  - apply (C10_withLock_outcome_is_fn_outcome unit "P" (throw TypeError) no_options
             (fresh stuck_release t0) (holding stuck_release) (holding stuck_release) held
             (inl TypeError)).
    + vm_compute. reflexivity.
    + reflexivity.
  - apply (C10_withLock_outcome_is_fn_outcome Z "P" (ret 7) no_options
             (fresh calm t0) (holding calm) (holding calm) held (inr 7)).
    + vm_compute. reflexivity.
    + reflexivity.
Defined.

(** The two runs, as they come out: in the first the key stays behind
    until it expires, in the second Redis is empty again. *)
Example withLock_runs :
  withLock "P" (throw TypeError : M unit) no_options (fresh stuck_release t0)
  = (holding stuck_release, inl TypeError)
  /\ snd (lock_release held (holding stuck_release)) = inl ExecutionError
  /\ withLock "P" (ret 7 : M Z) no_options (fresh calm t0) = (fresh calm t0, inr 7)
  /\ snd (lock_release held (holding calm)) = inr tt.
Proof. vm_compute. repeat split; reflexivity. Qed.

End LockWitness.

(** ** The repository *)

Section RepositoryProperties.
Import Types Runtime InventoryRepository Invariant.

(** Running the transaction symbolically. *)
Ltac run_repo :=
  cbv beta delta [upsert try_finally try_catch bind query elapse read update ret throw
    select_for_update insert_on_conflict insert_audit next_inventory_id next_audit_id rollback].
Ltac tidy :=
  cbn [env set_now set_db set_tables now db tables inventory_rows audit_rows
       inventory_id_seq inventory_audit_id_seq redis queue poller fst snd].

(** With no fault, values the columns can hold and a quantity that
    passes the [CHECK], [upsert] commits. *)
Lemma upsert_commits inv w :
  goes_through inv w -> upsert inv w = (committed inv w, inr (returned inv w)).
Proof.
  intros (Hf & Hc & Hq).
  run_repo. tidy.
  repeat (rewrite ?Hf, ?Hc; tidy).
  destruct (Z.ltb_spec (quantity inv) 0); [lia|].
  repeat (rewrite ?Hf, ?Hc; tidy).
  reflexivity.
Qed.

(** A fault at any round trip, a value a column cannot hold, or a
    negative quantity: [upsert] throws, and the tables are as before. *)
Ltac failed_upsert :=
  right; run_repo; tidy;
  repeat match goal with
         | E : _ = _ |- _ => rewrite E; tidy
         end;
  do 2 eexists; split; [reflexivity|]; tidy; auto.

(** [upsert] either commits or throws with the tables restored. *)
Lemma upsert_outcome inv w :
  (goes_through inv w /\ upsert inv w = (committed inv w, inr (returned inv w)))
  \/ (exists w' e, upsert inv w = (w', inl e)
        /\ tables (db w') = tables (db w) /\ redis w' = redis w
        /\ queue w' = queue w /\ env w' = env w /\ poller w' = poller w).
Proof.
  destruct (db_fault (env w) q_connect) as [e|] eqn:E0; [failed_upsert|].
  destruct (db_fault (env w) q_begin) as [e|] eqn:E1; [failed_upsert|].
  destruct (db_fault (env w) q_select) as [e|] eqn:E2; [failed_upsert|].
  destruct (db_fault (env w) q_upsert) as [e|] eqn:E3; [failed_upsert|].
  destruct (coerce (env w) inv) as [e|] eqn:E4; [failed_upsert|].
  destruct (quantity inv <? 0) eqn:E5; [failed_upsert|].
  destruct (db_fault (env w) q_audit) as [e|] eqn:E6; [failed_upsert|].
  destruct (db_fault (env w) q_commit) as [e|] eqn:E7; [failed_upsert|].
  left. assert (G : goes_through inv w).
  { split; [|split]; [intros []; assumption | assumption | lia]. }
  split; [exact G | apply upsert_commits, G].
Qed.

Lemma same_key_eq p s r :
  same_key p s r = true -> product_id r = p /\ row_source r = s.
Proof.
  unfold same_key. intros H. apply andb_prop in H as [Hp Hs].
  apply String.eqb_eq in Hp. split; [exact Hp|].
  destruct (row_source r), s; simpl in Hs; try discriminate; reflexivity.
Qed.

Lemma same_key_refl p s r :
  product_id r = p -> row_source r = s -> same_key p s r = true.
Proof.
  intros <- <-. unfold same_key. rewrite String.eqb_refl. destruct (row_source r); reflexivity.
Qed.

Lemma In_update_conflict inv rows r :
  In r (update_conflict inv rows) ->
  In r rows
  \/ exists r0, In r0 rows /\ same_key (productId inv) (source inv) r0 = true
                /\ r = overwrite inv r0.
Proof.
  induction rows as [|x rows IH]; simpl; [tauto|].
  destruct (same_key (productId inv) (source inv) x) eqn:E; simpl.
  - intros [<-|H]; [right; exists x; auto | left; auto].
  - intros [<-|H]; [left; auto|].
    destruct (IH H) as [H'|(r0 & H0 & Hk & ->)]; [left; auto|].
    right. exists r0. auto.
Qed.

Lemma entry_accounts_for_overwrite inv r0 fresh started old :
  same_key (productId inv) (source inv) r0 = true ->
  accounts_for (overwrite inv r0) (audit_entry fresh started inv old) = true.
Proof.
  intros H. apply same_key_eq in H as [Hp Hs].
  unfold accounts_for. simpl. rewrite Hp, Hs, String.eqb_refl, Z.eqb_refl.
  destruct (source inv); reflexivity.
Qed.

Lemma entry_accounts_for_inserted inv fresh fresh' started started' old :
  accounts_for (inserted_row fresh' started' inv) (audit_entry fresh started inv old) = true.
Proof.
  unfold accounts_for. simpl. rewrite String.eqb_refl, Z.eqb_refl.
  destruct (source inv); reflexivity.
Qed.

Lemma committed_coverage inv w :
  audit_coverage (tables (db w)) = true ->
  audit_coverage (tables (db (committed inv w))) = true.
Proof.
  unfold audit_coverage. cbn [committed db tables inventory_rows audit_rows].
  rewrite !forallb_forall. intros Hcov r Hr.
  rewrite existsb_app. apply orb_true_iff.
  unfold rows_after, insert_or_update in Hr.
  destruct (existsb _ (inventory_rows (tables (db w)))) eqn:E.
  - apply In_update_conflict in Hr as [Hr|(r0 & H0 & Hk & ->)].
    + left. apply Hcov, Hr.
    + right. simpl. unfold audit_after.
      rewrite entry_accounts_for_overwrite by exact Hk. reflexivity.
  - apply in_app_or in Hr as [Hr|[<-|[]]].
    + left. apply Hcov, Hr.
    + right. simpl. unfold audit_after.
      rewrite entry_accounts_for_inserted. reflexivity.
Qed.

Lemma upsert_preserves_coverage inv w w' r :
  audit_coverage (tables (db w)) = true ->
  upsert inv w = (w', r) ->
  audit_coverage (tables (db w')) = true.
Proof.
  intros Hcov Hup.
  destruct (upsert_outcome inv w) as [[_ Hok]|(w1 & e & Hfail & Ht & _)].
  - rewrite Hok in Hup. injection Hup as <- _. apply committed_coverage, Hcov.
  - rewrite Hfail in Hup. injection Hup as <- _. rewrite Ht. exact Hcov.
Qed.

Lemma reachable_coverage w : reachable w -> audit_coverage (tables (db w)) = true.
Proof.
  induction 1 as [w H | w w' inv r _ IH Hup | w w' _ IH Ht].
  - rewrite H. reflexivity.
  - eapply upsert_preserves_coverage; eassumption.
  - rewrite Ht. exact IH.
Qed.

Lemma update_conflict_hit inv rows :
  existsb (same_key (productId inv) (source inv)) rows = true ->
  existsb (same_key (productId inv) (source inv)) (update_conflict inv rows) = true
  /\ update_conflict inv (update_conflict inv rows) = update_conflict inv rows
  /\ exists r, head (List.filter (same_key (productId inv) (source inv)) (update_conflict inv rows)) = Some r
               /\ row_quantity r = quantity inv.
Proof.
  induction rows as [|x rows IH]; simpl; [discriminate|].
  destruct (same_key (productId inv) (source inv) x) eqn:E; simpl.
  - intros _.
    assert (Hk : same_key (productId inv) (source inv) (overwrite inv x) = true).
    { apply same_key_eq in E as [Hp Hs]. apply same_key_refl; assumption. }
    rewrite Hk. simpl. split; [reflexivity|]. split; [|eexists; split; reflexivity].
    unfold overwrite at 1. simpl. reflexivity.
  - intros H. destruct (IH H) as (H1 & H2 & r & H3 & H4).
    rewrite E, H1, H2. split; [apply orb_true_r|]. split; [reflexivity|].
    exists r. split; assumption.
Qed.

Lemma update_conflict_miss inv rows :
  existsb (same_key (productId inv) (source inv)) rows = false ->
  update_conflict inv rows = rows
  /\ List.filter (same_key (productId inv) (source inv)) rows = [].
Proof.
  induction rows as [|x rows IH]; simpl; [auto|].
  destruct (same_key (productId inv) (source inv) x) eqn:E; simpl; [discriminate|].
  intros H. destruct (IH H) as [H1 H2]. rewrite H1, H2. auto.
Qed.

Lemma insert_or_update_again inv fresh started fresh' started' rows :
  let rows1 := insert_or_update fresh started inv rows in
  insert_or_update fresh' started' inv rows1 = rows1
  /\ exists r, head (List.filter (same_key (productId inv) (source inv)) rows1) = Some r
               /\ row_quantity r = quantity inv.
Proof.
  cbv zeta. unfold insert_or_update at 2 3 4.
  destruct (existsb _ rows) eqn:E.
  - destruct (update_conflict_hit inv rows E) as (H1 & H2 & H3).
    unfold insert_or_update. rewrite H1. auto.
  - destruct (update_conflict_miss inv rows E) as [H1 H2].
    assert (Hk : same_key (productId inv) (source inv) (inserted_row fresh started inv) = true).
    { apply same_key_refl; reflexivity. }
    unfold insert_or_update. rewrite existsb_app. simpl. rewrite Hk, orb_true_r.
    split.
    + clear H2. induction rows as [|x rows IH]; simpl.
      * rewrite Hk. reflexivity.
      * simpl in E. apply orb_false_iff in E as [Ex Er]. rewrite Ex.
        f_equal. apply IH; [exact Er|]. apply update_conflict_miss, Er.
    + rewrite List.filter_app, H2. simpl. rewrite Hk. simpl. eexists. split; reflexivity.
Qed.

Lemma quantity_or_null_head rows r :
  head rows = Some r ->
  quantity_or_null rows = if row_quantity r =? 0 then None else Some (row_quantity r).
Proof. destruct rows as [|x rows]; simpl; [discriminate|]. intros [= ->]. reflexivity. Qed.

Lemma goes_through_committed inv w :
  goes_through inv w -> goes_through inv (committed inv w).
Proof. intros H. exact H. Qed.

Lemma upsert_replay inv w w1 r1 :
  upsert inv w = (w1, inr r1) ->
  exists w2 a1 a2,
    upsert inv w1 = (w2, inr r1)
    /\ inventory_rows (tables (db w2)) = inventory_rows (tables (db w1))
    /\ audit_rows (tables (db w1)) = audit_rows (tables (db w)) ++ [a1]
    /\ audit_rows (tables (db w2)) = audit_rows (tables (db w)) ++ [a1; a2]
    /\ new_quantity a1 = quantity inv
    /\ new_quantity a2 = quantity inv
    /\ old_quantity a2 = if quantity inv =? 0 then None else Some (quantity inv).
Proof.
  intros Hup.
  destruct (upsert_outcome inv w) as [[G Hok]|(w' & e & Hfail & _)];
    [|rewrite Hfail in Hup; discriminate].
  rewrite Hok in Hup. injection Hup as <- <-.
  pose proof (goes_through_committed inv w G) as G1.
  pose proof (upsert_commits inv _ G1) as Hok1.
  destruct (insert_or_update_again inv (inventory_id_seq (db w) + 1) (started_at w)
              (inventory_id_seq (db (committed inv w)) + 1) (started_at (committed inv w))
              (inventory_rows (tables (db w)))) as (Hrows & r & Hhead & Hq).
  exists (committed inv (committed inv w)), (audit_after inv w), (audit_after inv (committed inv w)).
  assert (Hrows' : rows_after inv (committed inv w) = rows_after inv w).
  { exact Hrows. }
  split. { rewrite Hok1. unfold returned. rewrite Hrows'. reflexivity. }
  split. { cbn [committed db tables inventory_rows]. exact Hrows'. }
  split. { reflexivity. }
  split. { cbn [committed db tables audit_rows]. rewrite <- app_assoc. reflexivity. }
  split. { reflexivity. }
  split. { reflexivity. }
  unfold audit_after, audit_entry. cbn [old_quantity].
  cbn [committed db tables inventory_rows]. fold (rows_after inv w).
  unfold rows_after at 1.
  rewrite (quantity_or_null_head _ r Hhead), Hq. reflexivity.
Qed.

(** C8: the audit-coverage invariant (every inventory row has an audit
    row with its product, its source and its current quantity as
    [new_quantity]) is preserved by every [upsert], committed or rolled
    back, and holds in every state that is reachable from empty tables. *)
Theorem C8_audit_coverage_invariant :
  (forall (w w' : World) (inv : InternalInventory) (r : Exn + option InventoryRecord),
      audit_coverage (tables (db w)) = true ->
      upsert inv w = (w', r) ->
      audit_coverage (tables (db w')) = true)
  /\ (forall w : World, reachable w -> audit_coverage (tables (db w)) = true).
Proof.
  split.
  - intros w w' inv r. apply upsert_preserves_coverage.
  - apply reachable_coverage.
Qed.

End RepositoryProperties.

Section RepositoryEvaluation.
Import Types Runtime InventoryRepository Invariant Sample.

(** The invariant after the first and after the second upsert of the
    sample record into empty tables. *)
Lemma C8_audit_coverage_witness :
  audit_coverage (tables (db (once (widget 50) w0))) = true
  /\ audit_coverage (tables (db (twice (widget 20) (once (widget 50) w0)))) = true.
Proof.
  destruct C8_audit_coverage_invariant as [Hstep Hreach].
  split.
  - apply (Hstep w0 (once (widget 50) w0) (widget 50) (snd (upsert (widget 50) w0))).
    + vm_compute. reflexivity.
    + vm_compute. reflexivity.
  - apply Hreach.
    apply (reach_upsert (once (widget 20) (once (widget 50) w0)) _ (widget 20)
             (snd (upsert (widget 20) (once (widget 20) (once (widget 50) w0))))).
    + apply (reach_upsert (once (widget 50) w0) _ (widget 20)
               (snd (upsert (widget 20) (once (widget 50) w0)))).
      * apply (reach_upsert w0 _ (widget 50) (snd (upsert (widget 50) w0))).
        -- apply reach_created. vm_compute. reflexivity.
        -- vm_compute. reflexivity.
      * vm_compute. reflexivity.
    + vm_compute. reflexivity.
Defined.

(** C4: replaying a record whose quantity is 0.  The final row is the
    same after one and after two upserts and there are two audit rows
    with [new_quantity = 0], but the second has [old_quantity = null],
    not 0: [rows[0]?.quantity || null] takes the stored 0 for absent.
    With quantity 50 the second audit row has [old_quantity = 50]. *)
Theorem C4_replay_of_zero_quantity_loses_old_quantity :
  snd (upsert (widget 0) (once (widget 0) w0)) = snd (upsert (widget 0) w0)
  /\ inventory_rows (tables (db (twice (widget 0) w0)))
     = inventory_rows (tables (db (once (widget 0) w0)))
  /\ transitions (twice (widget 0) w0) = [(None, 0); (None, 0)]
  /\ transitions (twice (widget 50) w0) = [(None, 50); (Some 50, 50)].
Proof. vm_compute. repeat split; reflexivity. Qed.

End RepositoryEvaluation.

(** ** Job identifiers *)

Section JobIdentifiers.
Import Types Runtime QueueService.

Lemma uint_dash_free (d : Decimal.uint) : JS.dash_free (NilEmpty.string_of_uint d) = true.
Proof. induction d; simpl; try rewrite IHd; reflexivity. Qed.

Lemma string_of_N_dash_free (n : N) : JS.dash_free (JS.string_of_N n) = true.
Proof.
  unfold JS.string_of_N, NilZero.string_of_uint.
  destruct (N.to_uint n); try apply uint_dash_free; reflexivity.
Qed.

Lemma N_to_uint_nonnil (n : N) : N.to_uint n <> Decimal.Nil.
Proof.
  destruct n as [|p]; simpl; [discriminate|]. apply DecimalPos.Unsigned.to_uint_nonnil.
Qed.

Lemma string_of_N_inj (n m : N) : JS.string_of_N n = JS.string_of_N m -> n = m.
Proof.
  unfold JS.string_of_N. intros H.
  apply DecimalN.Unsigned.to_uint_inj.
  pose proof (NilZero.usu _ (N_to_uint_nonnil n)) as Hn.
  pose proof (NilZero.usu _ (N_to_uint_nonnil m)) as Hm.
  rewrite H in Hn. rewrite Hn in Hm. injection Hm as ->. reflexivity.
Qed.

Lemma string_of_Z_nonneg (z : Z) : 0 <= z -> JS.string_of_Z z = JS.string_of_N (Z.to_N z).
Proof.
  intros H. unfold JS.string_of_Z. destruct (Z.ltb_spec z 0); [lia | reflexivity].
Qed.

Lemma string_of_Z_inj (a b : Z) :
  0 <= a -> 0 <= b -> JS.string_of_Z a = JS.string_of_Z b -> a = b.
Proof.
  intros Ha Hb. rewrite !string_of_Z_nonneg by assumption.
  intros H. apply string_of_N_inj in H. lia.
Qed.

Lemma string_of_Z_dash_free (z : Z) : 0 <= z -> JS.dash_free (JS.string_of_Z z) = true.
Proof. intros H. rewrite string_of_Z_nonneg by exact H. apply string_of_N_dash_free. Qed.

Lemma dash_not_free (s d : string) : JS.dash_free (s +:+ String "-" d) = false.
Proof.
  induction s as [|x s IH].
  - reflexivity.
  - rewrite app_String. simpl. rewrite IH. apply andb_false_r.
Qed.

(** Splitting at the last dash. *)
Lemma split_last_dash (s1 s2 d1 d2 : string) :
  JS.dash_free d1 = true -> JS.dash_free d2 = true ->
  s1 +:+ String "-" d1 = s2 +:+ String "-" d2 -> s1 = s2 /\ d1 = d2.
Proof.
  intros H1 H2. revert s2.
  induction s1 as [|c s1 IH]; intros [|c' s2] H;
    rewrite ?app_String, ?app_nil in H.
  - injection H as Hd. auto.
  - injection H as Hc Hd. rewrite Hd, dash_not_free in H1. discriminate.
  - injection H as Hc Hd. rewrite <- Hd, dash_not_free in H2. discriminate.
  - injection H as Hc Hd. destruct (IH s2 Hd) as [Hs Hd']. subst. auto.
Qed.

Lemma source_prefix (a b : Source) (p q : string) :
  source_name a +:+ String "-" p = source_name b +:+ String "-" q -> a = b /\ p = q.
Proof.
  destruct a, b; unfold source_name; rewrite ?app_String, ?app_nil;
    intros H; try discriminate; injection H as H; auto.
Qed.

(** The two forms of job id, split at their dashes. *)
Lemma update_jobId_split (a : InternalInventory) (t : Z) :
  update_jobId a t
  = (source_name (source a) +:+ String "-" (productId a)) +:+ String "-" (JS.string_of_Z t).
Proof. unfold update_jobId. rewrite app_assoc'. reflexivity. Qed.

Lemma batch_jobId_split (a : InternalInventory) (t : Z) (i : nat) :
  batch_jobId a t i = update_jobId a t +:+ String "-" (JS.string_of_Z (Z.of_nat i)).
Proof. reflexivity. Qed.

Lemma update_jobId_inj (a b : InternalInventory) (t t' : Z) :
  0 <= t -> 0 <= t' ->
  update_jobId a t = update_jobId b t' ->
  source a = source b /\ productId a = productId b /\ t = t'.
Proof.
  intros Ht Ht'. rewrite !update_jobId_split. intros H.
  apply split_last_dash in H as [H1 H2]; try (apply string_of_Z_dash_free; assumption).
  apply source_prefix in H1 as [-> ->].
  apply string_of_Z_inj in H2; auto.
Qed.

Lemma batch_jobId_inj (a b : InternalInventory) (t t' : Z) (i j : nat) :
  0 <= t -> 0 <= t' ->
  batch_jobId a t i = batch_jobId b t' j ->
  source a = source b /\ productId a = productId b /\ t = t' /\ i = j.
Proof.
  intros Ht Ht'. rewrite !batch_jobId_split. intros H.
  apply split_last_dash in H as [H1 H2]; try (apply string_of_Z_dash_free; lia).
  apply update_jobId_inj in H1 as (Hs & Hp & Htt); try assumption.
  apply string_of_Z_inj in H2; try lia. repeat split; try assumption. lia.
Qed.

(** Within one [addBatch] the ids differ by their index alone. *)
Lemma batch_index_differs (a b : InternalInventory) (t t' : Z) (i j : nat) :
  i <> j -> batch_jobId a t i <> batch_jobId b t' j.
Proof.
  intros Hij H. rewrite !batch_jobId_split in H.
  apply split_last_dash in H as [_ H2]; try (apply string_of_Z_dash_free; lia).
  apply string_of_Z_inj in H2; lia.
Qed.

Lemma batch_ids_from (clock : nat -> Z) (updates : list InventoryJobData)
    (k : nat) (x : string) :
  In x (job_ids (batch_jobs clock k updates)) ->
  exists a i, (k <= i)%nat /\ x = batch_jobId a (clock i) i.
Proof.
  revert k. induction updates as [|d updates IH]; intros k; simpl; [tauto|].
  intros [<-|H].
  - exists (inventory d), k. auto.
  - destruct (IH (S k) H) as (a & i & Hi & ->). exists a, i. split; [lia | reflexivity].
Qed.

Lemma batch_ids_NoDup (clock : nat -> Z) (updates : list InventoryJobData) (k : nat) :
  List.NoDup (job_ids (batch_jobs clock k updates)).
Proof.
  revert k. induction updates as [|d updates IH]; intros k; simpl.
  - constructor.
  - constructor; [|apply IH].
    intros H. apply batch_ids_from in H as (a & i & Hi & Heq).
    apply batch_index_differs in Heq; [exact Heq | lia].
Qed.

(** How far the ids tell jobs apart: the id of [addInventoryUpdate] is
    determined by source, product and the millisecond of [Date.now()],
    the id of an [addBatch] entry by these and its index; two ids are
    equal exactly when all of these are, so entries of one [addBatch]
    call always differ (whatever the clock reads for each), and two
    updates of one product differ exactly when their milliseconds do. *)
Lemma job_ids_equal_iff (a b : InternalInventory) (t t' : Z) (i j : nat) :
  0 <= t -> 0 <= t' ->
  (update_jobId a t = update_jobId b t'
   <-> source a = source b /\ productId a = productId b /\ t = t')
  /\ (batch_jobId a t i = batch_jobId b t' j
      <-> source a = source b /\ productId a = productId b /\ t = t' /\ i = j)
  /\ (forall clock updates, List.NoDup (job_ids (batch_jobs clock 0 updates))).
Proof.
  intros Ht Ht'. split; [|split].
  - split; [apply update_jobId_inj; assumption|].
    intros (Hs & Hp & <-). unfold update_jobId. rewrite Hs, Hp. reflexivity.
  - split; [apply batch_jobId_inj; assumption|].
    intros (Hs & Hp & <- & <-). unfold batch_jobId, update_jobId. rewrite Hs, Hp. reflexivity.
  - intros clock updates. apply batch_ids_NoDup.
Qed.

End JobIdentifiers.

Section JobIdentifierEvaluation.
Import Types Runtime QueueService Sample.

(** C9: job ids are not unique.  Two webhooks for one product,
    quantities 10 then 20, accepted within the same millisecond, are
    given the same job id, and the queue, which keeps one job per id,
    holds the first only: the second update is answered with the id of
    the first and is never processed. *)
Theorem C9_same_millisecond_same_job_id :
  snd (addInventoryUpdate (job_of 10) 0 w0) = inr the_job
  /\ now (fst (addInventoryUpdate (job_of 10) 0 w0)) = now w0
  /\ snd (addInventoryUpdate (job_of 20) 0 (fst (addInventoryUpdate (job_of 10) 0 w0)))
     = inr the_job
  /\ map (fun j => (job_id j, quantity (inventory (job_data j))))
         (queue (fst (addInventoryUpdate (job_of 20) 0
                        (fst (addInventoryUpdate (job_of 10) 0 w0)))))
     = [(the_job, 10)].
Proof. vm_compute. repeat split; reflexivity. Qed.

End JobIdentifierEvaluation.

(** ** The worker *)

Section WorkerProperties.
Import Types Runtime QueueService InventoryRepository InventoryWorker Frame.

Lemma keeps_ret {A} (a : A) : keeps_keys (ret a).
Proof. intros w w' r [= <- _]. reflexivity. Qed.

Lemma keeps_throw {A} (e : Exn) : keeps_keys (throw e : M A).
Proof. intros w w' r [= <- _]. reflexivity. Qed.

Lemma keeps_read {A} (f : World -> A) : keeps_keys (read f).
Proof. intros w w' r [= <- _]. reflexivity. Qed.

Lemma keeps_lift {A} (x : Exn + A) : keeps_keys (lift x).
Proof. intros w w' r [= <- _]. reflexivity. Qed.

Lemma keeps_update (f : World -> World) :
  (forall w, keys (queue (f w)) = keys (queue w)) -> keeps_keys (update f).
Proof. intros Hf w w' r [= <- _]. apply Hf. Qed.

Lemma keeps_bind {A B} (m : M A) (k : A -> M B) :
  keeps_keys m -> (forall a, keeps_keys (k a)) -> keeps_keys (bind m k).
Proof.
  intros Hm Hk w w' r. unfold bind.
  destruct (m w) as [w1 [e|a]] eqn:E.
  - intros [= <- _]. eapply Hm, E.
  - intros H. rewrite (Hk a _ _ _ H). eapply Hm, E.
Qed.

Lemma keeps_try_catch {A} (m : M A) (h : Exn -> M A) :
  keeps_keys m -> (forall e, keeps_keys (h e)) -> keeps_keys (try_catch m h).
Proof.
  intros Hm Hh w w' r. unfold try_catch.
  destruct (m w) as [w1 [e|a]] eqn:E.
  - intros H. rewrite (Hh e _ _ _ H). eapply Hm, E.
  - intros [= <- _]. eapply Hm, E.
Qed.

Lemma keeps_try_finally {A} (m : M A) (f : M unit) :
  keeps_keys m -> keeps_keys f -> keeps_keys (try_finally m f).
Proof.
  intros Hm Hf w w' r. unfold try_finally.
  destruct (m w) as [w1 r1] eqn:E.
  destruct (f w1) as [w2 [e|u]] eqn:E2; intros [= <- _];
    rewrite (Hf _ _ _ E2); eapply Hm, E.
Qed.

Lemma keeps_elapse (io : Io) : keeps_keys (elapse io).
Proof. apply keeps_update. reflexivity. Qed.

Create HintDb keeps.
#[local] Hint Resolve keeps_ret keeps_throw keeps_read keeps_lift keeps_elapse : keeps.

(** Going through a computation combinator by combinator; what is
    known about its parts is taken from the hint database first. *)
Ltac keeps :=
  repeat lazymatch goal with
    | |- keeps_keys (bind _ _) => apply keeps_bind; [|intros ?]
    | |- keeps_keys (try_catch _ _) => apply keeps_try_catch; [|intros ?]
    | |- keeps_keys (try_finally _ _) => apply keeps_try_finally
    | |- keeps_keys (update _) => apply keeps_update; intros ?; reflexivity
    | |- keeps_keys (if ?b then _ else _) => destruct b
    | |- keeps_keys (match ?x with _ => _ end) => destruct x
    | |- _ => solve [auto with keeps nocore]
    end.

Lemma keeps_redlock_acquire (tries attempt : nat) (key : string) (ttl : Z) :
  keeps_keys (LockService.redlock_acquire tries attempt key ttl).
Proof.
  revert attempt. induction tries as [|n IH]; intros attempt; simpl; keeps.
Qed.
#[local] Hint Resolve keeps_redlock_acquire : keeps.

Lemma keeps_acquireLock (productId : string) (options : PartialLockOptions) :
  keeps_keys (LockService.acquireLock productId options).
Proof. unfold LockService.acquireLock. keeps. Qed.

Lemma keeps_releaseLock (lock : LockService.Lock) :
  keeps_keys (LockService.releaseLock lock).
Proof. unfold LockService.releaseLock, LockService.lock_release. keeps. Qed.
#[local] Hint Resolve keeps_acquireLock keeps_releaseLock : keeps.

Lemma keeps_withLock {T} (productId : string) (fn : M T) (options : PartialLockOptions) :
  keeps_keys fn -> keeps_keys (LockService.withLock productId fn options).
Proof. intros Hfn. unfold LockService.withLock. keeps. Qed.

Lemma keeps_upsert (inv : InternalInventory) :
  keeps_keys (InventoryRepository.upsert inv).
Proof.
  intros w w' r H.
  destruct (upsert_outcome inv w) as [[_ Hok]|(w1 & e & Hfail & _ & _ & Hq & _)].
  - rewrite Hok in H. injection H as <- _. reflexivity.
  - rewrite Hfail in H. injection H as <- _. rewrite Hq. reflexivity.
Qed.
#[local] Hint Resolve keeps_upsert : keeps.

Lemma keeps_executeUpdate (inv : InternalInventory) :
  keeps_keys (InventoryService.executeUpdate inv).
Proof. unfold InventoryService.executeUpdate. apply keeps_withLock. keeps. Qed.

Lemma keys_map (f : Job -> Job) (q : list Job) :
  (forall x, job_id (f x) = job_id x /\ attemptsMade (f x) = attemptsMade x) ->
  keys (map f q) = keys q.
Proof.
  intros Hf. unfold keys. rewrite map_map. apply map_ext.
  intros x. destruct (Hf x) as [-> ->]. reflexivity.
Qed.

Lemma keeps_updateProgress (jobId : string) (n : Z) :
  keeps_keys (updateProgress jobId n).
Proof.
  unfold updateProgress. keeps.
  apply keeps_update. intros w. cbn [queue set_queue].
  apply keys_map. intros x. destruct (String.eqb (job_id x) jobId); auto.
Qed.
#[local] Hint Resolve keeps_executeUpdate keeps_updateProgress : keeps.

Lemma keeps_processJob (job : Job) : keeps_keys (InventoryWorker.processJob job).
Proof. unfold InventoryWorker.processJob. cbv zeta. keeps. Qed.

Lemma find_job_id (jobId : string) (q : list Job) (j : Job) :
  find_job jobId q = Some j -> job_id j = jobId.
Proof.
  unfold find_job. intros H. apply find_some in H as [_ H].
  apply String.eqb_eq in H. exact H.
Qed.

Lemma find_job_keys (jobId : string) (q q' : list Job) (j : Job) :
  keys q' = keys q -> find_job jobId q = Some j ->
  exists j', find_job jobId q' = Some j' /\ attemptsMade j' = attemptsMade j.
Proof.
  revert q'. induction q as [|x q IH]; intros [|y q'] Hk; simpl in *; try discriminate.
  injection Hk as Hid Hatt Hk.
  rewrite Hid. destruct (String.eqb (job_id x) jobId).
  - intros [= <-]. exists y. auto.
  - apply IH, Hk.
Qed.

Lemma find_replace_job (jobId : string) (q : list Job) (j0 j : Job) :
  find_job jobId q = Some j0 -> job_id j = jobId ->
  find_job jobId (replace_job j q) = Some j.
Proof.
  intros H Hj. induction q as [|x q IH]; simpl in *; [discriminate|].
  rewrite Hj. destruct (String.eqb (job_id x) jobId) eqn:E.
  - simpl. rewrite Hj, String.eqb_refl. reflexivity.
  - simpl. rewrite E. apply IH, H.
Qed.


(** The [catch] of [processJob] rethrows: the processor is its [try]
    block. *)
Lemma processJob_rethrows (job : Job) (w : World) :
  processJob job w
  = (exec updateProgress (job_id job) 10;
     exec InventoryService.executeUpdate (inventory (job_data job));
     exec updateProgress (job_id job) 100;
     ret {| result_success := true;
            result_productId := productId (inventory (job_data job));
            result_quantity := quantity (inventory (job_data job)) |}) w.
Proof.
  unfold processJob, try_catch, throw. cbv zeta.
  match goal with |- (match ?m with _ => _ end) = _ => destruct m as [w' [e|r]] end;
    reflexivity.
Qed.

(** C3, as the code has it: the worker does not tell errors apart.
    Whatever [processJob] throws goes back to the queue, which counts the
    attempt and delays the job by the exponential backoff while fewer
    than 5 attempts were made, and fails it at the fifth. *)
Theorem C3_every_failure_goes_back_to_the_queue
    (w w' : World) (jobId : string) (j : Job) (e : Exn) :
  find_job jobId (queue w) = Some j ->
  due (now w) j = true ->
  work jobId w = (w', Some (inl e)) ->
  exists j',
    find_job jobId (queue w') = Some j'
    /\ attemptsMade j' = attemptsMade j + 1
    /\ job_state j' = (if attemptsMade j + 1 <? attempts then delayed else failed)
    /\ (attemptsMade j + 1 < attempts ->
        job_run_at j' = now w' + 2 ^ attemptsMade j * backoff_delay).
Proof.
  intros Hfind Hdue. unfold work. rewrite Hfind, Hdue.
  set (running := with_state active (attemptsMade j) (job_run_at j) (job_progress j) j).
  set (w1 := set_queue (replace_job running (queue w)) w).
  assert (Hrun : find_job jobId (queue w1) = Some running).
  { apply (find_replace_job jobId (queue w) j running Hfind).
    apply (find_job_id jobId (queue w) j Hfind). }
  destruct (processJob running w1) as [w2 outcome] eqn:Hproc.
  pose proof (keeps_processJob running _ _ _ Hproc) as Hkeys.
  destruct (find_job_keys jobId _ _ running Hkeys Hrun) as (j2 & Hj2 & Hatt).
  rewrite Hj2. intros [= <- ->].
  exists (settle j2 (inl e : Exn + JobResult) (now w2)).
  split.
  { cbn [queue set_queue]. apply (find_replace_job jobId _ j2 _ Hj2).
    unfold settle. destruct (_ <? _); apply (find_job_id jobId _ _ Hj2). }
  cbn [now set_queue]. unfold settle. rewrite Hatt. cbn [running with_state attemptsMade].
  destruct (Z.ltb_spec (attemptsMade j + 1) attempts); cbn [with_state attemptsMade job_state job_run_at].
  - repeat split; try reflexivity. intros _. unfold backoff.
    replace (attemptsMade j + 1 - 1) with (attemptsMade j) by lia. reflexivity.
  - repeat split; try reflexivity. intros; lia.
Qed.

End WorkerProperties.

Section WorkerEvaluation.
Import Types Runtime QueueService InventoryWorker Sample.

Lemma C3_every_failure_witness :
  exists j',
    find_job the_job (queue (fst (work the_job (accepted (-5))))) = Some j'
    /\ attemptsMade j' = 0 + 1
    /\ job_state j' = (if 0 + 1 <? attempts then delayed else failed)
    /\ (0 + 1 < attempts ->
        job_run_at j' = now (fst (work the_job (accepted (-5)))) + 2 ^ 0 * backoff_delay).
Proof.
  apply (C3_every_failure_goes_back_to_the_queue
           (accepted (-5)) (fst (work the_job (accepted (-5)))) the_job
           (new_job "process-inventory-update" (job_of (-5)) 0 the_job t0)
           (DatabaseError check_violation)).
  - vm_compute. reflexivity.
  - vm_compute. reflexivity.
  - vm_compute. reflexivity.
Defined.

(** C3 as stated fails: a job whose quantity is negative does not pass
    the canonical schema, and its upsert violates the [CHECK] constraint,
    a permanent storage error; the worker validates nothing, the error
    is rethrown, and after the first attempt the job is not failed but
    delayed for a retry two seconds later. *)
Lemma C3_permanent_failure_is_retried :
  snd (work the_job (accepted (-5))) = Some (inl (DatabaseError check_violation))
  /\ Taxonomy.kind_of (DatabaseError check_violation) = Some Taxonomy.PermanentStorage
  /\ Taxonomy.non_retriable (DatabaseError check_violation) = true
  /\ (forall datetime, InternalInventorySchema datetime (widget (-5)) = false)
  /\ state_of the_job (accepted (-5)) = Some (waiting, 0, t0)
  /\ state_of the_job (fst (work the_job (accepted (-5)))) = Some (delayed, 1, t0 + 2000).
Proof. vm_compute. repeat split; reflexivity. Qed.

End WorkerEvaluation.

(** ** Job ids BullMQ takes *)

Section CustomIds.
Import Types Runtime QueueService.

Lemma count_colons_app (a b : string) :
  count_colons (a +:+ b) = (count_colons a + count_colons b)%nat.
Proof.
  induction a as [|c a IH]; [reflexivity|].
  rewrite app_String. cbn [count_colons]. rewrite IH.
  destruct (JS.code c =? 58); reflexivity.
Qed.

Lemma uint_colon_free (d : Decimal.uint) :
  count_colons (NilEmpty.string_of_uint d) = 0%nat.
Proof. induction d; simpl; try exact IHd; reflexivity. Qed.

Lemma string_of_Z_colon_free (z : Z) : count_colons (JS.string_of_Z z) = 0%nat.
Proof.
  assert (HN : forall n, count_colons (JS.string_of_N n) = 0%nat).
  { intros n. unfold JS.string_of_N, NilZero.string_of_uint.
    destruct (N.to_uint n); try apply uint_colon_free; reflexivity. }
  unfold JS.string_of_Z. destruct (z <? 0); [|apply HN].
  cbn [count_colons]. change (JS.code "-" =? 58) with false. cbv iota. apply HN.
Qed.

(** The colons of a job id are those of the product id. *)
Lemma update_jobId_colons (inv : InternalInventory) (t : Z) :
  count_colons (update_jobId inv t) = count_colons (productId inv).
Proof.
  assert (Hs : forall s, count_colons (source_name s) = 0%nat)
    by (intros []; vm_compute; reflexivity).
  assert (Hd : count_colons "-" = 0%nat) by (vm_compute; reflexivity).
  unfold update_jobId. rewrite !count_colons_app, string_of_Z_colon_free, Hs, Hd. lia.
Qed.

Lemma batch_jobId_colons (inv : InternalInventory) (t : Z) (index : nat) :
  count_colons (batch_jobId inv t index) = count_colons (productId inv).
Proof.
  assert (Hd : count_colons "-" = 0%nat) by (vm_compute; reflexivity).
  unfold batch_jobId.
  rewrite !count_colons_app, string_of_Z_colon_free, update_jobId_colons, Hd. lia.
Qed.

(** An id that begins with the name of a source does not read as an
    integer. *)
Lemma source_prefix_not_integer (s : Source) (rest : string) :
  reads_as_integer (source_name s +:+ rest) = false.
Proof.
  unfold reads_as_integer, integer_of_id.
  destruct s; unfold source_name; rewrite app_String; reflexivity.
Qed.

Lemma update_jobId_ok (inv : InternalInventory) (t : Z) :
  count_colons (productId inv) = 0%nat -> custom_id_ok (update_jobId inv t) = true.
Proof.
  intros H. unfold custom_id_ok. rewrite update_jobId_colons, H.
  unfold update_jobId. rewrite ?app_assoc', source_prefix_not_integer. reflexivity.
Qed.

Lemma batch_jobId_ok (inv : InternalInventory) (t : Z) (index : nat) :
  count_colons (productId inv) = 0%nat -> custom_id_ok (batch_jobId inv t index) = true.
Proof.
  intros H. unfold custom_id_ok. rewrite batch_jobId_colons, H.
  unfold batch_jobId, update_jobId. rewrite ?app_assoc', source_prefix_not_integer.
  reflexivity.
Qed.

(** A batch of products without a colon gets ids BullMQ takes. *)
Lemma batch_ids_ok (clock : nat -> Z) (updates : list InventoryJobData) :
  (forall d, In d updates -> count_colons (productId (inventory d)) = 0%nat) ->
  forall k, forallb (fun job => custom_id_ok (snd job)) (batch_jobs clock k updates) = true.
Proof.
  induction updates as [|d updates IH]; intros H k; [reflexivity|].
  cbn [batch_jobs forallb snd]. rewrite batch_jobId_ok by (apply H; left; reflexivity).
  apply IH. intros d' Hd. apply H. right. exact Hd.
Qed.

End CustomIds.

(** ** The polling service *)

Section PollingProperties.
Import Types Runtime PollingService.

Ltac tidy_world :=
  cbn [env set_now set_db set_redis set_queue set_poller set_running set_failures
       now db redis queue poller isRunning consecutiveFailures reset_timers fst snd].





End PollingProperties.

Section PollingEvaluation.
Import Types Runtime PollingService Sample.



End PollingEvaluation.

(* ===================================================================== *)
(** * More of the code                                                   *)
(* ===================================================================== *)

(** ** The repository: what [upsert] writes *)

Section RepositoryWrites.
Import Types Runtime InventoryRepository Invariant InventoryQueries Order Sample Scenario.

Lemma upsert_inr inv w w' r :
  upsert inv w = (w', inr r) ->
  goes_through inv w /\ w' = committed inv w /\ r = returned inv w.
Proof.
  intros H. destruct (upsert_outcome inv w) as [[G Hok]|(w1 & e & Hfail & _)].
  - rewrite Hok in H. injection H as <- <-. auto.
  - rewrite Hfail in H. discriminate.
Qed.

Lemma upsert_inl inv w w' e :
  upsert inv w = (w', inl e) ->
  tables (db w') = tables (db w) /\ redis w' = redis w /\ queue w' = queue w
  /\ poller w' = poller w.
Proof.
  intros H. destruct (upsert_outcome inv w) as [[G Hok]|(w1 & e1 & Hfail & Ht & Hr & Hq & _ & Hp)].
  - rewrite Hok in H. discriminate.
  - rewrite Hfail in H. injection H as <- _. auto.
Qed.

(** X1: [upsert] commits exactly when PostgreSQL lets every statement
    through: no query fails, the values fit their columns and the
    quantity is not negative.  Otherwise it throws, and the tables,
    Redis and the queue are as they were before the call. *)
Theorem upsert_commits_or_changes_nothing inv w w' r :
  upsert inv w = (w', r) ->
  match r with
  | inr _ => goes_through inv w
  | inl _ => ~ goes_through inv w
             /\ tables (db w') = tables (db w)
             /\ redis w' = redis w /\ queue w' = queue w
  end.
Proof.
  intros H. destruct r as [e|r].
  - split.
    + intros G. rewrite (upsert_commits inv w G) in H. discriminate.
    + apply upsert_inl in H as (Ht & Hr & Hq & _). auto.
  - apply upsert_inr in H as [G _]. exact G.
Qed.

Lemma upsert_refused_witness :
  ~ goes_through (widget (-5)) w0
  /\ tables (db (once (widget (-5)) w0)) = tables (db w0)
  /\ redis (once (widget (-5)) w0) = redis w0
  /\ queue (once (widget (-5)) w0) = queue w0.
Proof.
  apply (upsert_commits_or_changes_nothing (widget (-5)) w0 (once (widget (-5)) w0)
           (inl (DatabaseError check_violation))).
  vm_compute. reflexivity.
Defined.

Lemma map_key_update_conflict inv rows :
  map row_key (update_conflict inv rows) = map row_key rows.
Proof.
  induction rows as [|x rows IH]; simpl; [reflexivity|].
  destruct (same_key _ _ x); simpl; [reflexivity | rewrite IH; reflexivity].
Qed.

Lemma existsb_key_In p s rows :
  existsb (same_key p s) rows = false -> ~ In (p, s) (map row_key rows).
Proof.
  induction rows as [|x rows IH]; simpl; [tauto|].
  intros H. apply orb_false_iff in H as [Hx Hr].
  intros [Heq|Hin]; [|exact (IH Hr Hin)].
  unfold row_key in Heq. injection Heq as Hp Hs.
  rewrite (same_key_refl p s x Hp Hs) in Hx. discriminate.
Qed.

Lemma insert_or_update_unique fresh started inv rows :
  unique_product_source rows ->
  unique_product_source (insert_or_update fresh started inv rows).
Proof.
  unfold unique_product_source, insert_or_update. intros H.
  destruct (existsb _ rows) eqn:E.
  - rewrite map_key_update_conflict. exact H.
  - rewrite map_app. simpl.
    pose proof (Add_app (row_key (inserted_row fresh started inv)) (map row_key rows) []) as HA.
    rewrite List.app_nil_r in HA. apply (NoDup_Add HA). split; [exact H|].
    apply existsb_key_In, E.
Qed.

Lemma insert_or_update_checked fresh started inv rows :
  0 <= quantity inv ->
  quantities_checked rows = true ->
  quantities_checked (insert_or_update fresh started inv rows) = true.
Proof.
  intros Hq. unfold quantities_checked, insert_or_update.
  destruct (existsb _ rows) eqn:E; clear E.
  - induction rows as [|x rows IH]; simpl; [reflexivity|].
    intros H. apply andb_prop in H as [Hx Hr].
    destruct (same_key _ _ x); simpl.
    + rewrite Hr. destruct (Z.leb_spec 0 (quantity inv)); [reflexivity | lia].
    + rewrite Hx. apply IH, Hr.
  - intros H. rewrite forallb_app, H. simpl.
    destruct (Z.leb_spec 0 (quantity inv)); [reflexivity | lia].
Qed.

(** X5: the two constraints of the [inventory] table are kept by
    [upsert], whatever its outcome: no two rows share product and
    source, and no quantity is negative. *)
Theorem upsert_keeps_constraints inv w w' r :
  unique_product_source (inventory_rows (tables (db w))) ->
  quantities_checked (inventory_rows (tables (db w))) = true ->
  upsert inv w = (w', r) ->
  unique_product_source (inventory_rows (tables (db w')))
  /\ quantities_checked (inventory_rows (tables (db w'))) = true.
Proof.
  intros Hu Hc H. destruct r as [e|r].
  - apply upsert_inl in H as [Ht _]. rewrite Ht. auto.
  - apply upsert_inr in H as ((_ & _ & Hq) & -> & _).
    cbn [committed db tables inventory_rows]. unfold rows_after. split.
    + apply insert_or_update_unique, Hu.
    + apply insert_or_update_checked; assumption.
Qed.

Lemma upsert_constraints_witness :
  unique_product_source (inventory_rows (tables (db (once (widget 50) w0))))
  /\ quantities_checked (inventory_rows (tables (db (once (widget 50) w0)))) = true.
Proof.
  apply (upsert_keeps_constraints (widget 50) w0 (once (widget 50) w0)
           (snd (upsert (widget 50) w0))).
  - constructor.
  - reflexivity.
  - unfold once. destruct (upsert (widget 50) w0). reflexivity.
Defined.


(* frame: other keys untouched *)
Lemma update_conflict_others inv rows :
  List.filter (fun r => negb (same_key (productId inv) (source inv) r)) (update_conflict inv rows)
  = List.filter (fun r => negb (same_key (productId inv) (source inv) r)) rows.
Proof.
  induction rows as [|x rows IH]; simpl; [reflexivity|].
  destruct (same_key _ _ x) eqn:E; simpl.
  - assert (Hk : same_key (productId inv) (source inv) (overwrite inv x) = true).
    { apply same_key_eq in E as [Hp Hs]. apply same_key_refl; assumption. }
    rewrite Hk. simpl. reflexivity.
  - rewrite E. simpl. rewrite IH. reflexivity.
Qed.

Lemma insert_or_update_others fresh started inv rows :
  List.filter (fun r => negb (same_key (productId inv) (source inv) r))
              (insert_or_update fresh started inv rows)
  = List.filter (fun r => negb (same_key (productId inv) (source inv) r)) rows.
Proof.
  unfold insert_or_update. destruct (existsb _ rows).
  - apply update_conflict_others.
  - rewrite List.filter_app. simpl.
    rewrite (same_key_refl (productId inv) (source inv) (inserted_row fresh started inv))
      by reflexivity.
    simpl. apply List.app_nil_r.
Qed.

(* the returned row *)
Lemma first_hit inv rows :
  existsb (same_key (productId inv) (source inv)) rows = true ->
  exists x, head (List.filter (same_key (productId inv) (source inv)) rows) = Some x
            /\ head (List.filter (same_key (productId inv) (source inv))
                                 (update_conflict inv rows))
               = Some (overwrite inv x).
Proof.
  induction rows as [|x rows IH]; simpl; [discriminate|].
  destruct (same_key _ _ x) eqn:E; simpl.
  - intros _. exists x.
    assert (Hk : same_key (productId inv) (source inv) (overwrite inv x) = true).
    { apply same_key_eq in E as [Hp Hs]. apply same_key_refl; assumption. }
    rewrite Hk. auto.
  - intros H. rewrite E. apply IH, H.
Qed.

Lemma returned_cases inv w :
  (exists x, head (List.filter (same_key (productId inv) (source inv))
                     (inventory_rows (tables (db w)))) = Some x
             /\ returned inv w = Some (overwrite inv x))
  \/ (List.filter (same_key (productId inv) (source inv))
                  (inventory_rows (tables (db w))) = []
      /\ returned inv w
         = Some (inserted_row (inventory_id_seq (db w) + 1) (started_at w) inv)).
Proof.
  unfold returned, rows_after, insert_or_update.
  destruct (existsb _ (inventory_rows (tables (db w)))) eqn:E.
  - left. apply first_hit, E.
  - right. destruct (update_conflict_miss inv _ E) as [_ Hnone].
    split; [exact Hnone|]. rewrite List.filter_app, Hnone. simpl.
    rewrite (same_key_refl (productId inv) (source inv)) by reflexivity. reflexivity.
Qed.

Lemma head_filter_In {A} (f : A -> bool) (l : list A) (x : A) :
  head (List.filter f l) = Some x -> In x l /\ f x = true.
Proof.
  intros H. assert (Hin : In x (List.filter f l)).
  { destruct (List.filter f l); simpl in H; [discriminate|]. injection H as ->. left. reflexivity. }
  apply filter_In in Hin. exact Hin.
Qed.

(** The row a committed [upsert] returns is in the table and carries the
    record. *)
Lemma upsert_returned_row inv w w' r :
  upsert inv w = (w', inr r) ->
  exists row,
    r = Some row
    /\ In row (inventory_rows (tables (db w')))
    /\ product_id row = productId inv
    /\ row_source row = source inv
    /\ row_quantity row = quantity inv
    /\ warehouse_id row = string_or_null (warehouseId inv)
    /\ updated_at row = updatedAt inv
    /\ row_metadata row = metadata inv.
Proof.
  intros H. apply upsert_inr in H as (_ & -> & ->).
  cbn [committed db tables inventory_rows].
  assert (Hin : forall row, returned inv w = Some row -> In row (rows_after inv w)).
  { intros row Hr. apply head_filter_In in Hr as [Hr _]. exact Hr. }
  destruct (returned_cases inv w) as [(x & Hx & Hret)|[Hnone Hret]].
  - exists (overwrite inv x). apply head_filter_In in Hx as [_ Hk].
    apply same_key_eq in Hk as [Hp Hs].
    repeat split; try assumption; try reflexivity. apply Hin, Hret.
  - eexists. repeat split; try exact Hret; try reflexivity. apply Hin, Hret.
Qed.

(** X2: a committed [upsert] returns the row of the record's product and
    source; the row is in the table and carries the record's quantity,
    warehouse, timestamp and metadata; the rows of every other product
    or source are as they were. *)
Theorem upsert_writes_the_record inv w w' r :
  upsert inv w = (w', inr r) ->
  exists row,
    r = Some row
    /\ In row (inventory_rows (tables (db w')))
    /\ product_id row = productId inv
    /\ row_source row = source inv
    /\ row_quantity row = quantity inv
    /\ warehouse_id row = string_or_null (warehouseId inv)
    /\ updated_at row = updatedAt inv
    /\ row_metadata row = metadata inv
    /\ List.filter (fun x => negb (same_key (productId inv) (source inv) x))
                   (inventory_rows (tables (db w')))
       = List.filter (fun x => negb (same_key (productId inv) (source inv) x))
                     (inventory_rows (tables (db w))).
Proof.
  intros H.
  destruct (upsert_returned_row inv w w' r H)
    as (row & Hr & Hin & Hp & Hs & Hq & Hw & Hu & Hm).
  exists row. repeat split; try assumption.
  apply upsert_inr in H as (_ & -> & _).
  cbn [committed db tables inventory_rows]. apply insert_or_update_others.
Qed.

Lemma upsert_writes_witness :
  exists row,
    returned (widget 50) w0 = Some row
    /\ In row (inventory_rows (tables (db (once (widget 50) w0))))
    /\ product_id row = "PROD-ABC-123"
    /\ row_source row = marketplace_a
    /\ row_quantity row = 50
    /\ warehouse_id row = Some "WH-NY-01"
    /\ updated_at row = "2026-01-01T10:00:00Z"
    /\ row_metadata row = None
    /\ List.filter (fun x => negb (same_key "PROD-ABC-123" marketplace_a x))
                   (inventory_rows (tables (db (once (widget 50) w0))))
       = List.filter (fun x => negb (same_key "PROD-ABC-123" marketplace_a x))
                     (inventory_rows (tables (db w0))).
Proof.
  apply (upsert_writes_the_record (widget 50) w0 (once (widget 50) w0)
           (returned (widget 50) w0)).
  vm_compute. reflexivity.
Defined.


(** X3: an update keeps the [id] and [created_at] of the row it
    overwrites; an insert takes the next value of the id sequence and
    the instant the transaction began. *)
Theorem upsert_keeps_id_and_created_at inv w w' row :
  upsert inv w = (w', inr (Some row)) ->
  match head (List.filter (same_key (productId inv) (source inv))
                (inventory_rows (tables (db w)))) with
  | Some old => id row = id old /\ created_at row = created_at old
  | None => id row = inventory_id_seq (db w) + 1 /\ created_at row = started_at w
  end.
Proof.
  intros H. apply upsert_inr in H as (_ & _ & Hret).
  destruct (returned_cases inv w) as [(x & Hx & Hret')|[Hnone Hret']];
    rewrite Hret' in Hret; injection Hret as ->.
  - rewrite Hx. split; reflexivity.
  - rewrite Hnone. split; reflexivity.
Qed.

Lemma upsert_keeps_id_witness :
  id restocked = 1 /\ created_at restocked = t0.
Proof.
  apply (upsert_keeps_id_and_created_at (widget 20) (once (widget 50) w0)
           (once (widget 20) (once (widget 50) w0)) restocked).
  vm_compute. reflexivity.
Defined.


(** The audit table after an [upsert]. *)
Lemma upsert_audit_rows inv w w' r :
  upsert inv w = (w', r) ->
  audit_rows (tables (db w'))
  = match r with
    | inl _ => audit_rows (tables (db w))
    | inr _ => audit_rows (tables (db w)) ++ [audit_after inv w]
    end.
Proof.
  intros H. destruct r as [e|r].
  - apply upsert_inl in H as [Ht _]. rewrite Ht. reflexivity.
  - apply upsert_inr in H as (_ & -> & _). reflexivity.
Qed.

(** X4: the audit table only grows, and by one row per committed
    [upsert]: a failed call leaves it as it was; a committed one appends
    one row with the record's product, source and quantity, whose
    [old_quantity] is the quantity of the row overwritten, or [NULL]
    when there was none or when that quantity was 0. *)
Theorem upsert_appends_one_audit_row inv w w' r :
  upsert inv w = (w', r) ->
  match r with
  | inl _ => audit_rows (tables (db w')) = audit_rows (tables (db w))
  | inr _ =>
      exists a,
        audit_rows (tables (db w')) = audit_rows (tables (db w)) ++ [a]
        /\ audit_product_id a = productId inv
        /\ audit_source a = source inv
        /\ new_quantity a = quantity inv
        /\ old_quantity a
           = match head (List.filter (same_key (productId inv) (source inv))
                           (inventory_rows (tables (db w)))) with
             | Some old => if row_quantity old =? 0 then None else Some (row_quantity old)
             | None => None
             end
  end.
Proof.
  intros H. rewrite (upsert_audit_rows inv w w' r H). destruct r as [e|r]; [reflexivity|].
  exists (audit_after inv w). repeat split.
  unfold audit_after, audit_entry, quantity_or_null. cbn [old_quantity].
  destruct (List.filter _ _); reflexivity.
Qed.

Lemma upsert_audit_witness :
  exists a,
    audit_rows (tables (db (once (widget 20) (once (widget 50) w0))))
    = audit_rows (tables (db (once (widget 50) w0))) ++ [a]
    /\ audit_product_id a = "PROD-ABC-123"
    /\ audit_source a = marketplace_a
    /\ new_quantity a = 20
    /\ old_quantity a = Some 50.
Proof.
  apply (upsert_appends_one_audit_row (widget 20) (once (widget 50) w0)
           (once (widget 20) (once (widget 50) w0)) (inr (Some restocked))).
  vm_compute. reflexivity.
Defined.



Lemma In_insert_by {A} (key : A -> Z) (x y : A) (l : list A) :
  In x (insert_by key y l) <-> x = y \/ In x l.
Proof.
  induction l as [|z l IH]; simpl; [intuition|].
  destruct (key y <=? key z); simpl; [intuition|].
  rewrite IH. intuition.
Qed.

Lemma In_order_by {A} (key : A -> Z) (x : A) (l : list A) :
  In x (order_by key l) <-> In x l.
Proof.
  induction l as [|y l IH]; simpl; [tauto|].
  rewrite In_insert_by, IH. intuition.
Qed.

Lemma length_insert_by {A} (key : A -> Z) (y : A) (l : list A) :
  List.length (insert_by key y l) = S (List.length l).
Proof.
  induction l as [|z l IH]; simpl; [reflexivity|].
  destruct (key y <=? key z); simpl; [reflexivity | rewrite IH; reflexivity].
Qed.

Lemma length_order_by {A} (key : A -> Z) (l : list A) :
  List.length (order_by key l) = List.length l.
Proof.
  induction l as [|y l IH]; simpl; [reflexivity|].
  rewrite length_insert_by, IH. reflexivity.
Qed.

Lemma ascending_cons (a : Z) (l : list Z) :
  ascending (a :: l) = true <->
  ascending l = true /\ match l with b :: _ => a <= b | [] => True end.
Proof.
  simpl. destruct l as [|b l]; [intuition|].
  rewrite andb_true_iff, Z.leb_le. intuition.
Qed.

Lemma ascending_insert_by {A} (key : A -> Z) (y : A) (l : list A) :
  ascending (map key l) = true -> ascending (map key (insert_by key y l)) = true.
Proof.
  induction l as [|z l IH]; [reflexivity|].
  intros H. cbn [insert_by]. destruct (Z.leb_spec (key y) (key z)).
  - cbn [map]. apply ascending_cons. split; [exact H | assumption].
  - cbn [map] in *. apply ascending_cons in H as [Hl Hz].
    apply ascending_cons. split; [apply IH, Hl|].
    destruct l as [|u l]; cbn [insert_by map].
    + lia.
    + destruct (key y <=? key u); cbn [map]; [lia | exact Hz].
Qed.

Lemma ascending_order_by {A} (key : A -> Z) (l : list A) :
  ascending (map key (order_by key l)) = true.
Proof.
  induction l as [|y l IH]; [reflexivity|].
  cbn [order_by fold_right]. apply ascending_insert_by. exact IH.
Qed.

Lemma NoDup_order_by {A} (key : A -> Z) (l : list A) :
  List.NoDup l -> List.NoDup (order_by key l).
Proof.
  induction l as [|y l IH]; intros H; [constructor|].
  inversion H as [|? ? Hy Hl]; subst. cbn [order_by fold_right].
  specialize (IH Hl). fold (order_by key l).
  assert (Hy' : ~ In y (order_by key l)) by (rewrite In_order_by; exact Hy).
  clear Hy Hl H. revert Hy' IH. generalize (order_by key l) as s. clear l.
  induction s as [|z s IHs]; intros Hy Hs; cbn [insert_by].
  - constructor; [tauto | constructor].
  - destruct (key y <=? key z).
    + constructor; assumption.
    + inversion Hs as [|? ? Hz Hs']; subst. constructor.
      * rewrite In_insert_by. intros [->|Hin]; [apply Hy; left; reflexivity | exact (Hz Hin)].
      * apply IHs; [|exact Hs']. intros Hin. apply Hy. right. exact Hin.
Qed.

Lemma pool_query_outcome w :
  (db_fault (env w) q_connect = None /\ db_fault (env w) q_select = None
   /\ pool_query w
      = (set_now (now w + latency (env w) io_db + latency (env w) io_db) w, inr tt))
  \/ (exists w' e, pool_query w = (w', inl (DatabaseError e))
        /\ (db_fault (env w) q_connect = Some e
            \/ db_fault (env w) q_select = Some e)
        /\ tables (db w') = tables (db w)).
Proof.
  unfold pool_query, query. cbv beta delta [bind elapse read update ret throw].
  cbn [env set_now now db].
  destruct (db_fault (env w) q_connect) as [e|] eqn:E0.
  { right. do 2 eexists. split; [reflexivity|]. cbn [db set_now]. auto. }
  cbn [env set_now now db].
  destruct (db_fault (env w) q_select) as [e|] eqn:E1.
  { right. do 2 eexists. split; [reflexivity|]. cbn [db set_now]. auto. }
  left. auto.
Qed.

Lemma getByProductId_inr p w w' rows :
  getByProductId p w = (w', inr rows) ->
  tables (db w') = tables (db w)
  /\ rows = order_by (fun r => source_rank (row_source r))
             (List.filter (fun r => String.eqb (product_id r) p)
                          (inventory_rows (tables (db w)))).
Proof.
  unfold getByProductId, bind, read.
  destruct (pool_query_outcome w) as [(_ & _ & ->)|(w1 & e & -> & _)]; [|discriminate].
  intros [= <- <-]. cbn [db set_now]. auto.
Qed.

(** X6: [getByProductId] reads and does not write: when it answers, the
    tables are as before, the answer holds exactly the rows of the
    table with that product id, and they come ordered by source. *)
Theorem getByProductId_answer p w w' rows :
  getByProductId p w = (w', inr rows) ->
  tables (db w') = tables (db w)
  /\ (forall r, In r rows <-> In r (inventory_rows (tables (db w))) /\ product_id r = p)
  /\ ascending (map (fun r => source_rank (row_source r)) rows) = true.
Proof.
  intros H. apply getByProductId_inr in H as [Ht ->]. split; [exact Ht|]. split.
  - intros r. rewrite In_order_by, filter_In, String.eqb_eq. reflexivity.
  - apply ascending_order_by.
Qed.

Lemma getByProductId_witness :
  tables (db (fst (getByProductId "PROD-ABC-123" (once (widget 50) w0))))
  = tables (db (once (widget 50) w0))
  /\ (forall r, In r (answered "PROD-ABC-123" (once (widget 50) w0))
        <-> In r (inventory_rows (tables (db (once (widget 50) w0))))
            /\ product_id r = "PROD-ABC-123")
  /\ ascending (map (fun r => source_rank (row_source r))
                    (answered "PROD-ABC-123" (once (widget 50) w0)))
     = true.
Proof.
  apply (getByProductId_answer "PROD-ABC-123" (once (widget 50) w0)).
  vm_compute. reflexivity.
Defined.


Lemma map_insert_by {A B} (f : A -> B) (k : B -> Z) (y : A) (l : list A) :
  map f (insert_by (fun x => k (f x)) y l) = insert_by k (f y) (map f l).
Proof.
  induction l as [|z l IH]; [reflexivity|].
  cbn [insert_by map]. destruct (k (f y) <=? k (f z)); cbn [map]; [reflexivity|].
  rewrite IH. reflexivity.
Qed.

Lemma map_order_by {A B} (f : A -> B) (k : B -> Z) (l : list A) :
  map f (order_by (fun x => k (f x)) l) = order_by k (map f l).
Proof.
  induction l as [|y l IH]; [reflexivity|].
  cbn [order_by fold_right map]. fold (order_by (fun x => k (f x)) l).
  fold (order_by k (map f l)). rewrite map_insert_by, IH. reflexivity.
Qed.

Lemma NoDup_sources_of_product p rows :
  unique_product_source rows ->
  List.NoDup (map row_source (List.filter (fun r => String.eqb (product_id r) p) rows)).
Proof.
  unfold unique_product_source. induction rows as [|x rows IH]; intros H; simpl; [constructor|].
  inversion H as [|? ? Hx Hr]; subst. specialize (IH Hr).
  destruct (String.eqb (product_id x) p) eqn:E; [|exact IH].
  simpl. constructor; [|exact IH].
  intros Hin. apply in_map_iff in Hin as (y & Hs & Hy).
  apply filter_In in Hy as [Hy Hp]. apply String.eqb_eq in E, Hp.
  apply Hx. apply in_map_iff. exists y. split; [|exact Hy].
  unfold row_key. rewrite Hs, Hp, E. reflexivity.
Qed.

Lemma two_sources (l : list Source) : List.NoDup l -> (List.length l <= 2)%nat.
Proof.
  intros H. destruct l as [|a [|b [|c l]]]; simpl; try lia.
  exfalso. inversion H as [|? ? Ha H1]; subst. inversion H1 as [|? ? Hb H2]; subst.
  simpl in Ha, Hb. destruct a, b, c; tauto.
Qed.

(** X7: on a table that keeps the uniqueness constraint,
    [getByProductId] answers at most one row per source, so at most two
    rows. *)
Theorem getByProductId_one_row_per_source p w w' rows :
  unique_product_source (inventory_rows (tables (db w))) ->
  getByProductId p w = (w', inr rows) ->
  List.NoDup (map row_source rows) /\ (List.length rows <= 2)%nat.
Proof.
  intros Hu H. apply getByProductId_inr in H as [_ ->].
  assert (Hn : List.NoDup
    (map row_source
       (order_by (fun r => source_rank (row_source r))
          (List.filter (fun r => String.eqb (product_id r) p)
             (inventory_rows (tables (db w))))))).
  { rewrite (map_order_by row_source source_rank). apply NoDup_order_by.
    apply NoDup_sources_of_product, Hu. }
  split; [exact Hn|]. rewrite <- (length_map row_source). apply two_sources, Hn.
Qed.

Lemma getByProductId_sources_witness :
  List.NoDup (map row_source (answered "PROD-ABC-123" (once (widget 50) w0)))
  /\ (List.length (answered "PROD-ABC-123" (once (widget 50) w0)) <= 2)%nat.
Proof.
  apply (getByProductId_one_row_per_source "PROD-ABC-123" (once (widget 50) w0)
           (fst (getByProductId "PROD-ABC-123" (once (widget 50) w0)))).
  - vm_compute. constructor; [simpl; tauto | constructor].
  - vm_compute. reflexivity.
Defined.


(** X8: what [upsert] wrote, [getByProductId] reads back: the row a
    committed [upsert] returned is among the rows answered for the
    record's product, with the record's quantity and source. *)
Theorem upsert_then_getByProductId inv w w1 w2 row rows :
  upsert inv w = (w1, inr (Some row)) ->
  getByProductId (productId inv) w1 = (w2, inr rows) ->
  In row rows /\ row_quantity row = quantity inv /\ row_source row = source inv.
Proof.
  intros Hup Hget.
  apply upsert_returned_row in Hup as (row' & Heq & Hin & Hp & Hs & Hq & _).
  injection Heq as <-.
  apply getByProductId_inr in Hget as (_ & ->).
  split; [|auto]. apply In_order_by, filter_In. split; [exact Hin|].
  apply String.eqb_eq, Hp.
Qed.

Lemma upsert_then_get_witness :
  In restocked (answered "PROD-ABC-123" (once (widget 20) (once (widget 50) w0)))
  /\ row_quantity restocked = 20 /\ row_source restocked = marketplace_a.
Proof.
  apply (upsert_then_getByProductId (widget 20) (once (widget 50) w0)
           (once (widget 20) (once (widget 50) w0))
           (fst (getByProductId "PROD-ABC-123" (once (widget 20) (once (widget 50) w0))))).
  - vm_compute. reflexivity.
  - vm_compute. reflexivity.
Defined.


Lemma In_firstn {A} (n : nat) (l : list A) (x : A) : In x (firstn n l) -> In x l.
Proof.
  intros H. rewrite <- (firstn_skipn n l). apply in_or_app. left. exact H.
Qed.

(** X9: [getAuditHistory] reads and does not write: when it answers,
    the tables are as before, the answer has at most [limit] rows, all
    of them audit rows of that product, newest first; when the product
    has no more than [limit] audit rows, all of them are answered. *)
Theorem getAuditHistory_answer p limit w w' rows :
  getAuditHistory p limit w = (w', inr rows) ->
  tables (db w') = tables (db w)
  /\ (List.length rows <= limit)%nat
  /\ (forall a, In a rows -> In a (audit_rows (tables (db w))) /\ audit_product_id a = p)
  /\ ascending (map (fun a => - changed_at a) rows) = true
  /\ ((List.length (List.filter (fun a => String.eqb (audit_product_id a) p)
                                (audit_rows (tables (db w)))) <= limit)%nat ->
      forall a, In a (audit_rows (tables (db w))) -> audit_product_id a = p -> In a rows).
Proof.
  unfold getAuditHistory, bind, read.
  destruct (pool_query_outcome w) as [(_ & _ & ->)|(w1 & e & -> & _)]; [|discriminate].
  intros [= <- <-]. cbn [db set_now].
  set (hits := List.filter (fun a => String.eqb (audit_product_id a) p)
                           (audit_rows (tables (db w)))).
  split; [reflexivity|]. split; [apply firstn_le_length|]. split; [|split].
  - intros a Ha. apply In_firstn in Ha. apply In_order_by in Ha.
    apply filter_In in Ha as [Ha Hp]. apply String.eqb_eq in Hp. auto.
  - pose proof (ascending_order_by (fun a => - changed_at a) hits) as Hs.
    revert Hs. generalize (order_by (fun a => - changed_at a) hits) as s.
    clear. revert limit. intros limit s. revert limit.
    induction s as [|x s IH]; intros [|n] Hs; try reflexivity.
    cbn [firstn map] in *. apply ascending_cons in Hs as [Hs Hx].
    apply ascending_cons. split; [apply IH, Hs|].
    destruct s as [|y s]; destruct n; cbn [firstn map]; auto.
  - intros Hlen a Ha Hp. rewrite firstn_all2.
    + apply In_order_by, filter_In. split; [exact Ha|]. apply String.eqb_eq, Hp.
    + rewrite length_order_by. exact Hlen.
Qed.

Lemma getAuditHistory_witness :
  tables (db (fst (getAuditHistory "PROD-ABC-123" 1 (twice (widget 50) w0))))
  = tables (db (twice (widget 50) w0))
  /\ (List.length (history "PROD-ABC-123" 1 (twice (widget 50) w0)) <= 1)%nat
  /\ (forall a, In a (history "PROD-ABC-123" 1 (twice (widget 50) w0)) ->
        In a (audit_rows (tables (db (twice (widget 50) w0))))
        /\ audit_product_id a = "PROD-ABC-123")
  /\ ascending (map (fun a => - changed_at a)
                    (history "PROD-ABC-123" 1 (twice (widget 50) w0))) = true
  /\ ((List.length
         (List.filter (fun a => String.eqb (audit_product_id a) "PROD-ABC-123")
                      (audit_rows (tables (db (twice (widget 50) w0))))) <= 1)%nat ->
      forall a, In a (audit_rows (tables (db (twice (widget 50) w0)))) ->
                audit_product_id a = "PROD-ABC-123" ->
                In a (history "PROD-ABC-123" 1 (twice (widget 50) w0))).
Proof.
  apply (getAuditHistory_answer "PROD-ABC-123" 1 (twice (widget 50) w0)).
  vm_compute. reflexivity.
Defined.




End RepositoryWrites.

(** ** The adapters *)

Section AdapterMore.
Import Types.

(** X11: adapter A accepts an object exactly when [product_code] and
    [timestamp] hold strings, [available_stock] holds an integer that is
    not beyond [Number.MAX_SAFE_INTEGER] on either side, and [warehouse]
    and [metadata], if present, hold a string and an object; it then
    copies these five values and sets the source.  A number with a
    fraction is not accepted, and no other key of the payload is looked
    at. *)
Theorem transformA_reads_five_keys (o : JS.object) (r : InternalInventory) :
  MarketplaceAAdapter.transform (JS.JObj o) = inr r
  <-> exists pc st ts,
        JS.get "product_code" o = Some (JS.JStr pc)
        /\ JS.get "available_stock" o = Some (JS.JNum st)
        /\ Z.abs st <= JS.MAX_SAFE_INTEGER
        /\ JS.get "timestamp" o = Some (JS.JStr ts)
        /\ z_optional z_string (JS.get "warehouse" o) = Some (warehouseId r)
        /\ z_optional z_record (JS.get "metadata" o) = Some (metadata r)
        /\ productId r = pc /\ quantity r = st /\ updatedAt r = ts
        /\ source r = marketplace_a.
Proof.
  unfold MarketplaceAAdapter.transform, MarketplaceAPayloadSchema, and_then, field.
  split.
  - destruct (JS.get "product_code" o) as [[]|]; cbn [z_string]; try discriminate.
    destruct (JS.get "available_stock" o) as [[| |st| | | |]|]; cbn [z_number_int];
      try discriminate.
    destruct (Z.leb_spec (Z.abs st) JS.MAX_SAFE_INTEGER) as [Hsafe|]; [|discriminate].
    destruct (JS.get "timestamp" o) as [[]|]; cbn [z_string]; try discriminate.
    destruct (z_optional z_string _) as [wh|]; try discriminate.
    destruct (z_optional z_record _) as [md|]; try discriminate.
    intros [= <-]. do 3 eexists. cbn. repeat split; try reflexivity. exact Hsafe.
  - intros (pc & st & ts & -> & -> & Hsafe & -> & -> & -> & Hp & Hq & Hu & Hs).
    cbn [z_string z_number_int].
    destruct (Z.leb_spec (Z.abs st) JS.MAX_SAFE_INTEGER) as [_|]; [|lia].
    destruct r; cbn in *; subst; reflexivity.
Qed.

Lemma transformBatch_app (a b : list JS.value) :
  MarketplaceBAdapter.transformBatch (a ++ b)
  = (MarketplaceBAdapter.transformBatch a ++ MarketplaceBAdapter.transformBatch b)%list.
Proof. unfold MarketplaceBAdapter.transformBatch. apply flat_map_app. Qed.

(** X12: [transformBatch] never throws: it answers the transforms of the
    items adapter B accepts, in their order, and drops the others; the
    answer is never longer than the input. *)
Theorem transformBatch_keeps_the_valid_items (payloads : list JS.value) :
  MarketplaceBAdapter.transformBatch payloads
  = omap (fun p => match MarketplaceBAdapter.transform p with
                   | inr item => Some item
                   | inl _ => None
                   end) payloads
  /\ (List.length (MarketplaceBAdapter.transformBatch payloads) <= List.length payloads)%nat
  /\ (forall r, In r (MarketplaceBAdapter.transformBatch payloads)
        <-> exists p, In p payloads /\ MarketplaceBAdapter.transform p = inr r).
Proof.
  induction payloads as [|p l (IH1 & IH2 & IH3)].
  - split; [reflexivity|]. split; [reflexivity|].
    intros r. split; [intros []|intros (p & [] & _)].
  - unfold MarketplaceBAdapter.transformBatch in *. cbn [flat_map omap list_omap].
    destruct (MarketplaceBAdapter.transform p) as [e|item] eqn:E.
    + cbn [app]. split; [exact IH1|]. split; [cbn [List.length]; lia|].
      intros r. rewrite IH3. split.
      * intros (q & Hq & Hr). exists q. split; [right; exact Hq | exact Hr].
      * intros (q & [<-|Hq] & Hr); [congruence|]. exists q. auto.
    + cbn [app]. split; [f_equal; exact IH1|]. split; [cbn [List.length]; lia|].
      intros r. cbn [In]. rewrite IH3. split.
      * intros [<-|(q & Hq & Hr)]; [exists p; split; [left; reflexivity | exact E]|].
        exists q. split; [right; exact Hq | exact Hr].
      * intros (q & [<-|Hq] & Hr); [left; congruence|]. right. exists q. auto.
Qed.

End AdapterMore.

(** ** The webhook handler *)

Section HandlerMore.
Import Types Runtime Sample Scenario Signed QueueService WebhookController.

Ltac tidy_world :=
  cbn [env set_now set_db set_redis set_queue set_poller
       now db redis queue poller fst snd].

(** X13: [validateSignature] on every header: a header of 64 characters
    is accepted exactly when it is the hexadecimal HMAC-SHA256 of the
    payload under the secret; on a header of any other length the
    comparison throws. *)
Theorem validateSignature_decides (env_secret : option string) (payload signature : string) :
  MarketplaceAAdapter.validateSignature env_secret payload signature
  = if (String.length signature =? 64)%nat
    then inr (String.eqb signature
                (JS.createHmac_sha256_hex (MarketplaceAAdapter.secret_of env_secret) payload))
    else inl (RangeError timing_safe_equal_length).
Proof.
  destruct (Nat.eqb_spec (String.length signature) 64) as [Hlen|Hlen].
  - destruct (String.eqb_spec signature
                (JS.createHmac_sha256_hex (MarketplaceAAdapter.secret_of env_secret) payload))
      as [->|Hne].
    + apply validateSignature_match.
    + apply validateSignature_mismatch; assumption.
  - apply validateSignature_wrong_length. assumption.
Qed.

(** X14: a request whose signature header is not the expected digest
    changes nothing: no job is enqueued, neither the database nor Redis
    is touched, and the answer is 401, or 500 when the header is not
    empty and not 64 characters long. *)
Theorem unsigned_request_changes_nothing (body : JS.value) (signature : option string)
    (w : World) :
  signature <> Some (expected_signature body w) ->
  exists resp,
    handleMarketplaceA body signature w = (w, inr resp)
    /\ (resp = invalid_signature \/ resp = failed_to_process)
    /\ (resp = failed_to_process
        <-> exists s, signature = Some s /\ s <> EmptyString
                      /\ String.length s <> 64%nat).
Proof.
  intros Hne.
  destruct (falsy signature) eqn:Hf.
  { rewrite handle_missing_signature by assumption.
    exists invalid_signature. split; [reflexivity|]. split; [auto|].
    split; [discriminate|]. intros (s & -> & Hs & _). destruct s; [contradiction|discriminate]. }
  destruct signature as [s|]; [|discriminate].
  assert (Hs : s <> EmptyString) by (intros ->; discriminate).
  destruct (Nat.eq_dec (String.length s) 64%nat) as [Hlen|Hlen].
  - rewrite handle_mismatch; [|assumption|intros ->; apply Hne; reflexivity].
    exists invalid_signature. split; [reflexivity|]. split; [auto|].
    split; [discriminate|]. intros (s' & [= <-] & _ & H). contradiction.
  - rewrite handle_wrong_length by assumption.
    exists failed_to_process. split; [reflexivity|]. split; [auto|].
    split; [|reflexivity]. intros _. exists s. auto.
Qed.

Lemma unsigned_request_witness :
  exists resp,
    handleMarketplaceA (JS.JObj []) (Some "deadbeef") w0 = (w0, inr resp)
    /\ (resp = invalid_signature \/ resp = failed_to_process)
    /\ (resp = failed_to_process
        <-> exists s, Some "deadbeef" = Some s /\ s <> EmptyString
                      /\ String.length s <> 64%nat).
Proof.
  apply (unsigned_request_changes_nothing (JS.JObj []) (Some "deadbeef") w0).
  vm_compute. discriminate.
Defined.

(** What [processUpdate] does to the queue. *)
Lemma processUpdate_outcome (inv : InternalInventory) (w : World) :
  let t := now w + latency (env w) io_queue in
  let jobId := update_jobId inv (now w) in
  let data := {| inventory := inv; retryCount := Some 0 |} in
  InventoryService.processUpdate inv w
  = if negb (custom_id_ok jobId) then (w, inl CustomIdError)
    else if queue_fault (env w) then (set_now t w, inl RedisError)
    else (set_queue (fst (store "process-inventory-update" data 0 jobId t (queue w)))
            (set_now t w),
          inr (job_id (snd (store "process-inventory-update" data 0 jobId t (queue w))))).
Proof.
  unfold InventoryService.processUpdate, addInventoryUpdate, queue_add, try_catch.
  cbv beta delta [bind elapse read update ret throw]. tidy_world.
  destruct (negb (custom_id_ok _)); [reflexivity|].
  cbv beta delta [bind elapse read update ret throw]. tidy_world.
  destruct (queue_fault (env w)); reflexivity.
Qed.

Lemma store_job_id (name : string) (data : InventoryJobData) (priority : Z)
    (jobId : string) (t : Z) (q : list Job) :
  job_id (snd (store name data priority jobId t q)) = jobId.
Proof.
  unfold store. destruct (find_job jobId q) as [j|] eqn:E; cbn [snd].
  - apply (find_job_id _ _ _ E).
  - reflexivity.
Qed.

(** X15: a request with the expected signature whose body adapter A
    accepts, with a product code that holds no colon (BullMQ refuses a
    job id with one), is answered 202 with the job id
    [source-productId-Date.now()] while the queue can be reached; the
    job is appended to the queue, unless a job of that id is there
    already, in which case the queue stays as it is. *)
Theorem signed_request_is_queued (body : JS.value) (inv : InternalInventory) (w : World) :
  MarketplaceAAdapter.transform body = inr inv ->
  count_colons (productId inv) = 0%nat ->
  queue_fault (env w) = false ->
  let t := now w + latency (env w) io_queue in
  let jobId := update_jobId inv (now w) in
  exists w',
    handleMarketplaceA body (Some (expected_signature body w)) w
    = (w', inr (queued jobId (productId inv)))
    /\ queue w'
       = match find_job jobId (queue w) with
         | Some _ => queue w
         | None =>
             queue w ++ [new_job "process-inventory-update"
                           {| inventory := inv; retryCount := Some 0 |} 0 jobId t]
         end
    /\ db w' = db w /\ redis w' = redis w.
Proof.
  intros Ht Hid Hq t jobId. unfold expected_signature. rewrite handle_match.
  unfold try_catch, bind at 1, lift. rewrite Ht.
  unfold bind at 1. rewrite processUpdate_outcome, (update_jobId_ok inv (now w) Hid), Hq.
  cbn [negb].
  fold t jobId. rewrite store_job_id.
  eexists. split; [reflexivity|]. tidy_world. split; [|auto].
  unfold store. destruct (find_job jobId (queue w)); reflexivity.
Qed.

Lemma signed_request_witness :
  exists w',
    handleMarketplaceA widget_body (Some (expected_signature widget_body w0)) w0
    = (w', inr (queued the_job "PROD-ABC-123"))
    /\ queue w' = [new_job "process-inventory-update" (job_of 50) 0 the_job t0]
    /\ db w' = db w0 /\ redis w' = redis w0.
Proof.
  apply (signed_request_is_queued widget_body (widget 50) w0).
  - reflexivity.
  - reflexivity.
  - reflexivity.
Defined.

(** X16: a request with the expected signature is answered 500, and
    nothing is enqueued, when adapter A rejects the body or when the
    queue cannot be reached. *)
Theorem signed_request_refused (body : JS.value) (w : World) :
  (exists e, MarketplaceAAdapter.transform body = inl e) \/ queue_fault (env w) = true ->
  exists w',
    handleMarketplaceA body (Some (expected_signature body w)) w
    = (w', inr failed_to_process)
    /\ queue w' = queue w /\ db w' = db w /\ redis w' = redis w.
Proof.
  intros H. unfold expected_signature. rewrite handle_match.
  unfold try_catch, bind at 1, lift.
  destruct (MarketplaceAAdapter.transform body) as [e|inv] eqn:Ht.
  - exists w. auto.
  - destruct H as [[e He]|Hq]; [discriminate|].
    unfold bind at 1. rewrite processUpdate_outcome, Hq.
    destruct (negb (custom_id_ok _)); (eexists; split; [reflexivity|]); tidy_world; auto.
Qed.

Lemma signed_request_refused_witness :
  exists w',
    handleMarketplaceA (JS.JObj []) (Some (expected_signature (JS.JObj []) w0)) w0
    = (w', inr failed_to_process)
    /\ queue w' = queue w0 /\ db w' = db w0 /\ redis w' = redis w0.
Proof.
  apply (signed_request_refused (JS.JObj []) w0).
  left. exists (InvalidMarketplaceAPayload (zod (Issue "product_code"))). reflexivity.
Defined.

End HandlerMore.

(** ** The queue *)

Section QueueMore.
Import Types Runtime Sample Scenario Signed QueueService.

Ltac tidy_world :=
  cbn [env set_now set_db set_redis set_queue set_poller
       now db redis queue poller fst snd].

Lemma find_job_app (x : string) (q q' : list Job) :
  find_job x (q ++ q')
  = match find_job x q with
    | Some j => Some j
    | None => find_job x q'
    end.
Proof.
  unfold find_job. induction q as [|y q IH]; cbn [app find]; [reflexivity|].
  destruct (String.eqb (job_id y) x); [reflexivity | exact IH].
Qed.

Lemma addBulk_fresh (t : Z) (jobs : list (string * InventoryJobData * string)) :
  forall q,
  List.NoDup (job_ids jobs) ->
  (forall x, In x (job_ids jobs) -> find_job x q = None) ->
  fold_left (fun q job => let '(name, data, jobId) := job in
                          fst (store name data 0 jobId t q)) jobs q
  = (q ++ map (bulk_job t) jobs)%list.
Proof.
  induction jobs as [|[[name data] jobId] jobs IH]; intros q Hnd Hfresh.
  - cbn. rewrite List.app_nil_r. reflexivity.
  - cbn [fold_left map]. unfold store at 2.
    rewrite (Hfresh jobId) by (left; reflexivity). cbn [fst].
    cbn [job_ids map snd] in Hnd. apply NoDup_cons_iff in Hnd as [Hnotin Hnd].
    rewrite IH.
    + rewrite <- List.app_assoc. reflexivity.
    + exact Hnd.
    + intros x Hx. rewrite find_job_app.
      rewrite (Hfresh x) by (right; exact Hx).
      unfold find_job. cbn [find new_job job_id].
      destruct (String.eqb_spec jobId x) as [->|]; [contradiction | reflexivity].
Qed.

(** X17: [addBatch] of updates whose product ids hold no colon (BullMQ
    refuses a job id with one, and with it the whole batch), on a queue
    that can be reached and holds none of the batch's ids, appends one
    job per update, in the order of the batch, each with the update as
    its data; the ids of one batch never collide with each other.
    Neither the database nor Redis is touched. *)
Theorem addBatch_enqueues_every_update (updates : list InventoryJobData) (w : World) :
  (forall d, In d updates -> count_colons (productId (inventory d)) = 0%nat) ->
  queue_fault (env w) = false ->
  (forall x, In x (job_ids (batch_jobs (fun _ => now w) 0 updates)) ->
             find_job x (queue w) = None) ->
  exists w',
    addBatch updates w = (w', inr tt)
    /\ queue w'
       = (queue w ++ map (bulk_job (now w + latency (env w) io_queue))
                       (batch_jobs (fun _ => now w) 0 updates))%list
    /\ map (fun j => inventory (job_data j)) (queue w')
       = (map (fun j => inventory (job_data j)) (queue w) ++ map inventory updates)%list
    /\ db w' = db w /\ redis w' = redis w.
Proof.
  intros Hids Hq Hfresh. unfold addBatch, queue_addBulk, try_catch.
  cbv beta delta [bind elapse read update ret throw]. tidy_world.
  rewrite (batch_ids_ok _ updates Hids). cbn [negb].
  cbv beta delta [bind elapse read update ret throw]. tidy_world. rewrite Hq.
  eexists. split; [reflexivity|]. tidy_world.
  rewrite addBulk_fresh by (first [apply batch_ids_NoDup | exact Hfresh]).
  split; [reflexivity|]. split; [|auto].
  rewrite map_app. f_equal. clear Hfresh Hids.
  generalize 0%nat. induction updates as [|d l IH]; intros k; [reflexivity|].
  cbn [batch_jobs map bulk_job new_job job_data]. f_equal. apply IH.
Qed.

Lemma addBatch_witness :
  exists w',
    addBatch [job_of 10; job_of 20] w0 = (w', inr tt)
    /\ queue w'
       = (queue w0 ++ map (bulk_job (now w0 + latency (env w0) io_queue))
                        (batch_jobs (fun _ => now w0) 0 [job_of 10; job_of 20]))%list
    /\ map (fun j => inventory (job_data j)) (queue w')
       = (map (fun j => inventory (job_data j)) (queue w0)
          ++ map inventory [job_of 10; job_of 20])%list
    /\ db w' = db w0 /\ redis w' = redis w0.
Proof.
  apply (addBatch_enqueues_every_update [job_of 10; job_of 20] w0).
  - intros d [<-|[<-|[]]]; reflexivity.
  - reflexivity.
  - intros x _. reflexivity.
Defined.

End QueueMore.

(** ** The lock service and [executeUpdate] *)

Section LockMore.
Import Types Runtime LockService Held Sample Scenario.

Ltac tidy_world :=
  cbn [env set_now set_db set_redis set_queue set_poller
       now db redis queue poller fst snd].

Lemma lookup_live (key : string) (e : Entry) (w : World) :
  redis w !! key = Some e -> live (now w) e = true ->
  redis_lookup key w = Some (entry_value e).
Proof. intros Hk Hl. unfold redis_lookup. rewrite Hk, Hl. reflexivity. Qed.

(** While the key stays live, no attempt of redlock gets it. *)
Lemma redlock_acquire_held (key : string) (ttl_ : Z) (e : Entry) (bound slack : Z)
    (tries : nat) :
  forall (attempt : nat) (w : World),
  redis w !! key = Some e ->
  (forall t, t <= bound -> live t e = true) ->
  0 <= latency (env w) io_lock ->
  (forall n, Z.max 0 (redlock_retryDelay + retry_jitter (env w) n) <= slack) ->
  now w + (Z.of_nat tries + 1) * latency (env w) io_lock + Z.of_nat tries * slack <= bound ->
  exists w',
    redlock_acquire tries attempt key ttl_ w = (w', inl ExecutionError)
    /\ redis w' = redis w /\ db w' = db w /\ queue w' = queue w /\ poller w' = poller w
    /\ env w' = env w /\ now w <= now w' <= bound.
Proof.
  induction tries as [|n IH]; intros attempt w Hk Hlive Hlat Hslack Hbound.
  - cbn [redlock_acquire]. cbv beta delta [bind elapse read update ret throw]. tidy_world.
    rewrite (lookup_live key e) by (tidy_world; first [assumption | apply Hlive; lia]).
    rewrite bool_decide_eq_true_2 by eauto. rewrite orb_true_r.
    eexists. split; [reflexivity|]. tidy_world. repeat split; lia.
  - pose proof (Hslack attempt) as Hs.
    pose proof (Z.le_max_l 0 (redlock_retryDelay + retry_jitter (env w) attempt)) as Hs0.
    rewrite Nat2Z.inj_succ in Hbound.
    assert (Hn : 0 <= Z.of_nat n) by lia.
    cbn [redlock_acquire]. cbv beta delta [bind elapse read update ret throw]. tidy_world.
    rewrite (lookup_live key e) by (tidy_world; first [assumption | apply Hlive; nia]).
    rewrite bool_decide_eq_true_2 by eauto. rewrite orb_true_r.
    match goal with |- context [redlock_acquire n _ _ _ ?x] => set (w1 := x) end.
    destruct (IH (S attempt) w1) as (w' & -> & H1 & H2 & H3 & H4 & H5 & H6);
      subst w1; tidy_world; try assumption; [nia|].
    exists w'. split; [reflexivity|]. revert H6. tidy_world.
    repeat split; try assumption; lia.
Qed.

Lemma acquireLock_free (productId : string) (options : PartialLockOptions) (w : World) :
  redis_lookup (lockKey productId) (set_now (now w + latency (env w) io_lock) w) = None ->
  lock_fault (env w) = false ->
  acquireLock productId options w
  = (locked productId options w, inr (lock_of productId options w)).
Proof.
  intros Hfree Hfault. unfold acquireLock, try_catch.
  change (Z.to_nat retryCount) with 5%nat. cbn [redlock_acquire].
  cbv beta delta [bind elapse read update ret throw]. tidy_world.
  rewrite Hfree, Hfault. rewrite bool_decide_eq_false_2 by (intros [? ?]; discriminate).
  reflexivity.
Qed.

Lemma releaseLock_held (lock : Lock) (w : World) :
  release_fault (env w) = false ->
  redis w !! resource lock
  = Some {| entry_value := lock_value lock; entry_expires := Some (expiration lock) |} ->
  now w + latency (env w) io_lock < expiration lock ->
  releaseLock lock w
  = (set_redis (delete (resource lock) (redis w))
       (set_now (now w + latency (env w) io_lock) w), inr tt).
Proof.
  intros Hfault Hk Hlive. unfold releaseLock, lock_release, try_catch.
  cbv beta delta [bind elapse read update ret throw]. tidy_world.
  rewrite Hfault.
  rewrite (lookup_live (resource lock)
             {| entry_value := lock_value lock; entry_expires := Some (expiration lock) |}
             (set_now (now w + latency (env w) io_lock) w))
    by (first [exact Hk
              | unfold live; tidy_world; cbn [entry_expires]; apply Z.ltb_lt; assumption]).
  cbn [entry_value]. rewrite String.eqb_refl. reflexivity.
Qed.

(** What [releaseLock] leaves alone, whatever becomes of the key. *)
Lemma releaseLock_frame (lock : Lock) (w : World) :
  exists w', releaseLock lock w = (w', inr tt)
             /\ db w' = db w /\ queue w' = queue w /\ poller w' = poller w
             /\ env w' = env w.
Proof.
  unfold releaseLock, lock_release, try_catch.
  cbv beta delta [bind elapse read update ret throw]. tidy_world.
  destruct (release_fault (env w)); [eexists; split; [reflexivity|]; tidy_world; auto|].
  destruct (redis_lookup _ _) as [v|]; [|eexists; split; [reflexivity|]; tidy_world; auto].
  destruct (String.eqb v (lock_value lock));
    eexists; (split; [reflexivity|]); tidy_world; auto.
Qed.

(** X18: while another holder's key stays live through the whole of
    redlock's retry window (six attempts, five waits of at most 300 ms),
    [withLock] throws [Unable to acquire lock] and does not run [fn]:
    Redis, the database and the queue are as they were.  The [retries]
    and [retryDelay] of the options play no part. *)
Theorem withLock_refuses_while_held {T : Type} (productId : string) (fn : M T)
    (options : PartialLockOptions) (w : World) (e : Entry) :
  redis w !! lockKey productId = Some e ->
  (forall t, t <= now w + 6 * latency (env w) io_lock + 1500 -> live t e = true) ->
  0 <= latency (env w) io_lock ->
  (forall n, retry_jitter (env w) n <= retryJitter) ->
  exists w',
    withLock productId fn options w = (w', inl (UnableToAcquireLock productId))
    /\ redis w' = redis w /\ db w' = db w /\ queue w' = queue w.
Proof.
  intros Hk Hlive Hlat Hjit.
  destruct (redlock_acquire_held (lockKey productId) (ttl (merge options)) e
              (now w + 6 * latency (env w) io_lock + 1500) 300 5 0 w)
    as (w' & Hacq & H1 & H2 & H3 & _); try assumption.
  - intros n. pose proof (Hjit n). unfold redlock_retryDelay, retryJitter in *.
    cbn [retryDelay defaultOptions] in *. lia.
  - lia.
  - exists w'. split; [|auto].
    unfold withLock, bind at 1, acquireLock, try_catch. unfold bind at 1.
    change (Z.to_nat retryCount) with 5%nat. rewrite Hacq. reflexivity.
Qed.

Lemma withLock_refuses_witness :
  exists w',
    withLock "P" (InventoryRepository.upsert (widget 50)) no_options (holding calm)
    = (w', inl (UnableToAcquireLock "P"))
    /\ redis w' = redis (holding calm) /\ db w' = db (holding calm)
    /\ queue w' = queue (holding calm).
Proof.
  apply (withLock_refuses_while_held "P" (InventoryRepository.upsert (widget 50))
           no_options (holding calm)
           {| entry_value := "nonce-1767261600000";
              entry_expires := Some (t0 + 10000) |}).
  - reflexivity.
  - intros t Ht. unfold live. cbn [entry_expires]. apply Z.ltb_lt.
    change (now (holding calm)) with t0 in Ht.
    change (latency (env (holding calm)) io_lock) with 0 in Ht. lia.
  - vm_compute. discriminate.
  - intros n. vm_compute. discriminate.
Defined.

Lemma withLock_frees_the_key_aux {T : Type} (productId : string) (fn : M T)
    (options : PartialLockOptions) (w w2 : World) (r : Exn + T) :
  redis_lookup (lockKey productId) (set_now (now w + latency (env w) io_lock) w) = None ->
  lock_fault (env w) = false ->
  fn (locked productId options w) = (w2, r) ->
  redis w2 = redis (locked productId options w) ->
  env w2 = env w ->
  release_fault (env w) = false ->
  now w2 + latency (env w) io_lock
  < now w + latency (env w) io_lock + ttl (merge options) ->
  exists w',
    withLock productId fn options w = (w', r)
    /\ redis w' = delete (lockKey productId) (redis w)
    /\ db w' = db w2 /\ queue w' = queue w2 /\ env w' = env w
    /\ now w' = now w2 + latency (env w) io_lock.
Proof.
  intros Hfree Hfault Hfn Hredis Henv Hrel Htime.
  unfold withLock, bind at 1. rewrite (acquireLock_free _ _ _ Hfree Hfault).
  unfold try_finally, bind, ret. rewrite Hfn.
  assert (Hrelease : releaseLock (lock_of productId options w) w2
          = (set_redis (delete (lockKey productId) (redis w2))
               (set_now (now w2 + latency (env w2) io_lock) w2), inr tt)).
  { apply releaseLock_held.
    - rewrite Henv. assumption.
    - rewrite Hredis. unfold locked, lock_of. tidy_world. cbn [resource lock_value expiration].
      apply lookup_insert_eq.
    - rewrite Henv. unfold lock_of. cbn [expiration]. assumption. }
  destruct r as [e|t]; rewrite Hrelease; (eexists; split; [reflexivity|]); tidy_world;
    rewrite Henv; (split; [|auto]); rewrite Hredis; unfold locked; tidy_world;
    apply delete_insert_eq.
Qed.

Lemma keeps_upsert_queue (inv : InternalInventory) (w : World) :
  queue (fst (InventoryRepository.upsert inv w)) = queue w.
Proof.
  destruct (upsert_outcome inv w) as [[_ ->]|(w' & e & -> & _ & _ & Hq & _)];
    [reflexivity | exact Hq].
Qed.

(** X19: when the key is free, [withLock] takes it, runs [fn] and gives
    the key back: if [fn] leaves Redis alone and is over before the
    lock expires, the outcome is that of [fn] and Redis afterwards has
    no lock key, whether [fn] returned or threw. *)
Theorem withLock_frees_the_key {T : Type} (productId : string) (fn : M T)
    (options : PartialLockOptions) (w w2 : World) (r : Exn + T) :
  redis_lookup (lockKey productId) (set_now (now w + latency (env w) io_lock) w) = None ->
  lock_fault (env w) = false ->
  fn (locked productId options w) = (w2, r) ->
  redis w2 = redis (locked productId options w) ->
  env w2 = env w ->
  release_fault (env w) = false ->
  now w2 + latency (env w) io_lock
  < now w + latency (env w) io_lock + ttl (merge options) ->
  exists w',
    withLock productId fn options w = (w', r)
    /\ redis w' = delete (lockKey productId) (redis w)
    /\ db w' = db w2 /\ queue w' = queue w2.
Proof.
  intros Hfree Hfault Hfn Hredis Henv Hrel Htime.
  destruct (withLock_frees_the_key_aux productId fn options w w2 r)
    as (w' & H1 & H2 & H3 & H4 & _); try assumption.
  exists w'. auto.
Qed.

Lemma withLock_free_witness :
  exists w',
    withLock "P" (InventoryRepository.upsert (widget 50)) no_options w0
    = (w', snd (InventoryRepository.upsert (widget 50) (locked "P" no_options w0)))
    /\ redis w' = delete (lockKey "P") (redis w0)
    /\ db w' = db (fst (InventoryRepository.upsert (widget 50) (locked "P" no_options w0)))
    /\ queue w'
       = queue (fst (InventoryRepository.upsert (widget 50) (locked "P" no_options w0))).
Proof.
  apply (withLock_frees_the_key "P" (InventoryRepository.upsert (widget 50)) no_options w0
           (fst (InventoryRepository.upsert (widget 50) (locked "P" no_options w0)))
           (snd (InventoryRepository.upsert (widget 50) (locked "P" no_options w0)))).
  - reflexivity.
  - reflexivity.
  - destruct (InventoryRepository.upsert _ _). reflexivity.
  - vm_compute. reflexivity.
  - vm_compute. reflexivity.
  - reflexivity.
  - vm_compute. reflexivity.
Defined.



(** X21: [executeUpdate] with the key free runs [upsert] under a lock
    of 10 seconds on the record's product: its outcome is that of
    [upsert] in the world holding the lock, the database is left as
    [upsert] left it whatever the release does, and the queue is not
    touched. *)
Theorem executeUpdate_runs_upsert_under_the_lock (inv : InternalInventory) (w : World) :
  redis_lookup (lockKey (productId inv)) (set_now (now w + latency (env w) io_lock) w)
  = None ->
  lock_fault (env w) = false ->
  let w1 := locked (productId inv) update_options w in
  exists w',
    InventoryService.executeUpdate inv w
    = (w', match snd (InventoryRepository.upsert inv w1) with
           | inl e => inl e
           | inr _ => inr tt
           end)
    /\ db w' = db (fst (InventoryRepository.upsert inv w1))
    /\ queue w' = queue w
    /\ redis w1 !! lockKey (productId inv)
       = Some {| entry_value := nonce (env w) (now w + latency (env w) io_lock);
                 entry_expires := Some (now w + latency (env w) io_lock + 10000) |}.
Proof.
  intros Hfree Hfault w1.
  unfold InventoryService.executeUpdate, withLock, bind at 1.
  fold update_options. rewrite (acquireLock_free _ _ _ Hfree Hfault). fold w1.
  unfold try_finally, bind, ret.
  pose proof (keeps_upsert_queue inv w1) as Hq.
  destruct (InventoryRepository.upsert inv w1) as [w2 [e|row]]; cbn [fst snd] in *;
    destruct (releaseLock_frame (lock_of (productId inv) update_options w) w2)
      as (w3 & -> & Hd & Hqq & _);
    (exists w3; split; [reflexivity|]; split; [assumption|]; split;
     [rewrite Hqq, Hq; reflexivity | unfold w1, locked; tidy_world; apply lookup_insert_eq]).
Qed.

Lemma executeUpdate_witness :
  exists w',
    InventoryService.executeUpdate (widget 50) w0
    = (w', match snd (InventoryRepository.upsert (widget 50)
                        (locked "PROD-ABC-123" update_options w0)) with
           | inl e => inl e
           | inr _ => inr tt
           end)
    /\ db w' = db (fst (InventoryRepository.upsert (widget 50)
                          (locked "PROD-ABC-123" update_options w0)))
    /\ queue w' = queue w0
    /\ redis (locked "PROD-ABC-123" update_options w0) !! lockKey "PROD-ABC-123"
       = Some {| entry_value := nonce (env w0) (now w0 + latency (env w0) io_lock);
                 entry_expires := Some (now w0 + latency (env w0) io_lock + 10000) |}.
Proof.
  apply (executeUpdate_runs_upsert_under_the_lock (widget 50) w0).
  - reflexivity.
  - reflexivity.
Defined.

End LockMore.

(** ** The worker *)

Section WorkerMore.
Import Types Runtime Sample Scenario QueueService InventoryRepository InventoryWorker
  LockService Held Frame.

Ltac tidy_world :=
  cbn [env set_now set_db set_redis set_queue set_poller
       now db redis queue poller fst snd].

(** The lock library and the progress reports leave the database alone. *)
Lemma redlock_acquire_db (key : string) (ttl_ : Z) (tries : nat) :
  forall (attempt : nat) (w w' : World) (r : Exn + Lock),
  redlock_acquire tries attempt key ttl_ w = (w', r) -> db w' = db w.
Proof.
  induction tries as [|n IH]; intros attempt w w' r; cbn [redlock_acquire];
    cbv beta delta [bind elapse read update ret throw]; tidy_world;
    destruct (lock_fault (env w) || _).
  - intros [= <- _]. reflexivity.
  - intros [= <- _]. reflexivity.
  - intros H. apply IH in H. exact H.
  - intros [= <- _]. reflexivity.
Qed.

Lemma acquireLock_db (productId : string) (options : PartialLockOptions)
    (w w' : World) (r : Exn + Lock) :
  acquireLock productId options w = (w', r) -> db w' = db w.
Proof.
  unfold acquireLock, try_catch, bind, ret, throw.
  destruct (redlock_acquire _ _ _ _ w) as [w1 [e|l]] eqn:E; intros [= <- _];
    apply (redlock_acquire_db _ _ _ _ _ _ _ E).
Qed.

Lemma updateProgress_db (jobId : string) (n : Z) (w w' : World) (r : Exn + unit) :
  updateProgress jobId n w = (w', r) -> db w' = db w.
Proof.
  unfold updateProgress. cbv beta delta [bind elapse read update ret throw]. tidy_world.
  destruct (queue_fault (env w)); intros [= <- _]; reflexivity.
Qed.

(** An [executeUpdate] that returned has run a committed [upsert], and
    left the database as that [upsert] did. *)
Lemma executeUpdate_inr (inv : InternalInventory) (w w' : World) :
  InventoryService.executeUpdate inv w = (w', inr tt) ->
  exists w1 w2 r,
    db w1 = db w /\ upsert inv w1 = (w2, inr r) /\ db w' = db w2.
Proof.
  unfold InventoryService.executeUpdate, withLock, bind at 1.
  destruct (acquireLock _ _ w) as [w1 [e|lock]] eqn:Hacq; [discriminate|].
  apply acquireLock_db in Hacq.
  unfold try_finally, bind, ret.
  destruct (upsert inv w1) as [w2 [e|r]] eqn:Hup;
    destruct (releaseLock_frame lock w2) as (w3 & -> & Hd & _); [discriminate|].
  intros [= <-]. exists w1, w2, r. auto.
Qed.

Lemma processJob_inr (job : Job) (w w' : World) (res : JobResult) :
  processJob job w = (w', inr res) ->
  res = {| result_success := true;
           result_productId := productId (inventory (job_data job));
           result_quantity := quantity (inventory (job_data job)) |}
  /\ exists w1 w2 r,
       db w1 = db w /\ upsert (inventory (job_data job)) w1 = (w2, inr r) /\ db w' = db w2.
Proof.
  rewrite processJob_rethrows. unfold bind at 1.
  destruct (updateProgress (job_id job) 10 w) as [wa [e|[]]] eqn:Ha; [discriminate|].
  unfold bind at 1.
  destruct (InventoryService.executeUpdate _ wa) as [wb [e|[]]] eqn:Hb; [discriminate|].
  unfold bind at 1.
  destruct (updateProgress (job_id job) 100 wb) as [wc [e|[]]] eqn:Hc; [discriminate|].
  unfold ret. intros [= <- <-]. split; [reflexivity|].
  apply updateProgress_db in Ha, Hc.
  apply executeUpdate_inr in Hb as (w1 & w2 & r & H1 & H2 & H3).
  exists w1, w2, r. repeat split; congruence.
Qed.

(** X22: a job the worker completed has written its record: when the
    processor returned, the job is [completed] with one more attempt
    counted, the result names the record's product and quantity, the
    [inventory] table holds a row of that product and source with that
    quantity, and the audit table has grown by one row. *)
Theorem completed_job_wrote_its_record
    (w w' : World) (jobId : string) (j : Job) (res : JobResult) :
  find_job jobId (queue w) = Some j ->
  due (now w) j = true ->
  work jobId w = (w', Some (inr res)) ->
  let inv := inventory (job_data j) in
  (exists j',
     find_job jobId (queue w') = Some j'
     /\ attemptsMade j' = attemptsMade j + 1
     /\ job_state j' = completed)
  /\ res = {| result_success := true; result_productId := productId inv;
              result_quantity := quantity inv |}
  /\ (exists row,
        In row (inventory_rows (tables (db w')))
        /\ product_id row = productId inv
        /\ row_source row = source inv
        /\ row_quantity row = quantity inv)
  /\ List.length (audit_rows (tables (db w')))
     = S (List.length (audit_rows (tables (db w)))).
Proof.
  intros Hfind Hdue Hwork inv. revert Hwork. unfold work. rewrite Hfind, Hdue.
  set (running := with_state active (attemptsMade j) (job_run_at j) (job_progress j) j).
  set (w1 := set_queue (replace_job running (queue w)) w).
  assert (Hrun : find_job jobId (queue w1) = Some running).
  { apply (find_replace_job jobId (queue w) j running Hfind).
    apply (find_job_id jobId (queue w) j Hfind). }
  destruct (processJob running w1) as [w2 outcome] eqn:Hproc.
  pose proof (keeps_processJob running _ _ _ Hproc) as Hkeys.
  destruct (find_job_keys jobId _ _ running Hkeys Hrun) as (j2 & Hj2 & Hatt).
  rewrite Hj2. intros [= <- ->].
  apply processJob_inr in Hproc as (Hres & wa & wb & r & Ha & Hup & Hb).
  change (job_data running) with (job_data j) in Hres, Hup. fold inv in Hres, Hup.
  tidy_world. rewrite Hb.
  split; [|split; [exact Hres|split]].
  - exists (settle j2 (inr res : Exn + JobResult) (now w2)). split.
    + apply (find_replace_job jobId _ j2 _ Hj2). apply (find_job_id jobId _ _ Hj2).
    + unfold settle. cbn [with_state attemptsMade job_state]. rewrite Hatt. auto.
  - destruct (upsert_returned_row inv wa wb r Hup) as (row & _ & Hin & Hp & Hs & Hq & _).
    exists row. auto.
  - rewrite (upsert_audit_rows inv wa wb _ Hup), Ha, length_app.
    cbn [List.length]. subst w1. tidy_world. lia.
Qed.

Lemma completed_job_witness :
  (exists j',
     find_job the_job (queue (fst (work the_job (accepted 50)))) = Some j'
     /\ attemptsMade j' = 0 + 1
     /\ job_state j' = completed)
  /\ {| result_success := true; result_productId := "PROD-ABC-123";
        result_quantity := 50 |}
     = {| result_success := true; result_productId := productId (widget 50);
          result_quantity := quantity (widget 50) |}
  /\ (exists row,
        In row (inventory_rows (tables (db (fst (work the_job (accepted 50))))))
        /\ product_id row = productId (widget 50)
        /\ row_source row = source (widget 50)
        /\ row_quantity row = quantity (widget 50))
  /\ List.length (audit_rows (tables (db (fst (work the_job (accepted 50))))))
     = S (List.length (audit_rows (tables (db (accepted 50))))).
Proof.
  apply (completed_job_wrote_its_record
           (accepted 50) (fst (work the_job (accepted 50))) the_job
           (new_job "process-inventory-update" (job_of 50) 0 the_job t0)
           {| result_success := true; result_productId := "PROD-ABC-123";
              result_quantity := 50 |}).
  - vm_compute. reflexivity.
  - vm_compute. reflexivity.
  - vm_compute. reflexivity.
Defined.

End WorkerMore.

(** ** The polling service and the manual trigger *)

Section PollingMore.
Import Types Runtime PollingService Digits Cron Sample Scenario.

(** *** [parseInt] reads back what [String(n)] printed *)

Lemma read_digits_uint (d : Decimal.uint) :
  forall acc, JS.read_digits acc (NilEmpty.string_of_uint d) = (uint_value d acc, EmptyString).
Proof.
  induction d; intros acc; simpl; try apply IHd; reflexivity.
Qed.

Lemma uint_value_acc (d : Decimal.uint) :
  forall acc, uint_value d (Z.pos acc) = Z.pos (Pos.of_uint_acc d acc).
Proof.
  induction d; intros acc; simpl; try reflexivity;
    match goal with
    | |- uint_value _ ?z = _ =>
        match goal with
        | |- _ = Z.pos (Pos.of_uint_acc _ ?p) =>
            replace z with (Z.pos p) by lia; apply IHd
        end
    end.
Qed.

Lemma uint_value_0 (d : Decimal.uint) : uint_value d 0 = Z.of_N (Pos.of_uint d).
Proof.
  induction d; simpl; try reflexivity; try exact IHd;
    match goal with
    | |- uint_value _ ?z = _ => 
        match goal with
        | |- _ = Z.pos (Pos.of_uint_acc _ ?p) =>
            change z with (Z.pos p); apply uint_value_acc
        end
    end.
Qed.

Lemma parseInt_string_of_Z (n : Z) : 0 <= n -> parseInt (JS.string_of_Z n) = Some n.
Proof.
  intros Hn. rewrite string_of_Z_nonneg by exact Hn.
  unfold JS.string_of_N, NilZero.string_of_uint.
  assert (Hv : uint_value (N.to_uint (Z.to_N n)) 0 = n).
  { rewrite uint_value_0.
    change (Pos.of_uint (N.to_uint (Z.to_N n))) with (N.of_uint (N.to_uint (Z.to_N n))).
    rewrite DecimalN.Unsigned.of_to. lia. }
  pose proof (N_to_uint_nonnil (Z.to_N n)) as Hnil.
  pose proof (read_digits_uint (N.to_uint (Z.to_N n)) 0) as Hread.
  destruct (N.to_uint (Z.to_N n)) as [|d|d|d|d|d|d|d|d|d|d]; [congruence| ..];
    unfold parseInt; cbn [NilEmpty.string_of_uint JS.skip_space];
    repeat match goal with
    | |- context [JS.is_space ?c] =>
        let b := eval vm_compute in (JS.is_space c) in
        change (JS.is_space c) with b; cbv iota
    | |- context [JS.code ?c =? ?k] =>
        let b := eval vm_compute in (JS.code c =? k) in
        change (JS.code c =? k) with b; cbv iota
    | |- context [JS.is_digit ?c] =>
        let b := eval vm_compute in (JS.is_digit c) in
        change (JS.is_digit c) with b; cbv iota
    end;
    cbn [NilEmpty.string_of_uint] in Hread; rewrite Hread; cbn [fst]; rewrite Hv;
    reflexivity.
Qed.

Ltac tidy_world :=
  cbn [env set_now set_db set_redis set_queue set_poller set_running set_failures
       schedule_reset
       now db redis queue poller isRunning consecutiveFailures reset_timers fst snd].

Ltac run_cycle :=
  unfold cycle, getLastProcessedTimestamp, redis_get, fetchUpdates,
    InventoryService.processBatch, QueueService.addBatch, QueueService.queue_addBulk,
    updateLastProcessedTimestamp, redis_set, try_catch;
  cbv beta delta [bind elapse read update ret throw lift]; tidy_world.

(** What a cycle can have done when it is over: on an error the poller's
    fields and Redis are as before; on success the counter is [0]. *)
Lemma cycle_outcome (w w1 : World) (r : Exn + unit) :
  cycle w = (w1, r) ->
  env w1 = env w
  /\ isRunning (poller w1) = isRunning (poller w)
  /\ reset_timers (poller w1) = reset_timers (poller w)
  /\ db w1 = db w
  /\ match r with
     | inl _ => consecutiveFailures (poller w1) = consecutiveFailures (poller w)
                /\ redis w1 = redis w
     | inr _ => consecutiveFailures (poller w1) = 0
     end.
Proof.
  run_cycle.
  destruct (redis_fault (env w)) eqn:Hr.
  { intros [= <- <-]. tidy_world. auto 10. }
  destruct (redis_lookup _ _) as [[|c s]|]; tidy_world;
    (match goal with |- context [upstream (env w) ?s] => destruct (upstream (env w) s) as [e|data] end;
     [intros [= <- <-]; tidy_world; auto 10|]);
    (destruct (items_of data) as [e|[|x rest]]; [intros [= <- <-]; tidy_world; auto 10| |]);
    tidy_world; try (intros [= <- <-]; tidy_world; solve [auto 10]);
    (destruct (negb (forallb _ _));
     cbv beta delta [bind elapse read update ret throw lift]; tidy_world;
     [intros [= <- <-]; tidy_world; auto 10|]);
    (destruct (queue_fault (env w)); [intros [= <- <-]; tidy_world; auto 10|]);
    tidy_world; rewrite Hr; intros [= <- <-]; tidy_world; auto 10.
Qed.

Lemma poll_outcome (w : World) :
  exists w', poll w = (w', inr tt)
             /\ isRunning (poller w') = isRunning (poller w)
             /\ env w' = env w.
Proof.
  unfold poll. unfold bind at 1, read at 1.
  destruct (isRunning (poller w)) eqn:Hrun.
  - exists w. auto.
  - destruct (MAX_FAILURES <=? _).
    + eexists. split; [reflexivity|]. tidy_world. auto.
    + unfold bind at 1, update at 1, try_finally, try_catch.
      destruct (cycle (set_running true w)) as [w1 [e|[]]] eqn:E;
        apply cycle_outcome in E as (He & _);
        cbv beta delta [update]; tidy_world;
        (eexists; split; [reflexivity|]); tidy_world; auto.
Qed.


(** X23: [poll] never rejects, whatever happens in the cycle, and it
    leaves the running flag as it found it: a cycle that ran has
    cleared it again. *)
Theorem poll_never_rejects (w : World) :
  snd (poll w) = inr tt
  /\ isRunning (poller (fst (poll w))) = isRunning (poller w).
Proof.
  destruct (poll_outcome w) as (w' & -> & H & _). auto.
Qed.

(** X24: a cycle that ran decides the failure count: when it completed,
    the count is 0; when it threw, the count is one more than before and
    Redis, with the cursor, is as before.  The flag is cleared either
    way. *)
Theorem poll_counts_the_cycle (w w1 : World) (r : Exn + unit) :
  isRunning (poller w) = false ->
  consecutiveFailures (poller w) < MAX_FAILURES ->
  cycle (set_running true w) = (w1, r) ->
  exists w',
    poll w = (w', inr tt)
    /\ isRunning (poller w') = false
    /\ now w' = now w1
    /\ match r with
       | inr _ => consecutiveFailures (poller w') = 0
       | inl _ => consecutiveFailures (poller w') = consecutiveFailures (poller w) + 1
                  /\ redis w' = redis w
       end.
Proof.
  intros Hrun Hfail Hc.
  unfold poll. unfold bind at 1, read at 1. rewrite Hrun.
  destruct (Z.leb_spec MAX_FAILURES (consecutiveFailures (poller w))); [lia|].
  unfold bind at 1, update at 1, try_finally, try_catch.
  rewrite Hc. apply cycle_outcome in Hc as (_ & _ & _ & _ & Hr).
  destruct r as [e|[]]; cbv beta delta [update]; tidy_world;
    (eexists; split; [reflexivity|]); tidy_world; revert Hr; tidy_world; intuition congruence.
Qed.

Lemma poll_counts_witness :
  exists w',
    poll (fresh outage t0) = (w', inr tt)
    /\ isRunning (poller w') = false
    /\ now w' = t0 + 105
    /\ consecutiveFailures (poller w') = 1
    /\ redis w' = redis (fresh outage t0).
Proof.
  destruct (poll_counts_the_cycle (fresh outage t0)
              (fst (cycle (set_running true (fresh outage t0))))
              (inl (AxiosError (Some 503))))
    as (w' & H1 & H2 & H3 & H4 & H5).
  - reflexivity.
  - vm_compute. reflexivity.
  - vm_compute. reflexivity.
  - exists w'. repeat split; assumption.
Defined.

Lemma partition_due (f : Z -> bool) (l : list Z) (x : Z) :
  In x l -> f x = true -> fst (partition f l) <> [].
Proof.
  induction l as [|y l IH]; [intros []|].
  intros [->|Hin] Hx; simpl; destruct (partition f l) as [d p].
  - rewrite Hx. discriminate.
  - destruct (f y); [discriminate|]. apply IH; assumption.
Qed.

Lemma poll_skips_the_cycle_aux (w : World) :
  isRunning (poller w) = true \/ MAX_FAILURES <= consecutiveFailures (poller w) ->
  exists w',
    poll w = (w', inr tt)
    /\ now w' = now w /\ redis w' = redis w /\ queue w' = queue w /\ db w' = db w
    /\ consecutiveFailures (poller w') = consecutiveFailures (poller w)
    /\ isRunning (poller w') = isRunning (poller w)
    /\ env w' = env w.
Proof.
  intros H. unfold poll. unfold bind at 1, read at 1.
  destruct (isRunning (poller w)) eqn:Hrun.
  - exists w. rewrite Hrun. auto 10.
  - destruct H as [H|H]; [discriminate|].
    destruct (Z.leb_spec MAX_FAILURES (consecutiveFailures (poller w))); [|lia].
    eexists. split; [reflexivity|]. tidy_world. auto 10.
Qed.

(** X25: [poll] skips the cycle when one is in flight or when the
    count has reached 3: no request is made, no time passes, and Redis,
    the queue, the database and the count are as before. *)
Theorem poll_skips_the_cycle (w : World) :
  isRunning (poller w) = true \/ MAX_FAILURES <= consecutiveFailures (poller w) ->
  exists w',
    poll w = (w', inr tt)
    /\ now w' = now w /\ redis w' = redis w /\ queue w' = queue w /\ db w' = db w
    /\ consecutiveFailures (poller w') = consecutiveFailures (poller w)
    /\ isRunning (poller w') = isRunning (poller w).
Proof.
  intros H. unfold poll. unfold bind at 1, read at 1.
  destruct (isRunning (poller w)) eqn:Hrun.
  - exists w. rewrite Hrun. auto 10.
  - destruct H as [H|H]; [discriminate|].
    destruct (Z.leb_spec MAX_FAILURES (consecutiveFailures (poller w))); [|lia].
    eexists. split; [reflexivity|]. tidy_world. auto 10.
Qed.

Lemma poll_skips_witness :
  (exists w', poll polling = (w', inr tt)
      /\ now w' = now polling /\ redis w' = redis polling /\ queue w' = queue polling
      /\ db w' = db polling
      /\ consecutiveFailures (poller w') = consecutiveFailures (poller polling)
      /\ isRunning (poller w') = isRunning (poller polling))
  /\ (exists w', poll tripped = (w', inr tt)
      /\ now w' = now tripped /\ redis w' = redis tripped /\ queue w' = queue tripped
      /\ db w' = db tripped
      /\ consecutiveFailures (poller w') = consecutiveFailures (poller tripped)
      /\ isRunning (poller w') = isRunning (poller tripped)).
Proof.
  split.
  - apply (poll_skips_the_cycle polling). left. reflexivity.
  - apply (poll_skips_the_cycle tripped). right. vm_compute. discriminate.
Defined.

(** X26: the open circuit closes after fifteen minutes: a [poll] on the
    open circuit, with no timer pending, sets one; when the timers fire
    at [t], the count is back to 0 if [t] is 900000 ms or more after
    that [poll], and unchanged, with the timer still pending, before. *)
Theorem open_circuit_closes_after_fifteen_minutes (w : World) (t : Z) :
  isRunning (poller w) = false ->
  MAX_FAILURES <= consecutiveFailures (poller w) ->
  reset_timers (poller w) = [] ->
  let w' := fire_timers (set_now t (fst (poll w))) in
  consecutiveFailures (poller w')
  = (if now w + 900000 <=? t then 0 else consecutiveFailures (poller w))
  /\ reset_timers (poller w') = (if now w + 900000 <=? t then [] else [now w + 900000]).
Proof.
  intros Hrun Hopen Hnone.
  assert (Hpoll : poll w = (schedule_reset w, inr tt)).
  { unfold poll. unfold bind at 1, read at 1. rewrite Hrun.
    destruct (Z.leb_spec MAX_FAILURES (consecutiveFailures (poller w))); [|lia].
    reflexivity. }
  rewrite Hpoll. cbv zeta. unfold fire_timers. tidy_world.
  rewrite Hnone. cbn [app partition].
  change (15 * 60 * 1000) with 900000.
  destruct (now w + 900000 <=? t); tidy_world; auto.
Qed.

Lemma open_circuit_witness :
  consecutiveFailures (poller (fire_timers (set_now (t0 + 900000) (fst (poll tripped)))))
  = 0
  /\ reset_timers (poller (fire_timers (set_now (t0 + 900000) (fst (poll tripped)))))
  = [].
Proof.
  apply (open_circuit_closes_after_fifteen_minutes tripped (t0 + 900000)).
  - reflexivity.
  - vm_compute. discriminate.
  - reflexivity.
Defined.

Lemma poll_failed_fetch (w : World) :
  isRunning (poller w) = false ->
  consecutiveFailures (poller w) < MAX_FAILURES ->
  redis_fault (env w) = false ->
  (forall since, exists e, upstream (env w) since = inl e) ->
  poll w
  = (set_failures (consecutiveFailures (poller w) + 1)
       (set_now (now w + latency (env w) io_redis + latency (env w) io_http) w),
     inr tt).
Proof.
  intros Hrun Hfail Hr Hup.
  unfold poll. unfold bind at 1, read at 1. rewrite Hrun.
  destruct (Z.leb_spec MAX_FAILURES (consecutiveFailures (poller w))); [lia|].
  unfold bind at 1, update at 1, try_finally. unfold try_catch at 1.
  run_cycle. rewrite Hr.
  assert (Hdown : forall (s : option Z) (w' : World),
            (let '(w1, r0) := (w', upstream (env w) s) in
             match r0 with
             | inl e => (w1, inl e)
             | inr a => (w1, items_of a)
             end) = (w', match upstream (env w) s with
                         | inl e => inl e | inr a => items_of a end)).
  { intros s w'. destruct (upstream (env w) s); reflexivity. }
  destruct (redis_lookup _ _) as [[|c s]|]; tidy_world;
    match goal with |- context [upstream (env w) ?s] =>
      destruct (Hup s) as [e ->] end;
    tidy_world; unfold set_failures, set_running, set_poller, set_now; tidy_world;
    rewrite Hrun; reflexivity.
Qed.

(** X27: against an upstream that keeps failing, the circuit opens at
    the third failure: after [n] polls in a row the count is
    [min 3 (count + n)], and the time spent is that of one cursor read
    and one request for each counted failure, so the polls after the
    third make no request.  Redis, the queue and the database are as
    before. *)
Theorem circuit_opens_after_three_failures (n : nat) :
  forall w : World,
  isRunning (poller w) = false ->
  0 <= consecutiveFailures (poller w) <= MAX_FAILURES ->
  redis_fault (env w) = false ->
  (forall since, exists e, upstream (env w) since = inl e) ->
  exists w',
    polls n w = (w', inr tt)
    /\ consecutiveFailures (poller w')
       = Z.min MAX_FAILURES (consecutiveFailures (poller w) + Z.of_nat n)
    /\ now w'
       = now w + (consecutiveFailures (poller w') - consecutiveFailures (poller w))
                 * (latency (env w) io_redis + latency (env w) io_http)
    /\ redis w' = redis w /\ queue w' = queue w /\ db w' = db w.
Proof.
  induction n as [|n IH]; intros w Hrun Hf Hr Hup.
  - exists w. split; [reflexivity|]. unfold MAX_FAILURES in *. repeat split; lia.
  - cbn [polls]. unfold bind at 1.
    destruct (Z.eq_dec (consecutiveFailures (poller w)) MAX_FAILURES) as [Hopen|Hclosed].
    + destruct (poll_skips_the_cycle_aux w) as (w1 & -> & Hn & Hre & Hq & Hd & Hc & Hi & He);
        [right; lia|].
      destruct (IH w1) as (w' & -> & H1 & H2 & H3 & H4 & H5);
        try congruence; try (rewrite He; assumption).
      exists w'. split; [reflexivity|].
      rewrite H1, Hc, He, Hn in *. repeat split; try congruence; try lia.
    + rewrite (poll_failed_fetch w) by (try assumption; lia).
      match goal with |- context [polls n ?x] => set (w1 := x) end.
      assert (E1 : env w1 = env w) by reflexivity.
      assert (F1 : consecutiveFailures (poller w1) = consecutiveFailures (poller w) + 1)
        by reflexivity.
      assert (N1 : now w1 = now w + latency (env w) io_redis + latency (env w) io_http)
        by reflexivity.
      assert (R1 : isRunning (poller w1) = isRunning (poller w)) by reflexivity.
      assert (S1 : redis w1 = redis w /\ queue w1 = queue w /\ db w1 = db w)
        by (repeat split).
      destruct S1 as (S1 & S2 & S3).
      destruct (IH w1) as (w' & -> & H1 & H2 & H3 & H4 & H5).
      * congruence.
      * lia.
      * rewrite E1. assumption.
      * rewrite E1. assumption.
      * exists w'. split; [reflexivity|].
        rewrite E1 in H2. unfold MAX_FAILURES in *.
        repeat split; try congruence; try lia.
Qed.

Lemma circuit_opens_witness :
  exists w',
    polls 5 (fresh outage t0) = (w', inr tt)
    /\ consecutiveFailures (poller w') = 3
    /\ now w' = t0 + 315
    /\ redis w' = redis (fresh outage t0) /\ queue w' = queue (fresh outage t0)
    /\ db w' = db (fresh outage t0).
Proof.
  destruct (circuit_opens_after_three_failures 5 (fresh outage t0))
    as (w' & H1 & H2 & H3 & H4).
  - reflexivity.
  - vm_compute. split; discriminate.
  - reflexivity.
  - intros since. exists (AxiosError (Some 503)). reflexivity.
  - exists w'. split; [exact H1|]. split; [exact H2|]. split; [|exact H4].
    rewrite H3, H2. reflexivity.
Defined.

(** X28: the cursor goes round: what [updateLastProcessedTimestamp]
    writes, the Unix seconds of [Date.now()] as decimal text,
    [getLastProcessedTimestamp] reads back as that number. *)
Theorem cursor_round_trip (w : World) :
  redis_fault (env w) = false ->
  0 <= now w ->
  exists w1 w2,
    updateLastProcessedTimestamp w = (w1, inr tt)
    /\ getLastProcessedTimestamp w1 = (w2, inr (Some (now w / 1000))).
Proof.
  intros Hr Hpos.
  assert (Hsec : 0 <= now w / 1000) by (apply Z.div_pos; lia).
  pose proof (parseInt_string_of_Z _ Hsec) as Hparse.
  unfold updateLastProcessedTimestamp, getLastProcessedTimestamp, redis_set, redis_get.
  cbv beta delta [bind elapse read update ret throw]. tidy_world.
  rewrite Hr. tidy_world.
  eexists. exists (set_now (now w + latency (env w) io_redis + latency (env w) io_redis)
      (set_redis
         (<[cursor_key:={| entry_value := JS.string_of_Z (now w / 1000);
                           entry_expires := None |}]> (redis w))
         (set_now (now w + latency (env w) io_redis) w))).
  split; [reflexivity|]. tidy_world. rewrite Hr.
  unfold redis_lookup. tidy_world. rewrite lookup_insert_eq.
  cbn [live entry_expires entry_value].
  destruct (JS.string_of_Z _) as [|c r] eqn:E.
  - discriminate Hparse.
  - rewrite Hparse. reflexivity.
Qed.

Lemma cursor_round_trip_witness :
  exists w1 w2,
    updateLastProcessedTimestamp w0 = (w1, inr tt)
    /\ getLastProcessedTimestamp w1 = (w2, inr (Some (now w0 / 1000))).
Proof.
  apply (cursor_round_trip w0).
  - reflexivity.
  - vm_compute. discriminate.
Defined.

(** X29: [POST /trigger-poll] always answers 200 with
    [Polling triggered]: [poll] swallows every error of the cycle, so
    the route's [catch] with its 500 is never reached. *)
Theorem trigger_poll_always_answers_200 (w : World) :
  exists w',
    Endpoints.trigger_poll w
    = (w', inr {| Endpoints.reply_status := 200; Endpoints.reply_success := true;
                  Endpoints.reply_error := None;
                  Endpoints.reply_message := Some "Polling triggered";
                  Endpoints.reply_data := None |}).
Proof.
  unfold Endpoints.trigger_poll, triggerManual, try_catch. unfold bind at 1.
  destruct (poll_outcome w) as (w' & -> & _). exists w'. reflexivity.
Qed.

End PollingMore.

(** ** From the webhook to the table *)

Section Pipeline.
Import Types Runtime Sample Scenario Signed QueueService InventoryRepository
  InventoryWorker LockService Held Frame WebhookController.

Ltac tidy_world :=
  cbn [env set_now set_db set_redis set_queue set_poller
       now db redis queue poller fst snd].






End Pipeline.

